(** * Utterance resolution in the intent service

    A shallow embedding of [source/intent_services/__init__.py] (class
    [IntentService]) and of [source/configuration/locale.py], followed by
    the properties of the dispatch pipeline, the active-skill registry,
    the context and vocabulary handlers and the introspection queries.

    Conventions of the embedding:
    - a handler is a computation in a state-and-exception monad [M]: Python
      mutations made before an exception is raised persist, so a raising
      computation still hands back the store it reached;
    - the store is the pair of the service's own attributes (record
      [IntentService]) and the state of the collaborators that live outside
      this module (type [World]: matcher engines, skills behind the bus);
    - everything the module imports but does not define (the matcher
      engines, the bus round trip, the wall clock, the interpreter's
      Unicode tables) is a field of the environment record [Env];
    - [time.time()] readings are integers in the clock's unit (seconds);
      binary floating point rounding is not modelled, and message payloads
      carry no floats. *)

From Stdlib Require Import Ascii ZArith QArith_base Lia.
From stdpp Require Import gmap strings list sorting pretty.

Set Warnings "-register-all".
Local Open Scope Z_scope.

(** ** Python values and messages *)

(** The JSON-like values found in message payloads. *)
Inductive Value :=
| VNone
| VBool (b : bool)
| VInt (z : Z)
| VStr (s : string)
| VList (l : list Value)
| VDict (d : gmap string Value).

(** Python truthiness ([if v:], [v or w]). *)
Definition truthy (v : Value) : bool :=
  match v with
  | VNone => false
  | VBool b => b
  | VInt z => negb (z =? 0)
  | VStr s => negb (String.eqb s "")
  | VList l => match l with [] => false | _ :: _ => true end
  | VDict d => negb (Nat.eqb (size d) 0)
  end.

(** [a or b]. *)
Definition py_or (a b : Value) : Value := if truthy a then a else b.

(** [d.get(k)] : the value, or [None]. *)
Definition dict_get (d : gmap string Value) (k : string) : Value :=
  default VNone (d !! k).

(** [d.get(k, dflt)]. *)
Definition dict_get_default (d : gmap string Value) (k : string) (dflt : Value) : Value :=
  default dflt (d !! k).

(** [k in d]. *)
Definition dict_has (d : gmap string Value) (k : string) : bool :=
  bool_decide (is_Some (d !! k)).

(** [str.lower()] on text that is all ASCII: A-Z become a-z, the other
    characters stay. *)
Definition lower_ascii (c : ascii) : ascii :=
  let n := nat_of_ascii c in
  if (Nat.leb 65 n && Nat.leb n 90)%bool then ascii_of_nat (n + 32) else c.

Fixpoint lower_ascii_text (s : string) : string :=
  match s with
  | EmptyString => EmptyString
  | String c r => String (lower_ascii c) (lower_ascii_text r)
  end.

(** Whether a text (held as its bytes) has ASCII characters only. *)
Fixpoint all_ascii (s : string) : bool :=
  match s with
  | EmptyString => true
  | String c r => (Nat.ltb (nat_of_ascii c) 128 && all_ascii r)%bool
  end.

(** Truthiness of an optional string attribute ([None] and [""] are
    falsy). *)
Definition truthy_str (o : option string) : bool :=
  match o with
  | Some s => negb (String.eqb s "")
  | None => false
  end.

(** Modelled from the spec: the class [Message] of
    [source.messagebus.message] is not among the sources; a message has a
    topic, a payload and the context that carries its correlation
    metadata. *)
Record Message := mkMessage {
  msg_type : string;
  data : gmap string Value;
  context : gmap string Value
}.

(** The response tuple of a matcher (the namedtuple [IntentMatch]). A
    namedtuple of four fields is always truthy, so [if match:] tests
    [match is not None]. *)
Record IntentMatch := mkIntentMatch {
  intent_service : string;
  intent_type : option string;
  intent_data : option (gmap string Value);
  skill_id : option string
}.

(** The exceptions the modelled code can raise, all of them instances of
    [Exception]. What is raised without being one ([SystemExit],
    [KeyboardInterrupt]) passes through every [except Exception] and ends
    the handler; it is modelled where the code does something else with
    it, at the [finally: break] of the skill manager (see [Outcome]). *)
Inductive Exception :=
| IndexError
| KeyError (k : string)
| AttributeError
| TypeError
| ExternalError (what : string).

Inductive Res (A : Type) :=
| Ret (a : A)
| Raise (e : Exception).
Arguments Ret {A} a.
Arguments Raise {A} e.

(** The entries of [match_funcs]: [self._converse],
    [padatious_matcher.match_high], [self.adapt_service.match_intent],
    [self.persona.match], [self.fallback.high_prio],
    [padatious_matcher.match_medium], [self.fallback.medium_prio],
    [padatious_matcher.match_low] and [self.fallback.low_prio]. *)
Inductive MatchFunc :=
| Converse
| PadatiousHigh
| Adapt
| Persona
| FallbackHigh
| PadatiousMedium
| FallbackMedium
| PadatiousLow
| FallbackLow.

#[global] Instance MatchFunc_eq_dec : EqDecision MatchFunc.
Proof. solve_decision. Defined.

(** [match_func.__name__]. *)
Definition func_name (f : MatchFunc) : string :=
  match f with
  | Converse => "_converse"
  | PadatiousHigh => "match_high"
  | Adapt => "match_intent"
  | Persona => "match"
  | FallbackHigh => "high_prio"
  | PadatiousMedium => "match_medium"
  | FallbackMedium => "medium_prio"
  | PadatiousLow => "match_low"
  | FallbackLow => "low_prio"
  end.

(** The entity built by [handle_add_context]. *)
Record ContextEntity := mkContextEntity {
  ce_confidence : Q;
  ce_data : list (string * Value);
  ce_match : string;
  ce_key : string;
  ce_origin : Value
}.

(** Calls forwarded to the Adapt service. *)
Inductive AdaptCall :=
| RegisterVocabulary (entity_value entity_type alias_of regex_str : Value)
| InjectContext (entity : ContextEntity)
| RemoveContext (ctx : Value)
| ClearContext.

(** Records written through [LOG]: [LOG.exception(err)],
    [LOG.exception(text)] while handling [e], [LOG.error], [LOG.warning]
    and [LOG.debug]. *)
Inductive LogRecord :=
| LogException (e : Exception)
| LogFailure (text : string) (e : Exception)
| LogError (skill : Value) (error_msg : Value)
| LogWarning (text : string)
| LogDebug (text : string) (v : Value).

(** ** The service's attributes *)

Record IntentService := mkIntentService {
  (** [self.active_skills]: pairs [[skill_id, timestamp]], front first *)
  active_skills : list (string * Z);
  (** [self.converse_timeout], in minutes *)
  converse_timeout : Z;
  (** [self.registered_vocab] *)
  registered_vocab : list (gmap string Value);
  (** messages handed to [self.bus.emit], oldest first *)
  emitted : list Message;
  (** requests handed to [self.bus.wait_for_response], oldest first *)
  requests : list Message;
  (** calls made on [self.adapt_service], oldest first *)
  adapt_calls : list AdaptCall;
  (** records written to the log, oldest first *)
  log : list LogRecord;
  (** number of [time.time()] readings taken so far *)
  ticks : nat;
  (** [Configuration.get().get("lang")], the process-wide default *)
  config_lang : option string;
  (** observation only: the match functions invoked so far with their
      utterance and language arguments; no modelled code reads it *)
  called : list (MatchFunc * Value * Value);
  (** whether the attribute [self.padatious_service] exists: [__init__]
      assigns it inside a [try] and nothing else does *)
  padatious_service : bool
}.

Definition set_active_skills (l : list (string * Z)) (s : IntentService) : IntentService :=
  mkIntentService l (converse_timeout s) (registered_vocab s) (emitted s)
    (requests s) (adapt_calls s) (log s) (ticks s) (config_lang s) (called s)
    (padatious_service s).

Definition set_registered_vocab (l : list (gmap string Value)) (s : IntentService) : IntentService :=
  mkIntentService (active_skills s) (converse_timeout s) l (emitted s)
    (requests s) (adapt_calls s) (log s) (ticks s) (config_lang s) (called s)
    (padatious_service s).

Definition set_emitted (l : list Message) (s : IntentService) : IntentService :=
  mkIntentService (active_skills s) (converse_timeout s) (registered_vocab s) l
    (requests s) (adapt_calls s) (log s) (ticks s) (config_lang s) (called s)
    (padatious_service s).

Definition set_requests (l : list Message) (s : IntentService) : IntentService :=
  mkIntentService (active_skills s) (converse_timeout s) (registered_vocab s) (emitted s)
    l (adapt_calls s) (log s) (ticks s) (config_lang s) (called s)
    (padatious_service s).

Definition set_adapt_calls (l : list AdaptCall) (s : IntentService) : IntentService :=
  mkIntentService (active_skills s) (converse_timeout s) (registered_vocab s) (emitted s)
    (requests s) l (log s) (ticks s) (config_lang s) (called s)
    (padatious_service s).

Definition set_log (l : list LogRecord) (s : IntentService) : IntentService :=
  mkIntentService (active_skills s) (converse_timeout s) (registered_vocab s) (emitted s)
    (requests s) (adapt_calls s) l (ticks s) (config_lang s) (called s)
    (padatious_service s).

Definition set_ticks (n : nat) (s : IntentService) : IntentService :=
  mkIntentService (active_skills s) (converse_timeout s) (registered_vocab s) (emitted s)
    (requests s) (adapt_calls s) (log s) n (config_lang s) (called s)
    (padatious_service s).

Definition set_called (l : list (MatchFunc * Value * Value)) (s : IntentService) : IntentService :=
  mkIntentService (active_skills s) (converse_timeout s) (registered_vocab s) (emitted s)
    (requests s) (adapt_calls s) (log s) (ticks s) (config_lang s) l
    (padatious_service s).

(** The state [__init__] leaves behind, for a given configuration and
    for what [PadatiousService(bus, config["padatious"])] did: when it
    raised, the attribute is not assigned and the failure is logged (the
    text of the record is followed by the [repr] of the exception). *)
Definition init (cfg_lang : option string) (padatious : Res unit) : IntentService :=
  mkIntentService [] 10 [] [] [] []
    (match padatious with
     | Ret _ => []
     | Raise err => [LogFailure "Failed to create padatious handlers" err]
     end)
    0 cfg_lang []
    (match padatious with Ret _ => true | Raise _ => false end).

(** ** The environment: what the module imports *)

Class Env := mkEnv {
  (** state of the collaborators outside this module *)
  World : Type;
  (** the [k]-th reading of [time.time()] taken by the service *)
  clock : nat → Z;
  (** the matchers other than [_converse]: [match_func(utterance, lang,
      message)] returns a match or [None], or raises *)
  ext_match : MatchFunc → Value → Value → Message → World → Res (option IntentMatch) * World;
  (** [bus.wait_for_response(msg, reply_type)]: the reply, or [None] on
      time-out *)
  wait_for_response : Message → string → World → option Message * World;
  (** the effect of a call on the Adapt service, which may raise *)
  adapt_call : AdaptCall → World → Res unit * World;
  (** [self.intent_api.get_active_skills()] *)
  intent_api_get_active_skills : World → Res Value * World;
  (** [str(v)] for lists and dicts *)
  py_str_container : Value → string;
  (** [str.lower()] on text that is not all ASCII *)
  unicode_lower : string → string;
  (** how [Message.reply] derives the context of the reply *)
  reply_context : gmap string Value → gmap string Value
}.

(** [str.lower()]. *)
Definition lower `{E : Env} (s : string) : string :=
  if all_ascii s then lower_ascii_text s else unicode_lower s.

(** Modelled from the spec: [Message.forward] and [Message.reply] belong to
    the absent class [Message]. A forwarded message keeps the context of
    the original and carries no payload; a reply carries the given payload
    (an absent one is the empty dict) and a context derived from the
    original's. *)
Definition Message_forward (m : Message) (ty : string) : Message :=
  mkMessage ty ∅ (context m).

Definition Message_reply `{E : Env} (m : Message) (ty : string) (d : gmap string Value) : Message :=
  mkMessage ty d (reply_context (context m)).

(** [reply.data[k] = v]. *)
Definition set_data (k : string) (v : Value) (m : Message) : Message :=
  mkMessage (msg_type m) (<[k := v]> (data m)) (context m).

(** [str(v)]. *)
Definition py_str `{E : Env} (v : Value) : string :=
  match v with
  | VNone => "None"
  | VBool true => "True"
  | VBool false => "False"
  | VInt z => pretty z
  | VStr s => s
  | VList _ | VDict _ => py_str_container v
  end.

(** [if not isinstance(word, str): word = str(word)], then the text of
    [word]. *)
Definition word_text `{E : Env} (word : Value) : string :=
  match word with
  | VStr s => s
  | _ => py_str word
  end.

(** [v == s] for a string literal [s]. *)
Definition eq_str (v : Value) (s : string) : bool :=
  match v with VStr t => bool_decide (t = s) | _ => false end.

(** [Optional[str]] as a payload value. *)
Definition opt_str (o : option string) : Value :=
  match o with Some s => VStr s | None => VNone end.

(** ** The monad of handlers *)

Section Model.
Context `{E : Env}.

Definition Sys : Type := IntentService * World.

Definition M (A : Type) : Type := Sys → Res A * Sys.

#[global] Instance M_ret : MRet M := λ A a s, (Ret a, s).

#[global] Instance M_bind : MBind M := λ A B k m s,
  match m s with
  | (Ret a, s') => k a s'
  | (Raise e, s') => (Raise e, s')
  end.

Definition raise {A} (e : Exception) : M A := λ s, (Raise e, s).

Definition get_self : M IntentService := λ s, (Ret s.1, s).

Definition modify_self (f : IntentService → IntentService) : M unit :=
  λ s, (Ret tt, (f s.1, s.2)).

(** A call that only involves the collaborators. *)
Definition lift_world {A} (f : World → Res A * World) : M A :=
  λ s, let (r, w) := f s.2 in (r, (s.1, w)).

(** [time.time()] *)
Definition time_time : M Z :=
  λ s, (Ret (clock (ticks s.1)), (set_ticks (S (ticks s.1)) s.1, s.2)).

(** [self.bus.emit(m)] *)
Definition emit (m : Message) : M unit :=
  modify_self (λ s, set_emitted (emitted s ++ [m]) s).

(** [LOG.x(...)] *)
Definition log_record (r : LogRecord) : M unit :=
  modify_self (λ s, set_log (log s ++ [r]) s).

(** [self.bus.wait_for_response(m, reply_type)] *)
Definition bus_wait_for_response (m : Message) (reply_type : string) : M (option Message) :=
  modify_self (λ s, set_requests (requests s ++ [m]) s);;
  lift_world (λ w, let (r, w') := wait_for_response m reply_type w in (Ret r, w')).

(** A method call on [self.adapt_service]. *)
Definition adapt (c : AdaptCall) : M unit :=
  modify_self (λ s, set_adapt_calls (adapt_calls s ++ [c]) s);;
  lift_world (adapt_call c).

(** [d[k]] *)
Definition dict_index (d : gmap string Value) (k : string) : M Value :=
  match d !! k with
  | Some v => mret v
  | None => raise (KeyError k)
  end.

(** ** Language of a message *)

(** [_get_message_lang(message)] *)
Definition _get_message_lang (message : Message) : M string :=
  s ← get_self;
  let default_lang := default "en-us" (config_lang s) in
  match dict_get_default (data message) "lang" (VStr default_lang) with
  | VStr l => mret (lower l)
  | _ => raise AttributeError
  end.

(** [set_default_lf_lang(lang_code)]: the call into Lingua Franca is
    commented out in the source; what is left returns a constant. *)
Definition set_default_lf_lang (lang_code : string) : M string :=
  mret "en-us".

(** ** The active-skill registry *)

(** [l.remove(x)]: drops the first element equal to [x]. *)
Fixpoint list_remove (x : string * Z) (l : list (string * Z)) : list (string * Z) :=
  match l with
  | [] => []
  | y :: r => if decide (y = x) then r else y :: list_remove x r
  end.

(** The [for] loop of [remove_active_skill], which removes from the list
    it iterates over: the iterator holds an index [i], yields [l[i]]
    while [i < len(l)], and is not told about removals. The list never
    grows, so [length l] rounds exhaust it. *)
Fixpoint remove_loop (fuel : nat) (i : nat) (skill_id : string)
    (l : list (string * Z)) : list (string * Z) :=
  match fuel with
  | O => l
  | S fuel' =>
    match l !! i with
    | None => l
    | Some skill =>
      if decide (skill.1 = skill_id)
      then remove_loop fuel' (S i) skill_id (list_remove skill l)
      else remove_loop fuel' (S i) skill_id l
    end
  end.

Definition remove_from (skill_id : string) (l : list (string * Z)) : list (string * Z) :=
  remove_loop (length l) 0 skill_id l.

(** [self.remove_active_skill(skill_id)] *)
Definition remove_active_skill (skill_id : string) : M unit :=
  modify_self (λ s, set_active_skills (remove_from skill_id (active_skills s)) s).

(** [self.add_active_skill(skill_id)] *)
Definition add_active_skill (skill_id : string) : M unit :=
  if decide (skill_id ≠ "")
  then
    remove_active_skill skill_id;;
    now ← time_time;
    modify_self (λ s, set_active_skills ((skill_id, now) :: active_skills s) s)
  else
    log_record (LogWarning "Skill ID was empty, won't add to list of active skills.").

(** ** Converse *)

(** [self.handle_converse_error(message)]. An id that is not a string
    equals no entry of the registry, so the removal loop leaves the list
    as it is. *)
Definition handle_converse_error (message : Message) : M unit :=
  skill ← dict_index (data message) "skill_id";
  error_msg ← dict_index (data message) "error";
  log_record (LogError skill error_msg);;
  if eq_str error_msg "skill id does not exist"
  then match skill with
       | VStr sid => remove_active_skill sid
       | _ => mret tt
       end
  else mret tt.

(** The request [do_converse] sends for a skill. *)
Definition converse_request (utterances : Value) (skill : string) (lang : Value)
    (message : Message) : Message :=
  Message_reply message "skill.converse.request"
    (<["skill_id" := VStr skill]> (<["utterances" := utterances]> {["lang" := lang]})).

(** [self.do_converse(utterances, skill_id, lang, message)] *)
Definition do_converse (utterances : Value) (skill : string) (lang : Value)
    (message : Message) : M Value :=
  result ← bus_wait_for_response (converse_request utterances skill lang message)
             "skill.converse.response";
  match result with
  | Some r =>
    if dict_has (data r) "error"
    then handle_converse_error r;; mret (VBool false)
    else mret (dict_get_default (data r) "result" (VBool false))
  | None => mret (VBool false)
  end.

(** The list comprehension at the head of [_converse]: one clock reading
    per entry. *)
Fixpoint prune_expired (timeout : Z) (l : list (string * Z)) : M (list (string * Z)) :=
  match l with
  | [] => mret []
  | skill :: r =>
    now ← time_time;
    kept ← prune_expired timeout r;
    mret (if decide (now - skill.2 ≤ timeout * 60) then skill :: kept else kept)
  end.

(** The [for] loop of [_converse] over a copy of the registry. *)
Fixpoint converse_loop (skills : list (string * Z)) (utterance lang : Value)
    (message : Message) : M (option IntentMatch) :=
  match skills with
  | [] => mret None
  | skill :: r =>
    v ← do_converse utterance skill.1 lang message;
    if truthy v
    then mret (Some (mkIntentMatch "Converse" None None (Some skill.1)))
    else converse_loop r utterance lang message
  end.

(** The assignment [self.active_skills = [...]] that opens [_converse]
    (the block under "check for conversation time-out"). *)
Definition prune_registry : M unit :=
  s ← get_self;
  kept ← prune_expired (converse_timeout s) (active_skills s);
  modify_self (set_active_skills kept).

(** [self._converse(utterance, lang, message)] *)
Definition _converse (utterance lang : Value) (message : Message) : M (option IntentMatch) :=
  prune_registry;;
  v ← lift_world intent_api_get_active_skills;
  log_record (LogDebug "skills to handle conversation: " v);;
  s' ← get_self;
  converse_loop (active_skills s') utterance lang message.

(** [self.reset_converse(message)] *)
Fixpoint reset_loop (skills : list (string * Z)) (lang : Value) (message : Message) : M unit :=
  match skills with
  | [] => mret tt
  | skill :: r =>
    do_converse VNone skill.1 lang message;;
    reset_loop r lang message
  end.

Definition reset_converse (message : Message) : M unit :=
  lang ← _get_message_lang message;
  set_default_lf_lang lang;;
  s ← get_self;
  reset_loop (active_skills s) (VStr lang) message.
End Model.

(** ** The dispatch pipeline and the bus handlers *)

(** [match_funcs] of [handle_utterance], in priority order. *)
Definition match_funcs : list MatchFunc :=
  [Converse; PadatiousHigh; Adapt; Persona; FallbackHigh;
   PadatiousMedium; FallbackMedium; PadatiousLow; FallbackLow].

(** [match_funcs] of [handle_get_intent]. *)
Definition probe_funcs : list MatchFunc :=
  [PadatiousHigh; Adapt; PadatiousMedium; PadatiousLow].

(** [message.data.get("utterances", [])[0]]: indexing an empty or absent
    list raises [IndexError]; a string yields its first character; a dict
    has no key [0]; the other values are not subscriptable. *)
Definition first_utterance (message : Message) : Res Value :=
  match dict_get_default (data message) "utterances" (VList []) with
  | VList (u :: _) => Ret u
  | VList [] => Raise IndexError
  | VStr (String c _) => Ret (VStr (String c EmptyString))
  | VStr EmptyString => Raise IndexError
  | VDict _ => Raise (KeyError "0")
  | VNone | VBool _ | VInt _ => Raise TypeError
  end.

(** An entry of the registry as a payload value, [[skill_id, timestamp]]. *)
Definition entry_value (skill : string * Z) : Value :=
  VList [VStr skill.1; VInt skill.2].

(** The payload [handle_get_intent] replies with for a match: the match's
    [intent_data] with four keys assigned. *)
Definition probe_payload (f : MatchFunc) (mt : IntentMatch) (d : gmap string Value) : gmap string Value :=
  <["handler" := VStr (func_name f)]>
    (<["skill_id" := opt_str (skill_id mt)]>
      (<["intent_service" := VStr (intent_service mt)]>
        (<["intent_name" := opt_str (intent_type mt)]> d))).

Section Handlers.
Context `{E : Env}.

(** [match_func(utterance, lang, message)] for an entry of the list. *)
Definition call_match_func (f : MatchFunc) (utterance lang : Value) (message : Message)
    : M (option IntentMatch) :=
  modify_self (λ s, set_called (called s ++ [(f, utterance, lang)]) s);;
  match f with
  | Converse => _converse utterance lang message
  | _ => lift_world (ext_match f utterance lang message)
  end.

(** The loop over [match_funcs] with its [break]. *)
Fixpoint run_match_funcs (fs : list MatchFunc) (utterance lang : Value) (message : Message)
    : M (option IntentMatch) :=
  match fs with
  | [] => mret None
  | f :: r =>
    m ← call_match_func f utterance lang message;
    match m with
    | Some mt => mret (Some mt)
    | None => run_match_funcs r utterance lang message
    end
  end.

(** [self.send_complete_intent_failure(message)] *)
Definition send_complete_intent_failure (message : Message) : M unit :=
  emit (Message_forward message "complete_intent_failure").

(** The targeted message published for a match that names an intent. *)
Definition intent_message (message : Message) (mt : IntentMatch) (utterance : Value) : Message :=
  set_data "utterances" utterance
    (Message_reply message (default "" (intent_type mt)) (default ∅ (intent_data mt))).

(** The branch [if match:] of [handle_utterance]. *)
Definition dispatch_match (message : Message) (mt : IntentMatch) (utterance : Value) : M unit :=
  (if truthy_str (skill_id mt)
   then add_active_skill (default "" (skill_id mt))
   else mret tt);;
  (if truthy_str (intent_type mt)
   then emit (intent_message message mt utterance)
   else mret tt).

(** [PadatiousMatcher(self.padatious_service)]: reading the attribute
    raises [AttributeError] when [__init__] could not create the service;
    building the matcher has no effect on the service. *)
Definition padatious_matcher : M unit :=
  s ← get_self;
  if padatious_service s then mret tt else raise AttributeError.

(** The body of the [try] block of [handle_utterance]; it hands back the
    value of the variable [match] for the statements below. Building the
    [Stopwatch] has no effect on the service and is left out. *)
Definition handle_utterance_try (message : Message) : M (option IntentMatch) :=
  lang ← _get_message_lang message;
  set_default_lf_lang lang;;
  utterance ← (λ s, (first_utterance message, s));
  padatious_matcher;;
  m ← run_match_funcs match_funcs utterance (VStr lang) message;
  match m with
  | Some mt => dispatch_match message mt utterance
  | None => send_complete_intent_failure message
  end;;
  mret m.

(** [self.handle_utterance(message)]: the [except Exception] clause logs
    and swallows whatever the body raises. *)
Definition handle_utterance (message : Message) : M unit :=
  λ s, match handle_utterance_try message s with
       | (Ret _, s') => (Ret tt, s')
       | (Raise err, s') => log_record (LogException err) s'
       end.

(** [self.handle_register_vocab(message)] *)
Definition handle_register_vocab (message : Message) : M unit :=
  let entity_value := dict_get (data message) "entity_value" in
  let entity_type := dict_get (data message) "entity_type" in
  let regex_str := dict_get (data message) "regex" in
  let alias_of := dict_get (data message) "alias_of" in
  adapt (RegisterVocabulary entity_value entity_type alias_of regex_str);;
  modify_self (λ s, set_registered_vocab (registered_vocab s ++ [data message]) s).

(** The entity [handle_add_context] builds. *)
Definition context_entity (message : Message) : ContextEntity :=
  let ctx := dict_get (data message) "context" in
  let word := py_or (dict_get (data message) "word") (VStr "") in
  let origin := py_or (dict_get (data message) "origin") (VStr "") in
  let word := word_text word in
  mkContextEntity 1%Q [(word, ctx)] word word origin.

(** [self.handle_add_context(message)] *)
Definition handle_add_context (message : Message) : M unit :=
  adapt (InjectContext (context_entity message)).

(** [self.handle_remove_context(message)] *)
Definition handle_remove_context (message : Message) : M unit :=
  let ctx := dict_get (data message) "context" in
  if truthy ctx then adapt (RemoveContext ctx) else mret tt.

(** [self.handle_clear_context(_)] *)
Definition handle_clear_context : M unit :=
  adapt ClearContext.

(** The loop of [handle_get_intent]; [true] when it left through the
    [return] inside the loop. Assigning into an [intent_data] that is
    [None] raises [TypeError]. *)
Fixpoint probe_loop (fs : list MatchFunc) (utterance lang : Value) (message : Message)
    : M bool :=
  match fs with
  | [] => mret false
  | f :: r =>
    m ← call_match_func f utterance lang message;
    match m with
    | Some mt =>
      (if truthy_str (intent_type mt)
       then match intent_data mt with
            | Some d =>
              emit (Message_reply message "intent.service.intent.reply"
                      {["intent" := VDict (probe_payload f mt d)]})
            | None => raise TypeError
            end
       else mret tt);;
      mret true
    | None => probe_loop r utterance lang message
    end
  end.

(** [self.handle_get_intent(message)] *)
Definition handle_get_intent (message : Message) : M unit :=
  utterance ← dict_index (data message) "utterance";
  let lang := dict_get_default (data message) "lang" (VStr "en-us") in
  padatious_matcher;;
  returned ← probe_loop probe_funcs utterance lang message;
  if returned : bool
  then mret tt
  else emit (Message_reply message "intent.service.intent.reply" {["intent" := VNone]}).

(** [self.handle_get_active_skills(message)] *)
Definition handle_get_active_skills (message : Message) : M unit :=
  s ← get_self;
  emit (Message_reply message "intent.service.active_skills.reply"
          {["skills" := VList (entry_value <$> active_skills s)]}).

(** [self.handle_vocab_manifest(message)] *)
Definition handle_vocab_manifest (message : Message) : M unit :=
  s ← get_self;
  emit (Message_reply message "intent.service.adapt.vocab.manifest"
          {["vocab" := VList (VDict <$> registered_vocab s)]}).
End Handlers.

(** ** Events *)

(** What can happen to the service: a message on one of the topics it
    subscribed to, or a call of one of the two registry methods. *)
Inductive Event :=
| Utterance (m : Message)
| SpeechUnknown (m : Message)
| RegisterVocab (m : Message)
| AddContext (m : Message)
| RemoveContextEv (m : Message)
| ClearContextEv
| GetIntent (m : Message)
| GetActiveSkills (m : Message)
| VocabManifest (m : Message)
| Activate (skill : string)
| Deactivate (skill : string).

Section Events.
Context `{E : Env}.

Definition handler (ev : Event) : M unit :=
  match ev with
  | Utterance m => handle_utterance m
  | SpeechUnknown m => reset_converse m
  | RegisterVocab m => handle_register_vocab m
  | AddContext m => handle_add_context m
  | RemoveContextEv m => handle_remove_context m
  | ClearContextEv => handle_clear_context
  | GetIntent m => handle_get_intent m
  | GetActiveSkills m => handle_get_active_skills m
  | VocabManifest m => handle_vocab_manifest m
  | Activate skill => add_active_skill skill
  | Deactivate skill => remove_active_skill skill
  end.

(** One event: the store the handler leaves behind, whether it returned
    or raised. *)
Definition step (ev : Event) (s : Sys) : Sys := (handler ev s).2.

Definition run (evs : list Event) (s : Sys) : Sys := foldl (λ s ev, step ev s) s evs.

(** The states of the service after some events, from the state that
    [__init__] builds. *)
Definition reachable (s : Sys) : Prop :=
  ∃ cfg padatious w evs, s = run evs (init cfg padatious, w).
End Events.

(** ** Vocabulary of the statements *)

Section Vocabulary.
Context `{E : Env}.

(** The entries [prune_expired] keeps when its first clock reading is
    reading number [k]. *)
Fixpoint kept_at (timeout : Z) (k : nat) (l : list (string * Z)) : list (string * Z) :=
  match l with
  | [] => []
  | skill :: r =>
    if decide (clock k - skill.2 ≤ timeout * 60)
    then skill :: kept_at timeout (S k) r
    else kept_at timeout (S k) r
  end.

(** The match functions of [fs] are called in turn from store [s], each
    returns [None], and they leave store [s']. *)
Inductive no_match (u lang : Value) (msg : Message) : list MatchFunc → Sys → Sys → Prop :=
| no_match_nil s : no_match u lang msg [] s s
| no_match_cons f r s s1 s2 :
    call_match_func f u lang msg s = (Ret None, s1) →
    no_match u lang msg r s1 s2 →
    no_match u lang msg (f :: r) s s2.

(** The store with a call of [f] noted in the trace. *)
Definition noted (f : MatchFunc) (u lang : Value) (s : Sys) : Sys :=
  (set_called (called s.1 ++ [(f, u, lang)]) s.1, s.2).

(** What consulting matcher [f] from store [s] gives: the conversation
    step is [_converse]; every other matcher is the engine behind
    [ext_match], which acts on the collaborators only. *)
Definition consult (f : MatchFunc) (u lang : Value) (msg : Message) (s : Sys)
    : Res (option IntentMatch) * Sys :=
  match f with
  | Converse => _converse u lang msg (noted f u lang s)
  | _ => ((ext_match f u lang msg s.2).1,
          ((noted f u lang s).1, (ext_match f u lang msg s.2).2))
  end.

(** The matchers of [fs], consulted in turn from store [s], all answer
    [None], and they leave store [s']. *)
Inductive declined (u lang : Value) (msg : Message) : list MatchFunc → Sys → Sys → Prop :=
| declined_nil s : declined u lang msg [] s s
| declined_cons f r s s1 s2 :
    consult f u lang msg s = (Ret None, s1) →
    declined u lang msg r s1 s2 →
    declined u lang msg (f :: r) s s2.

(** The skills of [l] are asked in turn from store [s], none of them
    handles, and they leave store [s']. *)
Inductive all_declined (u lang : Value) (msg : Message) : list (string * Z) → Sys → Sys → Prop :=
| all_declined_nil s : all_declined u lang msg [] s s
| all_declined_cons skill r v s s1 s2 :
    do_converse u skill.1 lang msg s = (Ret v, s1) →
    truthy v = false →
    all_declined u lang msg r s1 s2 →
    all_declined u lang msg (skill :: r) s s2.

(** What a computation appended to a log of the service. *)
Definition new_of {A} (field : IntentService → list A) (s s' : Sys) : list A :=
  drop (length (field s.1)) (field s'.1).

(** Between stores [s] and [s'] exactly the match functions [fs] were
    invoked, in this order, each with utterance [u] and language [lang]. *)
Definition tried (fs : list MatchFunc) (u lang : Value) (s s' : Sys) : Prop :=
  called s'.1 = called s.1 ++ ((λ f, (f, u, lang)) <$> fs).

(** What the branch [if match:] does to the store. *)
Definition after_dispatch (message : Message) (mt : IntentMatch) (u : Value)
    (s : IntentService) : IntentService :=
  let s1 := if truthy_str (skill_id mt)
            then set_active_skills
                   ((default "" (skill_id mt), clock (ticks s))
                    :: remove_from (default "" (skill_id mt)) (active_skills s))
                   (set_ticks (S (ticks s)) s)
            else s in
  if truthy_str (intent_type mt)
  then set_emitted (emitted s1 ++ [intent_message message mt u]) s1
  else s1.

(** Between stores [s] and [s'] exactly the skills of [l] were sent a
    converse request, in this order. *)
Definition asked (l : list (string * Z)) (u lang : Value) (msg : Message) (s s' : Sys) : Prop :=
  requests s'.1 = requests s.1 ++ ((λ skill, converse_request u skill.1 lang msg) <$> l).

(** What [handle_converse_error] does to the service for a reply that
    names the skill [sid] and the error [err]. *)
Definition after_error (sid err : Value) (s : IntentService) : IntentService :=
  let s1 := set_log (log s ++ [LogError sid err]) s in
  if eq_str err "skill id does not exist"
  then match sid with
       | VStr skill => set_active_skills (remove_from skill (active_skills s1)) s1
       | _ => s1
       end
  else s1.

(** The store in which [do_converse] reads the reply to request [req]. *)
Definition after_request (req : Message) (s : Sys) : Sys :=
  (set_requests (requests s.1 ++ [req]) s.1,
   (wait_for_response req "skill.converse.response" s.2).2).

(** The store in which the loop of [_converse] starts: the registry is
    pruned and the debug line is written. *)
Definition converse_start (v : Value) (s : Sys) : Sys :=
  (set_log (log s.1 ++ [LogDebug "skills to handle conversation: " v])
     (set_active_skills
        (kept_at (converse_timeout s.1) (ticks s.1) (active_skills s.1))
        (set_ticks (ticks s.1 + length (active_skills s.1)) s.1)),
   (intent_api_get_active_skills s.2).2).

(** The skill a converse request targets. *)
Definition target (request : Message) : Value := dict_get (data request) "skill_id".

(** The message [send_complete_intent_failure] publishes for an event. *)
Definition failure_message (message : Message) : Message :=
  Message_forward message "complete_intent_failure".

(** The clock never runs backwards. *)
Definition monotone_clock : Prop := ∀ i j : nat, (i ≤ j)%nat → clock i ≤ clock j.

(** No two entries of the registry have the same skill id. *)
Definition unique_ids (s : IntentService) : Prop := NoDup (active_skills s).*1.

(** The registry runs from the latest activation to the earliest, and
    every timestamp in it is a clock reading the service took. *)
Definition recency_ordered (s : IntentService) : Prop :=
  StronglySorted (λ a b : string * Z, b.2 ≤ a.2) (active_skills s)
  ∧ Forall (λ e : string * Z, ∃ k, (k < ticks s)%nat ∧ e.2 = clock k) (active_skills s).

(** A computation keeps a property of the service's attributes, whether
    it returns or raises. *)
Definition preserves {A} (P : IntentService → Prop) (m : M A) : Prop :=
  ∀ s, P s.1 → P (m s).2.1.

(** Properties kept by every mutation that the converse path and the
    registry methods perform: clock readings, appends to the request
    log and the log, replacing the registry by a sublist of itself, and
    the insertion made by [add_active_skill]. *)
Record converse_stable (P : IntentService → Prop) : Prop := {
  st_tick : ∀ s, P s → P (set_ticks (S (ticks s)) s);
  st_requests : ∀ s l, P s → P (set_requests l s);
  st_log : ∀ s l, P s → P (set_log l s);
  st_sub : ∀ s l, l `sublist_of` active_skills s → P s → P (set_active_skills l s);
  st_insert : ∀ s skill, skill ≠ "" → P s →
    P (set_active_skills ((skill, clock (ticks s)) :: remove_from skill (active_skills s))
         (set_ticks (S (ticks s)) s))
}.

(** Properties kept, in addition, by the call trace, by publishing, by
    calls on Adapt and by appending to the vocabulary log. *)
Record stable (P : IntentService → Prop) : Prop := {
  st_converse : converse_stable P;
  st_called : ∀ s l, P s → P (set_called l s);
  st_emitted : ∀ s l, P s → P (set_emitted l s);
  st_adapt_calls : ∀ s l, P s → P (set_adapt_calls l s);
  st_vocab : ∀ s d, P s → P (set_registered_vocab (registered_vocab s ++ [d]) s)
}.
End Vocabulary.

(** ** Concrete environments, for evaluating the model *)

(** An environment whose collaborators keep no state: matcher [f] always
    answers [matchers f], the bus answers a request [m] with [replies m],
    and the [k]-th clock reading is [clk k]. The texts used with it are
    ASCII, so its [unicode_lower] is never consulted. *)
Definition scripted (matchers : MatchFunc → Res (option IntentMatch))
    (replies : Message → option Message) (clk : nat → Z) : Env :=
  {| World := unit;
     clock := clk;
     ext_match := λ f _ _ _ w, (matchers f, w);
     wait_for_response := λ m _ w, (replies m, w);
     adapt_call := λ _ w, (Ret tt, w);
     intent_api_get_active_skills := λ w, (Ret VNone, w);
     py_str_container := λ _, "";
     unicode_lower := λ s, s;
     reply_context := λ c, c |}.

(** No matcher matches, nobody answers on the bus. *)
Definition silent : Env := scripted (λ _, Ret None) (λ _, None) (λ k, Z.of_nat k).

Definition weather_match : IntentMatch :=
  mkIntentMatch "Adapt" (Some "weather.intent") (Some {["place" := VStr "here"]})
    (Some "weather-skill").

(** Only Adapt matches. *)
Definition adapt_only : Env :=
  scripted (λ f, match f with Adapt => Ret (Some weather_match) | _ => Ret None end)
    (λ _, None) (λ k, Z.of_nat k).

(** Padatious raises in its high tier; Adapt would match. *)
Definition padatious_raises : Env :=
  scripted (λ f, match f with
                 | PadatiousHigh => Raise (ExternalError "padatious")
                 | Adapt => Ret (Some weather_match)
                 | _ => Ret None
                 end)
    (λ _, None) (λ k, Z.of_nat k).

(** Padatious answers with a match that names no intent. *)
Definition untyped_match : Env :=
  scripted (λ f, match f with
                 | PadatiousHigh => Ret (Some (mkIntentMatch "Padatious" None (Some ∅) (Some "timer-skill")))
                 | _ => Ret None
                 end)
    (λ _, None) (λ k, Z.of_nat k).

(** Every skill asked over the bus answers [{skill_id, result: true}]. *)
Definition accepting_reply (m : Message) : option Message :=
  Some (mkMessage "skill.converse.response"
          (<["skill_id" := dict_get (data m) "skill_id"]> {["result" := VBool true]}) ∅).

Definition skills_accept : Env :=
  scripted (λ f, match f with
                 | PadatiousHigh => Ret (Some weather_match)
                 | _ => Ret None
                 end)
    accepting_reply (λ k, Z.of_nat k).

(** Every skill asked over the bus is reported as gone. *)
Definition gone_reply (m : Message) : option Message :=
  Some (mkMessage "skill.converse.response"
          (<["skill_id" := dict_get (data m) "skill_id"]>
             {["error" := VStr "skill id does not exist"]}) ∅).

Definition skills_gone : Env := scripted (λ _, Ret None) gone_reply (λ k, Z.of_nat k).

(** Every skill asked over the bus is answered with an error that names
    no skill; Adapt would match. *)
Definition nameless_error_reply (m : Message) : option Message :=
  Some (mkMessage "skill.converse.response"
          {["error" := VStr "exception in converse method"]} ∅).

Definition nameless_errors : Env :=
  scripted (λ f, match f with Adapt => Ret (Some weather_match) | _ => Ret None end)
    nameless_error_reply (λ k, Z.of_nat k).

(** A clock that jumps by an hour at each reading. *)
Definition hourly : Env := scripted (λ _, Ret None) accepting_reply (λ k, 3600 * Z.of_nat k).

Definition utterance_event (text : string) : Message :=
  mkMessage "recognizer_loop:utterance" {["utterances" := VList [VStr text]]} ∅.

(** ** Footprints of the events *)

(** The events whose handlers reach code that assigns the registry. *)
Definition touches_registry (ev : Event) : bool :=
  match ev with
  | Utterance _ | SpeechUnknown _ | Activate _ | Deactivate _ => true
  | _ => false
  end.

(** The events whose handlers reach a call of [self.bus.emit]. *)
Definition may_publish (ev : Event) : bool :=
  match ev with
  | Utterance _ | GetIntent _ | GetActiveSkills _ | VocabManifest _ => true
  | _ => false
  end.

(** The events whose handlers reach a call of
    [self.bus.wait_for_response]. *)
Definition may_request (ev : Event) : bool :=
  match ev with
  | Utterance _ | SpeechUnknown _ => true
  | _ => false
  end.

(** Between stores [s] and [s'] the service handed converse requests,
    and nothing else, to [wait_for_response]. *)
Definition sent_requests_only (s s' : IntentService) : Prop :=
  ∃ reqs, requests s' = requests s ++ reqs
    ∧ Forall (λ r, msg_type r = "skill.converse.request") reqs.

Section Footprints.
Context `{E : Env}.

(** Properties kept by the mutations of the converse path that do not
    insert into the registry: clock readings, appends to the request log
    and the log, and replacing the registry by a sublist of itself. *)
Record shrink_stable (P : IntentService → Prop) : Prop := {
  sh_tick : ∀ s, P s → P (set_ticks (S (ticks s)) s);
  sh_requests : ∀ s l, P s → P (set_requests l s);
  sh_log : ∀ s l, P s → P (set_log l s);
  sh_called : ∀ s l, P s → P (set_called l s);
  sh_sub : ∀ s l, l `sublist_of` active_skills s → P s → P (set_active_skills l s)
}.

(** The skills of [l] are asked in turn from store [s] by
    [reset_converse], none of the round trips raises, and they leave
    store [s']. *)
Inductive all_notified (lang : Value) (msg : Message) : list (string * Z) → Sys → Sys → Prop :=
| all_notified_nil s : all_notified lang msg [] s s
| all_notified_cons skill r v s s1 s2 :
    do_converse VNone skill.1 lang msg s = (Ret v, s1) →
    all_notified lang msg r s1 s2 →
    all_notified lang msg (skill :: r) s s2.
End Footprints.

(** A registry in which an id is repeated (no run of events builds it). *)
Definition repeated_registry : IntentService :=
  mkIntentService [("X", 1); ("Y", 2); ("X", 3)] 10 [] [] [] [] [] 0 None [] true.

(** ** The chat context handler *)

(** Modelled from the spec: [ChatMessageHistory] (langchain) and
    [LLM.set_chat_memory] are not among the sources; a chat memory is the
    list of the messages added to it, each a user message or an AI
    message with its content, and [set_chat_memory] replaces the memory
    the language model holds. The library validates the content when it
    builds the message: a string is taken as it is; what it makes of any
    other value (it may coerce it, or raise) is the field
    [message_content]. *)
Class ChatHistory := mkChatHistory {
  message_content : Value → Res Value
}.

Inductive ChatMessage :=
| HumanMessage (content : Value)
| AIMessage (content : Value).

Definition chat_content (c : ChatMessage) : Value :=
  match c with HumanMessage v | AIMessage v => v end.

(** [for x in v]: the elements of a list, the keys of a dict, the
    characters of a string (here its bytes); the other values are not
    iterable. *)
Definition py_iter (v : Value) : Res (list Value) :=
  match v with
  | VList l => Ret l
  | VDict d => Ret (VStr <$> (map_to_list d).*1)
  | VStr s => Ret ((λ c, VStr (String c EmptyString)) <$> String.list_ascii_of_string s)
  | VNone | VBool _ | VInt _ => Raise TypeError
  end.

(** [v[k]] for a string key [k]: only a dict can be indexed by a string. *)
Definition py_subscript (v : Value) (k : string) : Res Value :=
  match v with
  | VDict d => match d !! k with Some x => Ret x | None => Raise (KeyError k) end
  | _ => Raise TypeError
  end.

(** The content of the message that [add_user_message(message=content)]
    or [add_ai_message(message=content)] builds. *)
Definition built_content `{C : ChatHistory} (content : Value) : Res Value :=
  match content with
  | VStr text => Ret (VStr text)
  | _ => message_content content
  end.

(** The [for] loop of [handle_context] over the entries, filling the
    fresh [chat_memory]. *)
Fixpoint context_loop `{C : ChatHistory} (entries : list Value)
    (chat_memory : list ChatMessage) : Res (list ChatMessage) :=
  match entries with
  | [] => Ret chat_memory
  | entry :: r =>
    match py_subscript entry "role" with
    | Raise e => Raise e
    | Ret role =>
      match py_subscript entry "content" with
      | Raise e => Raise e
      | Ret content =>
        if truthy content
        then match built_content content with
             | Raise e => Raise e
             | Ret c =>
               context_loop r
                 (chat_memory ++ [if eq_str role "user" then HumanMessage c else AIMessage c])
             end
        else context_loop r chat_memory
      end
    end
  end.

(** [self.handle_context(message)], on the memory the language model
    holds: the result and the memory it holds afterwards. *)
Definition handle_context `{C : ChatHistory} (message : Message)
    (llm_memory : list ChatMessage)
    : Res unit * list ChatMessage :=
  match py_iter (dict_get_default (data message) "utterance_context" (VDict ∅)) with
  | Raise e => (Raise e, llm_memory)
  | Ret entries =>
    match context_loop entries [] with
    | Ret chat_memory => (Ret tt, chat_memory)
    | Raise e => (Raise e, llm_memory)
    end
  end.

(** A library that refuses every content that is not a string. *)
Definition strings_only : ChatHistory :=
  {| message_content := λ _, Raise (ExternalError "ValidationError") |}.

(** The message an entry of the context contributes, if any. *)
Definition chat_message_of (entry : gmap string Value) : option ChatMessage :=
  let content := dict_get entry "content" in
  if truthy content
  then Some (if eq_str (dict_get entry "role") "user"
             then HumanMessage content else AIMessage content)
  else None.

(** ** The directory of skill names *)

(** The keys of a Python dict among the payload values: [True] and [1]
    (and [False] and [0]) are the same key; lists and dicts cannot be
    keys. *)
Inductive Key :=
| KNone
| KNum (z : Z)
| KStr (s : string).

#[global] Instance Key_eq_dec : EqDecision Key.
Proof. solve_decision. Defined.

#[global] Instance Key_countable : Countable Key :=
  inj_countable'
    (λ k, match k with
          | KNone => inl ()
          | KNum z => inr (inl z)
          | KStr s => inr (inr s)
          end)
    (λ x, match x with
          | inl _ => KNone
          | inr (inl z) => KNum z
          | inr (inr s) => KStr s
          end)
    (λ k, match k with KNone | KNum _ | KStr _ => eq_refl end).

(** The key a value stands for, or [TypeError] (unhashable). *)
Definition hash_key (v : Value) : Res Key :=
  match v with
  | VNone => Ret KNone
  | VBool b => Ret (KNum (if b then 1 else 0))
  | VInt z => Ret (KNum z)
  | VStr s => Ret (KStr s)
  | VList _ | VDict _ => Raise TypeError
  end.

(** [self.update_skill_name_dict(message)] on [self.skill_names]: in
    [d[k] = v] the value is evaluated before the key. *)
Definition update_skill_name_dict (message : Message) (skill_names : gmap Key Value)
    : Res unit * gmap Key Value :=
  match data message !! "name" with
  | None => (Raise (KeyError "name"), skill_names)
  | Some name =>
    match data message !! "id" with
    | None => (Raise (KeyError "id"), skill_names)
    | Some id =>
      match hash_key id with
      | Raise e => (Raise e, skill_names)
      | Ret k => (Ret tt, <[k := name]> skill_names)
      end
    end
  end.

(** [self.get_skill_name(skill_id)] *)
Definition get_skill_name (skill : Value) (skill_names : gmap Key Value) : Res Value :=
  match hash_key skill with
  | Raise e => Raise e
  | Ret k => Ret (default skill (skill_names !! k))
  end.

(** ** The skill manager's side of the converse round trip *)

(** What [handle_converse_request] reads of a [SkillLoader]. *)
Record SkillLoader := mkSkillLoader {
  sl_skill_id : string;
  sl_loaded : bool
}.

(** What a call into skill code can do: return or raise an [Exception]
    ([Done]), or raise something that is not an [Exception]
    ([SystemExit], [KeyboardInterrupt], [GeneratorExit]), which an
    [except Exception] clause lets through. *)
Inductive Outcome (A : Type) :=
| Done (r : Res A)
| BaseRaised (name : string).
Arguments Done {A} r.
Arguments BaseRaised {A} name.

(** The skills behind the loaders: what the manager calls on them. *)
Class Skills `{E : Env} := mkSkills {
  (** [len(signature(loader.instance.converse).parameters)], which raises
      when there is no instance or no such method *)
  converse_arity : SkillLoader → Outcome nat;
  (** [loader.instance.converse(message=message)] *)
  converse_with_message : SkillLoader → Message → World → Outcome Value * World;
  (** [loader.instance.converse(utterances=utterances, lang=lang)] *)
  converse_with_utterances : SkillLoader → Value → Value → World → Outcome Value * World
}.

Section SkillManager.
Context `{E : Env} `{S : !Skills}.

(** [self._emit_converse_error(message, skill_id, error_msg)]: the reply
    it emits. *)
Definition converse_error_reply (message : Message) (skill : Value) (error_msg : string)
    : Message :=
  Message_reply message "skill.converse.response"
    (<["skill_id" := skill]> {["error" := VStr error_msg]}).

(** [self._emit_converse_response(result, message, skill_loader)]: the
    reply it emits. *)
Definition converse_response_reply (result : Value) (message : Message) (loader : SkillLoader)
    : Message :=
  Message_reply message "skill.converse.response"
    (<["skill_id" := VStr (sl_skill_id loader)]> {["result" := result]}).

(** The [try] block for a loaded skill: the value [converse] returned, or
    what was raised on the way (by the inspection of the signature, by
    the look-up of [utterances] or [lang], or by the skill). *)
Definition call_converse (loader : SkillLoader) (message : Message) (w : World)
    : Outcome Value * World :=
  match converse_arity loader with
  | BaseRaised name => (BaseRaised name, w)
  | Done (Raise e) => (Done (Raise e), w)
  | Done (Ret n) =>
    if Nat.eqb n 1
    then converse_with_message loader message w
    else match data message !! "utterances" with
         | None => (Done (Raise (KeyError "utterances")), w)
         | Some utterances =>
           match data message !! "lang" with
           | None => (Done (Raise (KeyError "lang")), w)
           | Some lang => converse_with_utterances loader utterances lang w
           end
         end
  end.

(** The [for] loop over [self.skill_loaders.values()]: it is left, through
    one of the [break]s, at the first loader with the skill id; the
    messages emitted and the world left behind. What the [try] block
    raises and [except Exception] does not catch is discarded by the
    [break] of the [finally] clause: the loop ends with nothing emitted.
    Without a loader with the skill id the flag [skill_found] stays
    [False] and the error is emitted after the loop. *)
Fixpoint converse_request_loop (loaders : list SkillLoader) (skill : Value)
    (message : Message) (w : World) : list Message * World :=
  match loaders with
  | [] => ([converse_error_reply message skill "skill id does not exist"], w)
  | loader :: r =>
    if eq_str skill (sl_skill_id loader)
    then
      if negb (sl_loaded loader)
      then ([converse_error_reply message skill "converse requested but skill not loaded"], w)
      else match call_converse loader message w with
           | (Done (Ret result), w') => ([converse_response_reply result message loader], w')
           | (Done (Raise _), w') =>
             ([converse_error_reply message skill "exception in converse method"], w')
           | (BaseRaised _, w') => ([], w')
           end
    else converse_request_loop r skill message w
  end.

(** [SkillManager.handle_converse_request(message)], for the loaders in
    the order of [self.skill_loaders]: the result, the messages emitted
    and the world left behind. *)
Definition handle_converse_request (loaders : list SkillLoader) (message : Message)
    (w : World) : Res unit * list Message * World :=
  match data message !! "skill_id" with
  | None => (Raise (KeyError "skill_id"), [], w)
  | Some skill =>
    let (out, w') := converse_request_loop loaders skill message w in
    (Ret tt, out, w')
  end.
End SkillManager.

(** ** The upload queue of the skill manager *)

Section UploadQueue.
(** Loaders are compared by identity ([e != loader]). *)
Context {Loader : Type} `{EqDecision Loader}.
Context {Store : Type}.
(** [loader.instance.settings_meta.upload()] *)
Variable upload : Loader → Store → Res unit * Store.

Record UploadQueue := mkUploadQueue {
  uq_queue : list Loader;
  uq_started : bool
}.

(** [UploadQueue.put(loader)]. The [LOG.info] lines of [put] and [send]
    write to the process log only and are left out; the lock is held
    around the assignments and has no part in a single-threaded run. *)
Definition uq_put (loader : Loader) (q : UploadQueue) : UploadQueue :=
  mkUploadQueue (filter (λ e, e ≠ loader) (uq_queue q) ++ [loader]) (uq_started q).

(** [UploadQueue.stop()] *)
Definition uq_stop (q : UploadQueue) : UploadQueue := mkUploadQueue (uq_queue q) false.

(** [len(queue)] *)
Definition uq_len (q : UploadQueue) : nat := length (uq_queue q).

(** The [for] loop of [send] over the queue taken out: the loaders
    uploaded, in order, with the result. The flag [started] is read at
    each round; nothing in the loop assigns it. *)
Fixpoint upload_loop (started : bool) (queue : list Loader) (st : Store)
    : Res unit * list Loader * Store :=
  match queue with
  | [] => (Ret tt, [], st)
  | loader :: r =>
    if started
    then match upload loader st with
         | (Ret _, st') =>
           let '(res, done, st'') := upload_loop started r st' in
           (res, loader :: done, st'')
         | (Raise e, st') => (Raise e, [], st')
         end
    else (Ret tt, [], st)
  end.

(** [UploadQueue.send()]: the queue is emptied before the loop. *)
Definition uq_send (q : UploadQueue) (st : Store)
    : Res unit * list Loader * UploadQueue * Store :=
  let '(res, done, st') := upload_loop (uq_started q) (uq_queue q) st in
  (res, done, mkUploadQueue [] (uq_started q), st').

(** [UploadQueue.start()] *)
Definition uq_start (q : UploadQueue) (st : Store)
    : Res unit * list Loader * UploadQueue * Store :=
  uq_send (mkUploadQueue (uq_queue q) true) st.
End UploadQueue.

(** Skills that all take [message], and answer as [answers] says. *)
Definition answering (E : Env) (answers : SkillLoader → Outcome Value) : @Skills E :=
  {| converse_arity := λ _, Done (Ret 1%nat);
     converse_with_message := λ loader _ w, (answers loader, w);
     converse_with_utterances := λ loader _ _ w, (answers loader, w) |}.

(** An environment in which the reply to a request on the bus is what
    the skill manager emits for it. *)
Definition managed (loaders : list SkillLoader) (answers : SkillLoader → Outcome Value) : Env :=
  scripted (λ _, Ret None)
    (λ m, head (handle_converse_request (E := silent) (S := answering silent answers)
                  loaders m tt).1.2)
    (λ k, Z.of_nat k).

Definition two_loaders : list SkillLoader :=
  [mkSkillLoader "timer-skill" true; mkSkillLoader "news-skill" false].

(** [UploadQueue.__init__()] *)
Definition uq_init {Loader : Type} : UploadQueue (Loader := Loader) := mkUploadQueue [] false.

(** A run of [put] calls, in the order given. *)
Definition uq_puts {Loader : Type} `{EqDecision Loader} (loaders : list Loader)
    (q : UploadQueue) : UploadQueue :=
  foldl (λ q loader, uq_put loader q) q loaders.

(** An upload that fails at the loaders of [bad] and counts the others. *)
Definition counting_upload (bad : list string) (loader : string) (n : nat) : Res unit * nat :=
  if decide (loader ∈ bad) then (Raise (KeyError loader), n) else (Ret tt, S n).

(** * Properties *)

(** ** The monad *)

Section Monad.
Context `{E : Env}.

Lemma bind_run {A B} (m : M A) (k : A → M B) s :
  (m ≫= k) s = match m s with
               | (Ret a, s') => k a s'
               | (Raise e, s') => (Raise e, s')
               end.
Proof. reflexivity. Qed.

Lemma bind_ret_run {A B} (m : M A) (k : A → M B) s a s' :
  m s = (Ret a, s') → (m ≫= k) s = k a s'.
Proof. intros H. rewrite bind_run, H. reflexivity. Qed.

Lemma bind_raise_run {A B} (m : M A) (k : A → M B) s e s' :
  m s = (Raise e, s') → (m ≫= k) s = (Raise e, s').
Proof. intros H. rewrite bind_run, H. reflexivity. Qed.

Lemma preserves_ret {A} P (a : A) : preserves P (mret a).
Proof. intros s H. exact H. Qed.

Lemma preserves_raise {A} P e : preserves P (raise (A := A) e).
Proof. intros s H. exact H. Qed.

Lemma preserves_get_self P : preserves P get_self.
Proof. intros s H. exact H. Qed.

Lemma preserves_lift_world {A} P (f : World → Res A * World) : preserves P (lift_world f).
Proof. intros [s w] H. unfold lift_world. simpl. destruct (f w). exact H. Qed.

Lemma preserves_modify_self P f : (∀ s, P s → P (f s)) → preserves P (modify_self f).
Proof. intros Hf s H. apply Hf, H. Qed.

Lemma preserves_bind {A B} P (m : M A) (k : A → M B) :
  preserves P m → (∀ a, preserves P (k a)) → preserves P (m ≫= k).
Proof.
  intros Hm Hk s H. rewrite bind_run. specialize (Hm s H).
  destruct (m s) as [[a|e] s1]; simpl in *; [by apply Hk | done].
Qed.

Lemma preserves_pure {A} P (r : Res A) : preserves P (λ s, (r, s)).
Proof. intros s H. exact H. Qed.

Lemma preserves_padatious_matcher P : preserves P padatious_matcher.
Proof.
  intros s H. unfold padatious_matcher. rewrite bind_run. cbn [get_self fst snd].
  destruct (padatious_service s.1); exact H.
Qed.
End Monad.

(** Splits a goal [preserves P m] along the structure of [m]. *)
Ltac frame_step :=
  match goal with
  | |- preserves _ (mret _) => apply preserves_ret
  | |- preserves _ (raise _) => apply preserves_raise
  | |- preserves _ get_self => apply preserves_get_self
  | |- preserves _ (lift_world _) => apply preserves_lift_world
  | |- preserves _ padatious_matcher => apply preserves_padatious_matcher
  | |- preserves _ (_ ≫= _) => apply preserves_bind; [|intros ?]
  | |- preserves _ (match ?x with _ => _ end) => destruct x
  | |- preserves _ (λ s, (_, s)) => apply preserves_pure
  end.

Ltac frame := repeat (first [assumption | frame_step]).

(** ** The registry as a list *)

Section Registry.
Context `{E : Env}.
Implicit Types l : list (string * Z).

Lemma list_remove_sublist x l : list_remove x l `sublist_of` l.
Proof.
  induction l as [|y l IH]; simpl; [done|].
  destruct (decide (y = x)); [by apply sublist_cons_r; left | by apply sublist_skip].
Qed.

Lemma list_remove_fresh x l : x ∉ l → list_remove x l = l.
Proof.
  induction l as [|y l IH]; simpl; [done|].
  intros [Hne Hnin]%not_elem_of_cons. destruct (decide (y = x)); [congruence | by rewrite IH].
Qed.

Lemma list_remove_middle x l1 l2 : x ∉ l1 → list_remove x (l1 ++ x :: l2) = l1 ++ l2.
Proof.
  induction l1 as [|y l1 IH]; simpl.
  - intros _. by rewrite decide_True.
  - intros [Hne Hnin]%not_elem_of_cons. rewrite decide_False by congruence. by rewrite IH.
Qed.

Lemma remove_loop_sublist fuel i skill l : remove_loop fuel i skill l `sublist_of` l.
Proof.
  revert i l. induction fuel as [|fuel IH]; intros i l; simpl; [done|].
  destruct (l !! i) as [x|]; [|done].
  destruct (decide (x.1 = skill)); [|by apply IH].
  etrans; [apply IH | apply list_remove_sublist].
Qed.

Lemma remove_from_sublist skill l : remove_from skill l `sublist_of` l.
Proof. apply remove_loop_sublist. Qed.

(** The bound [length l] on the rounds of the loop is never reached
    before the iterator is exhausted: more rounds change nothing. *)
Lemma remove_loop_fuel fuel fuel' i skill l :
  (length l ≤ i + fuel)%nat → (fuel ≤ fuel')%nat →
  remove_loop fuel' i skill l = remove_loop fuel i skill l.
Proof.
  revert fuel' i l. induction fuel as [|fuel IH]; intros fuel' i l Hlen Hle.
  - assert (l !! i = None) as Hi by (apply lookup_ge_None; lia).
    destruct fuel'; simpl; [done | by rewrite Hi].
  - destruct fuel' as [|fuel']; [lia|]. simpl.
    destruct (l !! i) as [x|]; [|done].
    destruct (decide (x.1 = skill)); apply IH; try lia.
    pose proof (sublist_length _ _ (list_remove_sublist x l)). lia.
Qed.

Lemma remove_from_exhausts fuel skill l :
  (length l ≤ fuel)%nat → remove_loop fuel 0 skill l = remove_from skill l.
Proof. intros H. unfold remove_from. apply remove_loop_fuel; lia. Qed.

Lemma remove_loop_absent fuel i skill l :
  skill ∉ l.*1 → remove_loop fuel i skill l = l.
Proof.
  revert i. induction fuel as [|fuel IH]; intros i Hnin; simpl; [done|].
  destruct (l !! i) as [x|] eqn:Hi; [|done].
  destruct (decide (x.1 = skill)) as [<-|]; [|by apply IH].
  exfalso. apply Hnin. apply list_elem_of_fmap_2. by eapply list_elem_of_lookup_2.
Qed.

Lemma filter_absent skill l : skill ∉ l.*1 → filter (λ e, e.1 ≠ skill) l = l.
Proof.
  induction l as [|x l IH]; [done|]. rewrite fmap_cons.
  intros [Hne Hnin]%not_elem_of_cons. rewrite filter_cons.
  rewrite decide_True by congruence. by rewrite IH.
Qed.

Lemma remove_loop_unique fuel pre rest skill :
  NoDup (pre ++ rest).*1 → skill ∉ pre.*1 → (length rest ≤ fuel)%nat →
  remove_loop fuel (length pre) skill (pre ++ rest)
  = pre ++ filter (λ e, e.1 ≠ skill) rest.
Proof.
  revert fuel pre. induction rest as [|x rest IH]; intros fuel pre Hnd Hpre Hfuel.
  - rewrite filter_nil, !app_nil_r in *. by apply remove_loop_absent.
  - destruct fuel as [|fuel]; [simpl in Hfuel; lia|]. simpl.
    rewrite list_lookup_middle by done.
    rewrite fmap_app, fmap_cons in Hnd.
    apply NoDup_app in Hnd as (Hnd1 & Hdisj & Hnd2).
    apply NoDup_cons in Hnd2 as [Hx Hnd2].
    rewrite filter_cons.
    destruct (decide (x.1 = skill)) as [Heq|Hne].
    + rewrite decide_False by (intros H; by apply H).
      assert (skill ∉ rest.*1) by (by rewrite <-Heq).
      rewrite list_remove_middle.
      * rewrite remove_loop_absent, filter_absent; [done..|].
        rewrite fmap_app. rewrite not_elem_of_app. done.
      * intros Hin. apply Hpre. rewrite <-Heq. by apply list_elem_of_fmap_2.
    + rewrite decide_True by done.
      replace (pre ++ x :: rest) with ((pre ++ [x]) ++ rest) by (by rewrite <-app_assoc).
      replace (S (length pre)) with (length (pre ++ [x])) by (rewrite length_app; simpl; lia).
      rewrite IH.
      * by rewrite <-app_assoc.
      * rewrite <-app_assoc. simpl. rewrite fmap_app, fmap_cons.
        apply NoDup_app. split_and!; [done|done|by apply NoDup_cons].
      * rewrite fmap_app. rewrite not_elem_of_app. split; [done|].
        simpl. rewrite list_elem_of_singleton. congruence.
      * simpl in Hfuel. lia.
Qed.

(** On a registry without duplicate ids the loop removes the entry of
    the skill, whatever its place. *)
Lemma remove_from_unique skill l :
  NoDup l.*1 → remove_from skill l = filter (λ e, e.1 ≠ skill) l.
Proof.
  intros Hnd. unfold remove_from.
  apply (remove_loop_unique (length l) [] l skill); [done| |done].
  simpl. apply not_elem_of_nil.
Qed.

Lemma not_in_filter_ids skill l : skill ∉ (filter (λ e, e.1 ≠ skill) l).*1.
Proof.
  intros (x & -> & Hx)%list_elem_of_fmap_1.
  apply list_elem_of_filter in Hx as [Hne _]. by apply Hne.
Qed.

Lemma kept_at_sublist timeout k l : kept_at timeout k l `sublist_of` l.
Proof.
  revert k. induction l as [|x l IH]; intros k; simpl; [done|].
  destruct (decide _); [by apply sublist_skip | by apply sublist_cons].
Qed.

Lemma sublist_unique_ids l1 l2 : l1 `sublist_of` l2 → NoDup l2.*1 → NoDup l1.*1.
Proof. intros Hsub Hnd. eapply sublist_NoDup; [done|]. by apply fmap_sublist. Qed.
End Registry.

(** ** What the registry methods and the converse path compute *)

Section Runs.
Context `{E : Env}.

Lemma add_active_skill_run skill (s : Sys) :
  skill ≠ "" →
  add_active_skill skill s
  = (Ret tt,
     (set_active_skills ((skill, clock (ticks s.1)) :: remove_from skill (active_skills s.1))
        (set_ticks (S (ticks s.1)) s.1), s.2)).
Proof. intros Hne. unfold add_active_skill. by rewrite decide_True. Qed.

Lemma add_active_skill_empty (s : Sys) :
  add_active_skill "" s
  = (Ret tt,
     (set_log (log s.1 ++ [LogWarning "Skill ID was empty, won't add to list of active skills."]) s.1,
      s.2)).
Proof. reflexivity. Qed.

Lemma remove_active_skill_run skill (s : Sys) :
  remove_active_skill skill s
  = (Ret tt, (set_active_skills (remove_from skill (active_skills s.1)) s.1, s.2)).
Proof. reflexivity. Qed.

Lemma set_ticks_same (s : IntentService) : set_ticks (ticks s) s = s.
Proof. by destruct s. Qed.

Lemma prune_expired_run timeout l (s : Sys) :
  prune_expired timeout l s
  = (Ret (kept_at timeout (ticks s.1) l), (set_ticks (ticks s.1 + length l) s.1, s.2)).
Proof.
  revert s. induction l as [|x l IH]; intros [s w]; simpl.
  - rewrite Nat.add_0_r, set_ticks_same. reflexivity.
  - rewrite bind_run. unfold time_time at 1. simpl.
    rewrite bind_run, IH. simpl.
    replace (S (ticks s + length l)) with (ticks s + S (length l))%nat by lia.
    reflexivity.
Qed.

Lemma prune_registry_run (s : Sys) :
  prune_registry s
  = (Ret tt,
     (set_active_skills
        (kept_at (converse_timeout s.1) (ticks s.1) (active_skills s.1))
        (set_ticks (ticks s.1 + length (active_skills s.1)) s.1), s.2)).
Proof.
  unfold prune_registry. rewrite bind_run. simpl.
  rewrite bind_run, prune_expired_run. reflexivity.
Qed.
End Runs.

(** ** Properties kept along the converse path *)

Section ConverseStable.
Context `{E : Env}.
Variable P : IntentService → Prop.
Hypothesis HP : converse_stable P.

Lemma stable_ticks n s : P s → P (set_ticks (ticks s + n) s).
Proof.
  intros H. induction n as [|n IH].
  - by rewrite Nat.add_0_r, set_ticks_same.
  - rewrite Nat.add_succ_r. apply (st_tick P HP) in IH. exact IH.
Qed.

Lemma stable_time_time : preserves P time_time.
Proof. intros s H. by apply (st_tick P HP). Qed.

Lemma stable_log_record r : preserves P (log_record r).
Proof. apply preserves_modify_self. intros s. apply (st_log P HP). Qed.

Lemma stable_wait m ty : preserves P (bus_wait_for_response m ty).
Proof.
  unfold bus_wait_for_response. frame.
  apply preserves_modify_self. intros s. apply (st_requests P HP).
Qed.

Lemma stable_remove skill : preserves P (remove_active_skill skill).
Proof.
  apply preserves_modify_self. intros s. apply (st_sub P HP), remove_from_sublist.
Qed.

Lemma stable_add skill : preserves P (add_active_skill skill).
Proof.
  intros s H. destruct (decide (skill = "")) as [->|Hne].
  - rewrite add_active_skill_empty. by apply (st_log P HP).
  - rewrite add_active_skill_run by done. by apply (st_insert P HP).
Qed.

Lemma stable_handle_converse_error m : preserves P (handle_converse_error m).
Proof.
  unfold handle_converse_error, dict_index.
  frame; auto using stable_log_record, stable_remove.
Qed.

Lemma stable_do_converse u skill lang m : preserves P (do_converse u skill lang m).
Proof.
  unfold do_converse. frame; auto using stable_wait, stable_handle_converse_error.
Qed.

Lemma stable_prune_registry : preserves P prune_registry.
Proof.
  intros s H. rewrite prune_registry_run. simpl.
  apply (st_sub P HP); [apply kept_at_sublist | by apply stable_ticks].
Qed.

Lemma stable_converse_loop l u lang m : preserves P (converse_loop l u lang m).
Proof.
  induction l as [|x l IH]; simpl; frame; auto using stable_do_converse.
Qed.

Lemma stable__converse u lang m : preserves P (_converse u lang m).
Proof.
  unfold _converse.
  frame; auto using stable_prune_registry, stable_log_record, stable_converse_loop.
Qed.

Lemma stable_reset_loop l lang m : preserves P (reset_loop l lang m).
Proof.
  induction l as [|x l IH]; simpl; frame; auto using stable_do_converse.
Qed.

Lemma stable_reset_converse m : preserves P (reset_converse m).
Proof.
  unfold reset_converse, _get_message_lang, set_default_lf_lang.
  frame; auto using stable_reset_loop.
Qed.

Hypothesis Hcalled : ∀ s l, P s → P (set_called l s).

Lemma stable_call_match_func f u lang m : preserves P (call_match_func f u lang m).
Proof.
  unfold call_match_func. apply preserves_bind.
  - apply preserves_modify_self. intros s. apply Hcalled.
  - intros _. destruct f; auto using stable__converse, preserves_lift_world.
Qed.

Lemma stable_run_match_funcs fs u lang m : preserves P (run_match_funcs fs u lang m).
Proof.
  induction fs as [|f fs IH]; simpl; frame; auto using stable_call_match_func.
Qed.
End ConverseStable.

(** ** Properties kept by every handler *)

Section Stable.
Context `{E : Env}.
Variable P : IntentService → Prop.
Hypothesis HP : stable P.

Lemma stable_emit m : preserves P (emit m).
Proof. apply preserves_modify_self. intros s. apply (st_emitted P HP). Qed.

Lemma stable_adapt c : preserves P (adapt c).
Proof.
  unfold adapt. frame. apply preserves_modify_self. intros s. apply (st_adapt_calls P HP).
Qed.

Lemma stable_handle_utterance_try m : preserves P (handle_utterance_try m).
Proof.
  pose proof (st_converse P HP) as HC. pose proof (st_called P HP) as Hcalled.
  unfold handle_utterance_try, _get_message_lang, set_default_lf_lang,
    send_complete_intent_failure, dispatch_match.
  frame; auto using stable_run_match_funcs, stable_add, stable_emit.
Qed.

Lemma stable_handle_utterance m : preserves P (handle_utterance m).
Proof.
  intros s H. unfold handle_utterance.
  pose proof (stable_handle_utterance_try m s H) as Ht.
  destruct (handle_utterance_try m s) as [[a|e] s']; simpl in *; [done|].
  by apply (st_log P (st_converse P HP)).
Qed.

Lemma stable_probe_loop fs u lang m : preserves P (probe_loop fs u lang m).
Proof.
  pose proof (st_converse P HP) as HC. pose proof (st_called P HP) as Hcalled.
  induction fs as [|f fs IH]; simpl; frame; auto using stable_call_match_func, stable_emit.
Qed.

Lemma stable_handler ev : preserves P (handler ev).
Proof.
  pose proof (st_converse P HP) as HC.
  destruct ev; simpl.
  - apply stable_handle_utterance.
  - by apply stable_reset_converse.
  - unfold handle_register_vocab. frame; [apply stable_adapt|].
    apply preserves_modify_self. intros s. apply (st_vocab P HP).
  - apply stable_adapt.
  - unfold handle_remove_context. frame. apply stable_adapt.
  - apply stable_adapt.
  - unfold handle_get_intent, dict_index. frame; auto using stable_probe_loop, stable_emit.
  - unfold handle_get_active_skills. frame. apply stable_emit.
  - unfold handle_vocab_manifest. frame. apply stable_emit.
  - by apply stable_add.
  - by apply stable_remove.
Qed.

Lemma stable_run evs s : P s.1 → P (run evs s).1.
Proof.
  revert s. induction evs as [|ev evs IH]; intros s H; [done|].
  simpl. apply IH. by apply stable_handler.
Qed.
End Stable.

(** ** Instances: the invariants of the service *)

Section Invariants.
Context `{E : Env}.

Lemma unique_ids_insert skill t l :
  NoDup l.*1 → NoDup ((skill, t) :: remove_from skill l).*1.
Proof.
  intros Hnd. rewrite remove_from_unique by done. rewrite fmap_cons. simpl.
  apply NoDup_cons. split; [apply not_in_filter_ids|].
  eapply sublist_unique_ids; [apply sublist_filter | done].
Qed.

Lemma unique_ids_stable : stable unique_ids.
Proof.
  split; [split|..]; unfold unique_ids; simpl; try done.
  - intros s l Hsub Hnd. by eapply sublist_unique_ids.
  - intros s skill _ Hnd. by apply (unique_ids_insert skill (clock (ticks s)) (active_skills s)).
Qed.

(** A property that only reads attributes the converse path never
    assigns. *)
Lemma field_converse_stable {B} (f : IntentService → B) (b : B) :
  (∀ s n, f (set_ticks n s) = f s) →
  (∀ s l, f (set_requests l s) = f s) →
  (∀ s l, f (set_log l s) = f s) →
  (∀ s l, f (set_active_skills l s) = f s) →
  converse_stable (λ s, f s = b).
Proof.
  intros H1 H2 H3 H5.
  split; intros; repeat first [rewrite H1 | rewrite H2 | rewrite H3 | rewrite H5]; done.
Qed.

Lemma called_converse_stable b : converse_stable (λ s, called s = b).
Proof. by apply field_converse_stable. Qed.

Lemma emitted_converse_stable b : converse_stable (λ s, emitted s = b).
Proof. by apply field_converse_stable. Qed.

Lemma config_lang_stable b : stable (λ s, config_lang s = b).
Proof. split; [by apply field_converse_stable|done..]. Qed.

Lemma converse_timeout_stable b : stable (λ s, converse_timeout s = b).
Proof. split; [by apply field_converse_stable|done..]. Qed.

Lemma vocab_prefix_stable b : stable (λ s, b `prefix_of` registered_vocab s).
Proof.
  split; [split|..]; simpl; try done.
  intros s d. apply prefix_app_r.
Qed.

Lemma registered_vocab_converse_stable b : converse_stable (λ s, registered_vocab s = b).
Proof. by apply field_converse_stable. Qed.

Lemma Forall_sublist {A} (Q : A → Prop) (l1 l2 : list A) :
  l1 `sublist_of` l2 → Forall Q l2 → Forall Q l1.
Proof.
  rewrite !Forall_forall. intros Hsub H x Hx. apply H. by eapply elem_of_sublist.
Qed.

Lemma StronglySorted_sublist {A} (R : relation A) (l1 l2 : list A) :
  l1 `sublist_of` l2 → StronglySorted R l2 → StronglySorted R l1.
Proof.
  induction 1 as [|x l1 l2 Hsub IH|x l1 l2 Hsub IH]; [done|..].
  - rewrite !StronglySorted_cons. intros [Hx Hs]. split; [|by apply IH].
    by eapply Forall_sublist.
  - rewrite StronglySorted_cons. intros [_ Hs]. by apply IH.
Qed.

Lemma recency_ordered_stable : monotone_clock → stable recency_ordered.
Proof.
  intros Hmono. split; [split|..]; unfold recency_ordered; simpl; try done.
  - intros s [Hs Hf]. split; [done|].
    eapply Forall_impl; [done|]. intros e (k & Hk & He). exists k. split; [lia|done].
  - intros s l Hsub [Hs Hf]. split; [by eapply StronglySorted_sublist | by eapply Forall_sublist].
  - intros s skill _ [Hs Hf].
    pose proof (remove_from_sublist skill (active_skills s)) as Hsub.
    pose proof (Forall_sublist _ _ _ Hsub Hf) as Hf'.
    split.
    + apply StronglySorted_cons. split; [|by eapply StronglySorted_sublist].
      eapply Forall_impl; [exact Hf'|]. intros e (k & Hk & ->). simpl.
      apply Hmono. lia.
    + apply Forall_cons. split; [exists (ticks s); simpl; split; [lia|done]|].
      eapply Forall_impl; [exact Hf'|]. intros e (k & Hk & He). exists k. split; [lia|done].
Qed.

Lemma reachable_recency_ordered s : monotone_clock → reachable s → recency_ordered s.1.
Proof.
  intros Hmono (cfg & pad & w & evs & ->). apply stable_run; [by apply recency_ordered_stable|].
  split; simpl; constructor.
Qed.

Lemma reachable_unique_ids s : reachable s → unique_ids s.1.
Proof.
  intros (cfg & pad & w & evs & ->). apply stable_run; [apply unique_ids_stable|].
  unfold unique_ids. simpl. apply NoDup_nil_2.
Qed.

Lemma reachable_step ev s : reachable s → reachable (step ev s).
Proof.
  intros (cfg & pad & w & evs & ->). exists cfg, pad, w, (evs ++ [ev]).
  unfold run. by rewrite foldl_app.
Qed.
End Invariants.

(** ** The active-skill registry *)

Section Activation.
Context `{E : Env}.

Lemma activate_entries skill (s : Sys) :
  unique_ids s.1 → skill ≠ "" →
  active_skills (step (Activate skill) s).1
  = (skill, clock (ticks s.1)) :: filter (λ e, e.1 ≠ skill) (active_skills s.1).
Proof.
  intros Hu Hne. unfold step. simpl. rewrite add_active_skill_run by done. simpl.
  by rewrite remove_from_unique.
Qed.

Lemma deactivate_run skill (s : Sys) :
  step (Deactivate skill) s
  = (set_active_skills (remove_from skill (active_skills s.1)) s.1, s.2).
Proof. reflexivity. Qed.

Lemma deactivate_entries skill (s : Sys) :
  active_skills (step (Deactivate skill) s).1 = remove_from skill (active_skills s.1).
Proof. reflexivity. Qed.

Lemma filter_twice_ids (x y : string) (l : list (string * Z)) :
  filter (λ e, e.1 ≠ x) (filter (λ e, e.1 ≠ y) (filter (λ e, e.1 ≠ x) l))
  = filter (λ e, e.1 ≠ x ∧ e.1 ≠ y) l.
Proof.
  rewrite !list_filter_filter. apply list_filter_iff. intros e. tauto.
Qed.

Lemma activate_x_y_x x y (s : Sys) :
  reachable s → x ≠ "" → y ≠ "" → x ≠ y →
  (active_skills (run [Activate x; Activate y; Activate x] s).1).*1
  = x :: y :: (filter (λ e, e.1 ≠ x ∧ e.1 ≠ y) (active_skills s.1)).*1.
Proof.
  intros Hr Hx Hy Hxy. simpl.
  pose proof (reachable_step (Activate x) s Hr) as Hr1.
  pose proof (reachable_step (Activate y) _ Hr1) as Hr2.
  rewrite activate_entries; [|by apply reachable_unique_ids|done].
  rewrite activate_entries; [|by apply reachable_unique_ids|done].
  rewrite activate_entries; [|by apply reachable_unique_ids|done].
  rewrite !filter_cons. simpl.
  rewrite (decide_True (P := y ≠ x)) by done.
  rewrite (decide_True (P := x ≠ y)) by done.
  rewrite filter_cons. simpl.
  rewrite (decide_False (P := x ≠ x)) by (intros H; by apply H).
  simpl. by rewrite filter_twice_ids.
Qed.
End Activation.

(** C6. In every state the service can reach, the registry holds at most
    one entry per skill id, and so it does after any further event.
    Activating the empty id leaves the registry as it is and logs a
    warning. Activating a non-empty id drops the entry the id had and puts
    the id at the front with the current clock reading, so that
    activating X, then Y, then X again leaves X, Y in front (and nothing
    else of X or Y). Deactivating drops the entry of the id when there is
    one, and deactivating twice is the same as deactivating once. *)
Theorem registry_one_entry_per_skill `{E : Env} (s : Sys) :
  reachable s →
  unique_ids s.1
  ∧ (∀ ev, unique_ids (step ev s).1)
  ∧ (active_skills (step (Activate "") s).1 = active_skills s.1
     ∧ log (step (Activate "") s).1
       = (log s.1 ++ [LogWarning "Skill ID was empty, won't add to list of active skills."]))
  ∧ (∀ skill, skill ≠ "" →
       active_skills (step (Activate skill) s).1
       = (skill, clock (ticks s.1)) :: filter (λ e, e.1 ≠ skill) (active_skills s.1))
  ∧ (∀ x y, x ≠ "" → y ≠ "" → x ≠ y →
       (active_skills (run [Activate x; Activate y; Activate x] s).1).*1
       = x :: y :: (filter (λ e, e.1 ≠ x ∧ e.1 ≠ y) (active_skills s.1)).*1)
  ∧ (∀ skill,
       active_skills (step (Deactivate skill) s).1
       = filter (λ e, e.1 ≠ skill) (active_skills s.1)
       ∧ (skill ∉ (active_skills (step (Deactivate skill) s).1).*1)
       ∧ step (Deactivate skill) (step (Deactivate skill) s) = step (Deactivate skill) s).
Proof.
  intros Hr. pose proof (reachable_unique_ids s Hr) as Hu.
  split_and!; try done.
  - intros ev. by apply reachable_unique_ids, reachable_step.
  - intros skill Hne. by apply activate_entries.
  - intros x y. by apply activate_x_y_x.
  - intros skill. split_and!.
    + rewrite deactivate_entries. by rewrite remove_from_unique.
    + rewrite deactivate_entries, remove_from_unique by done. apply not_in_filter_ids.
    + rewrite !deactivate_run. f_equal. simpl.
      rewrite (remove_from_unique skill (active_skills s.1)) by done.
      rewrite remove_from_unique.
      * rewrite list_filter_filter.
        replace (filter (λ e : string * Z, e.1 ≠ skill ∧ e.1 ≠ skill) (active_skills s.1))
          with (filter (λ e : string * Z, e.1 ≠ skill) (active_skills s.1))
          by (apply list_filter_iff; intros e; tauto).
        reflexivity.
      * eapply sublist_unique_ids; [apply sublist_filter | done].
Qed.

Lemma registry_one_entry_per_skill_witness :
  (active_skills (run (E := silent) [Activate "X"; Activate "Y"; Activate "X"] (init None (Ret tt), tt)).1).*1
  = ["X"; "Y"].
Proof.
  destruct (registry_one_entry_per_skill (E := silent) (init None (Ret tt), tt)) as (_ & _ & _ & _ & H & _).
  - exists None, (Ret tt), tt, []. reflexivity.
  - rewrite (H "X" "Y"); [reflexivity | discriminate | discriminate | discriminate].
Defined.

(** ** The dispatch pipeline *)

Section Pipeline.
Context `{E : Env}.

Lemma get_message_lang_store m (s : Sys) : (_get_message_lang m s).2 = s.
Proof.
  unfold _get_message_lang. rewrite bind_run. simpl.
  by destruct (dict_get_default _ _ _).
Qed.

Lemma call_match_func_called f u lang m (s : Sys) :
  called (call_match_func f u lang m s).2.1 = called s.1 ++ [(f, u, lang)].
Proof.
  unfold call_match_func. rewrite bind_run. simpl.
  set (s1 := (set_called (called s.1 ++ [(f, u, lang)]) s.1, s.2)).
  assert (preserves (λ x, called x = called s.1 ++ [(f, u, lang)])
            (match f with
             | Converse => _converse u lang m
             | _ => lift_world (ext_match f u lang m)
             end)) as Hp.
  { destruct f; try apply preserves_lift_world.
    apply stable__converse, called_converse_stable. }
  by apply (Hp s1).
Qed.

Lemma tried_nil u lang (s : Sys) : tried [] u lang s s.
Proof. unfold tried. simpl. by rewrite app_nil_r. Qed.

Lemma tried_cons f fs u lang m (s s' : Sys) :
  tried fs u lang (call_match_func f u lang m s).2 s' → tried (f :: fs) u lang s s'.
Proof.
  unfold tried. rewrite call_match_func_called. intros ->.
  by rewrite <-app_assoc.
Qed.

Lemma tried_new fs u lang (s s' : Sys) :
  tried fs u lang s s' → new_of called s s' = (λ f, (f, u, lang)) <$> fs.
Proof. unfold tried, new_of. intros ->. by rewrite drop_app_length. Qed.

(** The loop calls the functions in list order and stops at the first
    that returns a match or raises. *)
Lemma run_match_funcs_spec fs u lang m (s : Sys) :
  match run_match_funcs fs u lang m s with
  | (Ret None, s') => no_match u lang m fs s s' ∧ tried fs u lang s s'
  | (Ret (Some mt), s') =>
    ∃ pre f post s1, fs = pre ++ f :: post ∧ no_match u lang m pre s s1
      ∧ call_match_func f u lang m s1 = (Ret (Some mt), s')
      ∧ tried (pre ++ [f]) u lang s s'
  | (Raise e, s') =>
    ∃ pre f post s1, fs = pre ++ f :: post ∧ no_match u lang m pre s s1
      ∧ call_match_func f u lang m s1 = (Raise e, s')
      ∧ tried (pre ++ [f]) u lang s s'
  end.
Proof.
  revert s. induction fs as [|f fs IH]; intros s; simpl.
  - split; [constructor | apply tried_nil].
  - rewrite bind_run. destruct (call_match_func f u lang m s) as [[[mt|]|e] s1] eqn:Hf.
    + exists [], f, fs, s. split_and!; [done|constructor|done|].
      apply (tried_cons _ _ _ _ m). rewrite Hf. apply tried_nil.
    + specialize (IH s1).
      destruct (run_match_funcs fs u lang m s1) as [[[mt|]|e] s2].
      * destruct IH as (pre & g & post & s3 & -> & Hpre & Hg & Ht).
        exists (f :: pre), g, post, s3. split_and!; [done|by econstructor|done|].
        apply (tried_cons _ _ _ _ m). by rewrite Hf.
      * destruct IH as [Hn Ht]. split; [by econstructor|].
        apply (tried_cons _ _ _ _ m). by rewrite Hf.
      * destruct IH as (pre & g & post & s3 & -> & Hpre & Hg & Ht).
        exists (f :: pre), g, post, s3. split_and!; [done|by econstructor|done|].
        apply (tried_cons _ _ _ _ m). by rewrite Hf.
    + exists [], f, fs, s. split_and!; [done|constructor|done|].
      apply (tried_cons _ _ _ _ m). rewrite Hf. apply tried_nil.
Qed.

Lemma truthy_str_ne o : truthy_str o = true → default "" o ≠ "".
Proof.
  destruct o as [x|]; simpl; [|done].
  destruct (String.eqb_spec x ""); [done|]. by intros _.
Qed.

Lemma dispatch_match_run message mt u (s : Sys) :
  dispatch_match message mt u s = (Ret tt, (after_dispatch message mt u s.1, s.2)).
Proof.
  unfold dispatch_match, after_dispatch. rewrite bind_run.
  destruct (truthy_str (skill_id mt)) eqn:Hs.
  - rewrite add_active_skill_run by (by apply truthy_str_ne).
    by destruct (truthy_str (intent_type mt)).
  - destruct s as [s w]. by destruct (truthy_str (intent_type mt)).
Qed.

Lemma padatious_matcher_run (s : Sys) :
  padatious_service s.1 = true → padatious_matcher s = (Ret tt, s).
Proof.
  intros H. unfold padatious_matcher. rewrite bind_run. cbn [get_self fst snd]. by rewrite H.
Qed.

Lemma padatious_matcher_missing (s : Sys) :
  padatious_service s.1 = false → padatious_matcher s = (Raise AttributeError, s).
Proof.
  intros H. unfold padatious_matcher. rewrite bind_run. cbn [get_self fst snd]. by rewrite H.
Qed.

(** The [try] block, once the language and the first utterance are
    known and the Padatious service is there. *)
Lemma handle_utterance_try_run message lang u (s : Sys) :
  (_get_message_lang message s).1 = Ret lang →
  first_utterance message = Ret u →
  padatious_service s.1 = true →
  handle_utterance_try message s
  = match run_match_funcs match_funcs u (VStr lang) message s with
    | (Ret (Some mt), s1) => (Ret (Some mt), (after_dispatch message mt u s1.1, s1.2))
    | (Ret None, s1) =>
      (Ret None, (set_emitted (emitted s1.1 ++ [failure_message message]) s1.1, s1.2))
    | (Raise e, s1) => (Raise e, s1)
    end.
Proof.
  intros Hlang Hu Hpad. unfold handle_utterance_try.
  assert (_get_message_lang message s = (Ret lang, s)) as Hl.
  { pose proof (get_message_lang_store message s) as Hst.
    destruct (_get_message_lang message s) as [r s0]. simpl in *. by subst r s0. }
  rewrite (bind_ret_run _ _ _ _ _ Hl).
  rewrite (bind_ret_run (set_default_lf_lang lang) _ s "en-us" s eq_refl).
  rewrite (bind_ret_run (λ s, (first_utterance message, s)) _ s u s) by (by rewrite Hu).
  rewrite (bind_ret_run padatious_matcher _ s tt s (padatious_matcher_run s Hpad)).
  rewrite bind_run.
  destruct (run_match_funcs match_funcs u (VStr lang) message s) as [[[mt|]|e] s1]; [| |done].
  - rewrite bind_run, dispatch_match_run. reflexivity.
  - rewrite bind_run. reflexivity.
Qed.

(** When the language or the first utterance cannot be had, or the
    Padatious service is missing, the block raises before any match
    function is called. *)
Lemma handle_utterance_try_early message (s : Sys) :
  (∃ e, (_get_message_lang message s).1 = Raise e) ∨ (∃ e, first_utterance message = Raise e)
  ∨ padatious_service s.1 = false →
  ∃ e, handle_utterance_try message s = (Raise e, s).
Proof.
  intros H. unfold handle_utterance_try.
  rewrite bind_run. pose proof (get_message_lang_store message s) as Hst.
  destruct (_get_message_lang message s) as [[lang|e] s0]; simpl in *; subst s0.
  - rewrite (bind_ret_run (set_default_lf_lang lang) _ s "en-us" s eq_refl).
    rewrite bind_run.
    destruct (first_utterance message) as [u|e]; [|by exists e].
    destruct H as [[e H]|[[e H]|H]]; [done..|].
    exists AttributeError. by rewrite bind_run, (padatious_matcher_missing s H).
  - by exists e.
Qed.

(** With a language and a first utterance but no Padatious service, the
    block raises [AttributeError] where it builds the matcher. *)
Lemma handle_utterance_try_missing message lang u (s : Sys) :
  (_get_message_lang message s).1 = Ret lang →
  first_utterance message = Ret u →
  padatious_service s.1 = false →
  handle_utterance_try message s = (Raise AttributeError, s).
Proof.
  intros Hlang Hu Hpad. unfold handle_utterance_try.
  assert (_get_message_lang message s = (Ret lang, s)) as Hl.
  { pose proof (get_message_lang_store message s) as Hst.
    destruct (_get_message_lang message s) as [r s0]. simpl in *. by subst r s0. }
  rewrite (bind_ret_run _ _ _ _ _ Hl).
  rewrite (bind_ret_run (set_default_lf_lang lang) _ s "en-us" s eq_refl).
  rewrite (bind_ret_run (λ s, (first_utterance message, s)) _ s u s) by (by rewrite Hu).
  by rewrite bind_run, (padatious_matcher_missing s Hpad).
Qed.
End Pipeline.

(** ** The converse round trip *)

Section ConverseRuns.
Context `{E : Env}.

Lemma bus_wait_for_response_run req ty (s : Sys) :
  bus_wait_for_response req ty s
  = (Ret (wait_for_response req ty s.2).1,
     (set_requests (requests s.1 ++ [req]) s.1, (wait_for_response req ty s.2).2)).
Proof.
  unfold bus_wait_for_response. rewrite bind_run. simpl. unfold lift_world. simpl.
  by destruct (wait_for_response req ty s.2).
Qed.

Lemma handle_converse_error_run rep sid err (s : Sys) :
  data rep !! "skill_id" = Some sid → data rep !! "error" = Some err →
  handle_converse_error rep s = (Ret tt, (after_error sid err s.1, s.2)).
Proof.
  intros Hsid Herr. unfold handle_converse_error, dict_index, after_error.
  rewrite Hsid, Herr. rewrite bind_run. simpl. rewrite bind_run. simpl.
  rewrite bind_run. simpl.
  destruct (eq_str err "skill id does not exist"); [|done]. by destruct sid.
Qed.

Lemma handle_converse_error_anonymous rep (s : Sys) :
  data rep !! "skill_id" = None →
  handle_converse_error rep s = (Raise (KeyError "skill_id"), s).
Proof. intros Hsid. unfold handle_converse_error, dict_index. by rewrite Hsid. Qed.

Lemma dict_has_true d k : dict_has d k = true ↔ ∃ v, d !! k = Some v.
Proof. unfold dict_has. rewrite bool_decide_eq_true. reflexivity. Qed.

(** One round trip, by the shape of the reply. *)
Lemma do_converse_run u skill lang msg (s : Sys) :
  let req := converse_request u skill lang msg in
  let s1 := after_request req s in
  do_converse u skill lang msg s
  = match (wait_for_response req "skill.converse.response" s.2).1 with
    | Some rep =>
      if dict_has (data rep) "error"
      then match data rep !! "skill_id" with
           | Some sid =>
             (Ret (VBool false),
              (after_error sid (dict_get (data rep) "error") s1.1, s1.2))
           | None => (Raise (KeyError "skill_id"), s1)
           end
      else (Ret (dict_get_default (data rep) "result" (VBool false)), s1)
    | None => (Ret (VBool false), s1)
    end.
Proof.
  intros req s1. unfold do_converse. fold req.
  rewrite bind_run, bus_wait_for_response_run. fold (after_request req s). fold s1.
  destruct (wait_for_response req "skill.converse.response" s.2).1 as [rep|]; [|done].
  destruct (dict_has (data rep) "error") eqn:Herr; [|done].
  apply dict_has_true in Herr as [err Herr]. rewrite bind_run.
  destruct (data rep !! "skill_id") as [sid|] eqn:Hsid.
  - rewrite (handle_converse_error_run rep sid err) by done.
    unfold dict_get. by rewrite Herr.
  - by rewrite handle_converse_error_anonymous.
Qed.

Lemma after_error_requests sid err s : requests (after_error sid err s) = requests s.
Proof.
  unfold after_error. destruct (eq_str _ _); [|done]. by destruct sid.
Qed.

Lemma do_converse_requests u skill lang msg (s : Sys) :
  requests (do_converse u skill lang msg s).2.1
  = requests s.1 ++ [converse_request u skill lang msg].
Proof.
  rewrite do_converse_run.
  destruct (wait_for_response _ _ _).1 as [rep|]; [|done].
  destruct (dict_has _ _); [|done].
  destruct (data rep !! "skill_id"); [|done].
  simpl. by rewrite after_error_requests.
Qed.

Lemma asked_nil u lang msg (s : Sys) : asked [] u lang msg s s.
Proof. unfold asked. simpl. by rewrite app_nil_r. Qed.

Lemma asked_cons skill l u lang msg (s s' : Sys) :
  asked l u lang msg (do_converse u skill.1 lang msg s).2 s' →
  asked (skill :: l) u lang msg s s'.
Proof.
  unfold asked. rewrite do_converse_requests. intros ->. by rewrite <-app_assoc.
Qed.

(** The loop asks the skills in list order and stops at the first whose
    answer is truthy, or that raises. *)
Lemma converse_loop_spec l u lang msg (s : Sys) :
  match converse_loop l u lang msg s with
  | (Ret None, s') => all_declined u lang msg l s s' ∧ asked l u lang msg s s'
  | (Ret (Some mt), s') =>
    ∃ pre skill post s1 v, l = pre ++ skill :: post
      ∧ all_declined u lang msg pre s s1
      ∧ do_converse u skill.1 lang msg s1 = (Ret v, s') ∧ truthy v = true
      ∧ mt = mkIntentMatch "Converse" None None (Some skill.1)
      ∧ asked (pre ++ [skill]) u lang msg s s'
  | (Raise e, s') =>
    ∃ pre skill post s1, l = pre ++ skill :: post
      ∧ all_declined u lang msg pre s s1
      ∧ do_converse u skill.1 lang msg s1 = (Raise e, s')
      ∧ asked (pre ++ [skill]) u lang msg s s'
  end.
Proof.
  revert s. induction l as [|skill l IH]; intros s; simpl.
  - split; [constructor | apply asked_nil].
  - rewrite bind_run. destruct (do_converse u skill.1 lang msg s) as [[v|e] s1] eqn:Hd.
    + destruct (truthy v) eqn:Hv.
      * exists [], skill, l, s, v. split_and!; [done|constructor|done..|].
        apply asked_cons. rewrite Hd. apply asked_nil.
      * specialize (IH s1).
        destruct (converse_loop l u lang msg s1) as [[[mt|]|e] s2].
        -- destruct IH as (pre & sk & post & s3 & w & -> & Hpre & Hsk & Hw & -> & Ha).
           exists (skill :: pre), sk, post, s3, w.
           split_and!; [done|by econstructor|done..|].
           apply asked_cons. by rewrite Hd.
        -- destruct IH as [Hn Ha]. split; [by econstructor|].
           apply asked_cons. by rewrite Hd.
        -- destruct IH as (pre & sk & post & s3 & -> & Hpre & Hsk & Ha).
           exists (skill :: pre), sk, post, s3.
           split_and!; [done|by econstructor|done|].
           apply asked_cons. by rewrite Hd.
    + exists [], skill, l, s. split_and!; [done|constructor|done|].
      apply asked_cons. rewrite Hd. apply asked_nil.
Qed.

Lemma _converse_run u lang msg (s : Sys) :
  _converse u lang msg s
  = match (intent_api_get_active_skills s.2).1 with
    | Ret v =>
      converse_loop (kept_at (converse_timeout s.1) (ticks s.1) (active_skills s.1))
        u lang msg (converse_start v s)
    | Raise e =>
      (Raise e,
       (set_active_skills
          (kept_at (converse_timeout s.1) (ticks s.1) (active_skills s.1))
          (set_ticks (ticks s.1 + length (active_skills s.1)) s.1),
        (intent_api_get_active_skills s.2).2))
    end.
Proof.
  unfold _converse, converse_start. rewrite bind_run, prune_registry_run.
  rewrite bind_run. unfold lift_world at 1. simpl.
  destruct (intent_api_get_active_skills s.2) as [[v|e] w]; [|done].
  simpl. rewrite bind_run. simpl. rewrite bind_run. reflexivity.
Qed.
End ConverseRuns.

(** C4, as stated, fails for an error reply that does not name a skill:
    [handle_converse_error] reads [skill_id] first, so the round trip
    raises [KeyError]; the error is not logged, the iteration ends there
    (X, the entry after Y, is never asked), and the whole resolution is
    given up, although Adapt would match. *)
Lemma nameless_error_ends_iteration :
  let event := utterance_event "stop" in
  let s := run (E := nameless_errors) [Activate "X"; Activate "Y"] (init None (Ret tt), tt) in
  let r := _converse (E := nameless_errors) (VStr "stop") (VStr "en-us") event s in
  let s' := (handle_utterance (E := nameless_errors) event s).2 in
  (active_skills s.1).*1 = ["Y"; "X"]
  ∧ r.1 = Raise (KeyError "skill_id")
  ∧ target <$> new_of requests s r.2 = [VStr "Y"]
  ∧ log r.2.1 = [LogDebug "skills to handle conversation: " VNone]
  ∧ (called s'.1).*1.*1 = [Converse]
  ∧ emitted s'.1 = [].
Proof. vm_compute. split_and!; reflexivity. Qed.

(** C4, as the code has it. One converse round trip, for any skill asked
    from store [s]: a reply with an [error] field that names a skill (in
    its [skill_id] field) is logged, evicts the named skill exactly when
    the error is "skill id does not exist", and counts as not handled;
    after the eviction, in a registry without repeated ids, the skill has
    no entry left and the other entries are as they were. A reply with
    an [error] field and no [skill_id] raises [KeyError]: nothing is
    logged and the registry is as it was. A reply without [error] is
    judged by the truthiness of its [result] field; a time-out counts as
    not handled. The iteration asks the entries in registry order (front,
    the latest activation, first), goes on after every entry that does
    not handle, stops at the first that does with the match ("Converse",
    no intent type, no intent data, that skill) or at the first round
    trip that raises, and returns [None] when none handles. [_converse]
    is this iteration over the pruned registry. With a clock that never
    runs backwards, the registry of a reachable state, and what pruning
    leaves of it, is ordered from the latest activation to the earliest. *)
Theorem converse_round_trip `{E : Env} (u lang : Value) (msg : Message) (s : Sys) :
  (∀ skill,
     let req := converse_request u skill lang msg in
     let r := do_converse u skill lang msg s in
     requests r.2.1 = requests s.1 ++ [req]
     ∧ match (wait_for_response req "skill.converse.response" s.2).1 with
       | Some rep =>
         if dict_has (data rep) "error"
         then ((∀ sid, data rep !! "skill_id" = Some sid →
                 r.1 = Ret (VBool false)
                 ∧ log r.2.1 = log s.1 ++ [LogError sid (dict_get (data rep) "error")]
                 ∧ active_skills r.2.1
                   = (if eq_str (dict_get (data rep) "error") "skill id does not exist"
                      then match sid with
                           | VStr skill' => remove_from skill' (active_skills s.1)
                           | _ => active_skills s.1
                           end
                      else active_skills s.1)
                 ∧ (∀ skill', sid = VStr skill' →
                      eq_str (dict_get (data rep) "error") "skill id does not exist" = true →
                      unique_ids s.1 →
                      (skill' ∉ (active_skills r.2.1).*1)
                      ∧ active_skills r.2.1
                        = filter (λ e, e.1 ≠ skill') (active_skills s.1)))
              ∧ (data rep !! "skill_id" = None →
                   r.1 = Raise (KeyError "skill_id")
                   ∧ log r.2.1 = log s.1
                   ∧ active_skills r.2.1 = active_skills s.1))
         else r.1 = Ret (dict_get_default (data rep) "result" (VBool false))
              ∧ active_skills r.2.1 = active_skills s.1
       | None => r.1 = Ret (VBool false) ∧ active_skills r.2.1 = active_skills s.1
       end)
  ∧ match converse_loop (active_skills s.1) u lang msg s with
    | (Ret None, s') =>
      all_declined u lang msg (active_skills s.1) s s'
      ∧ asked (active_skills s.1) u lang msg s s'
    | (Ret (Some mt), s') =>
      ∃ pre skill post s1 v, active_skills s.1 = pre ++ skill :: post
        ∧ all_declined u lang msg pre s s1
        ∧ do_converse u skill.1 lang msg s1 = (Ret v, s') ∧ truthy v = true
        ∧ mt = mkIntentMatch "Converse" None None (Some skill.1)
        ∧ asked (pre ++ [skill]) u lang msg s s'
    | (Raise e, s') =>
      ∃ pre skill post s1, active_skills s.1 = pre ++ skill :: post
        ∧ all_declined u lang msg pre s s1
        ∧ do_converse u skill.1 lang msg s1 = (Raise e, s')
        ∧ asked (pre ++ [skill]) u lang msg s s'
    end
  ∧ (∀ v, (intent_api_get_active_skills s.2).1 = Ret v →
       _converse u lang msg s
       = converse_loop (active_skills (converse_start v s).1) u lang msg (converse_start v s))
  ∧ (monotone_clock → reachable s →
       StronglySorted (λ a b : string * Z, b.2 ≤ a.2) (active_skills s.1)
       ∧ ∀ v, StronglySorted (λ a b : string * Z, b.2 ≤ a.2)
                (active_skills (converse_start v s).1)).
Proof.
  split_and!.
  - intros skill req r. split; [apply do_converse_requests|].
    subst r. rewrite do_converse_run. fold req.
    destruct (wait_for_response req "skill.converse.response" s.2).1 as [rep|]; [|done].
    destruct (dict_has (data rep) "error"); [|done].
    split.
    + intros sid ->. simpl. unfold after_error. split_and!.
      * done.
      * destruct (eq_str _ _); [|done]. by destruct sid.
      * destruct (eq_str _ _); [|done]. by destruct sid.
      * intros skill' -> -> Hu. simpl.
        rewrite remove_from_unique by done. split; [apply not_in_filter_ids|done].
    + intros ->. done.
  - apply converse_loop_spec.
  - intros v Hv. rewrite _converse_run, Hv. reflexivity.
  - intros Hmono Hr. destruct (reachable_recency_ordered s Hmono Hr) as [Hs _].
    split; [done|]. intros v. simpl.
    eapply StronglySorted_sublist; [apply kept_at_sublist | done].
Qed.

Lemma converse_round_trip_witness :
  active_skills
    (do_converse (E := skills_gone) (VStr "stop") "timer-skill" (VStr "en-us")
       (utterance_event "stop")
       (run (E := skills_gone) [Activate "timer-skill"] (init None (Ret tt), tt))).2.1
  = [].
Proof.
  destruct (converse_round_trip (E := skills_gone) (VStr "stop") (VStr "en-us")
              (utterance_event "stop")
              (run (E := skills_gone) [Activate "timer-skill"] (init None (Ret tt), tt)))
    as (H & _).
  destruct (H "timer-skill") as [_ [Hnamed _]].
  destruct (Hnamed (VStr "timer-skill") eq_refl) as (_ & _ & _ & Hgone).
  destruct (Hgone "timer-skill" eq_refl eq_refl) as [_ ->].
  - apply NoDup_singleton.
  - reflexivity.
Defined.

(** ** Expiry *)

Section Expiry.
Context `{E : Env}.

Lemma kept_at_elem timeout k l skill :
  skill ∈ kept_at timeout k l →
  skill ∈ l ∧ ∃ j, (k ≤ j)%nat ∧ clock j - skill.2 ≤ timeout * 60.
Proof.
  revert k. induction l as [|x l IH]; intros k; simpl; [by intros ?%elem_of_nil|].
  destruct (decide (clock k - x.2 ≤ timeout * 60)) as [Hle|Hgt].
  - intros [->|Hin]%elem_of_cons.
    + split; [by left | by exists k].
    + destruct (IH _ Hin) as (Hl & j & Hj & Hc). split; [by right|].
      exists j. split; [lia|done].
  - intros Hin. destruct (IH _ Hin) as (Hl & j & Hj & Hc). split; [by right|].
    exists j. split; [lia|done].
Qed.

Lemma kept_at_fresh timeout k l skill :
  monotone_clock → skill ∈ kept_at timeout k l →
  skill ∈ l ∧ clock k - skill.2 ≤ timeout * 60.
Proof.
  intros Hmono (Hl & j & Hj & Hc)%kept_at_elem. split; [done|].
  pose proof (Hmono k j Hj). lia.
Qed.

Lemma asked_new l u lang msg (s s' : Sys) :
  asked l u lang msg s s' →
  new_of requests s s' = (λ skill, converse_request u skill.1 lang msg) <$> l.
Proof. unfold asked, new_of. intros ->. by rewrite drop_app_length. Qed.

(** [_converse] only asks entries that its pruning kept, from the front. *)
Lemma _converse_asked u lang msg (s : Sys) :
  ∃ l, l `prefix_of` kept_at (converse_timeout s.1) (ticks s.1) (active_skills s.1)
       ∧ asked l u lang msg s (_converse u lang msg s).2.
Proof.
  rewrite _converse_run.
  destruct (intent_api_get_active_skills s.2).1 as [v|e].
  - pose proof (converse_loop_spec
                  (kept_at (converse_timeout s.1) (ticks s.1) (active_skills s.1))
                  u lang msg (converse_start v s)) as H.
    destruct (converse_loop _ u lang msg (converse_start v s)) as [[[mt|]|e] s'].
    + destruct H as (pre & skill & post & s1 & w & Hl & _ & _ & _ & _ & Ha).
      exists (pre ++ [skill]). split; [|done].
      rewrite Hl. exists post. by rewrite <-app_assoc.
    + destruct H as [_ Ha]. by eexists.
    + destruct H as (pre & skill & post & s1 & Hl & _ & _ & Ha).
      exists (pre ++ [skill]). split; [|done].
      rewrite Hl. exists post. by rewrite <-app_assoc.
  - exists []. split.
    + apply prefix_nil.
    + unfold asked. simpl. by rewrite app_nil_r.
Qed.

Lemma target_converse_request u skill lang msg :
  target (converse_request u skill lang msg) = VStr skill.
Proof. unfold target, converse_request, dict_get. simpl. by rewrite lookup_insert_eq. Qed.

Lemma unique_ids_timestamp (l : list (string * Z)) skill t1 t2 :
  NoDup l.*1 → (skill, t1) ∈ l → (skill, t2) ∈ l → t1 = t2.
Proof.
  induction l as [|x l IH]; [by intros _ ?%elem_of_nil|].
  rewrite fmap_cons. intros [Hx Hnd]%NoDup_cons H1 H2.
  apply elem_of_cons in H1 as [<-|H1]; apply elem_of_cons in H2 as [H2|H2].
  - congruence.
  - exfalso. apply Hx. by apply (list_elem_of_fmap_2 fst _ (skill, t2)).
  - subst x. exfalso. apply Hx. by apply (list_elem_of_fmap_2 fst _ (skill, t1)).
  - by apply IH.
Qed.
End Expiry.

(** C5, as the code has it. Every call of [_converse] (the converse step
    of the utterance pipeline) starts by replacing the registry with the
    entries whose age, at the clock reading taken for each, is within
    [converse_timeout * 60] seconds, and sends its requests to entries of
    that pruned registry only. With a clock that never runs backwards,
    every request of the call goes to an entry that had not expired when
    the call started, and an entry that had expired by then (ids being
    unique) is not targeted. The read-only query for the active skills
    leaves the registry as it is. *)
Theorem converse_prunes_first `{E : Env} (u lang : Value) (msg : Message) (s : Sys) :
  monotone_clock →
  let kept := kept_at (converse_timeout s.1) (ticks s.1) (active_skills s.1) in
  let s' := (_converse u lang msg s).2 in
  active_skills (prune_registry s).2.1 = kept
  ∧ (∃ l, l `prefix_of` kept ∧ asked l u lang msg s s')
  ∧ (∀ req, req ∈ new_of requests s s' →
       ∃ skill, skill ∈ active_skills s.1
         ∧ clock (ticks s.1) - skill.2 ≤ converse_timeout s.1 * 60
         ∧ req = converse_request u skill.1 lang msg)
  ∧ (unique_ids s.1 →
     ∀ skill, skill ∈ active_skills s.1 →
       clock (ticks s.1) - skill.2 > converse_timeout s.1 * 60 →
       ∀ req, req ∈ new_of requests s s' → target req ≠ VStr skill.1)
  ∧ (∀ query, active_skills (step (GetActiveSkills query) s).1 = active_skills s.1).
Proof.
  intros Hmono kept s'.
  assert (∀ req, req ∈ new_of requests s s' →
            ∃ skill, skill ∈ active_skills s.1
              ∧ clock (ticks s.1) - skill.2 ≤ converse_timeout s.1 * 60
              ∧ req = converse_request u skill.1 lang msg) as Hreq.
  { intros req Hin. unfold s' in Hin.
    destruct (_converse_asked u lang msg s) as (l & Hpre & Ha).
    rewrite (asked_new _ _ _ _ _ _ Ha) in Hin.
    apply list_elem_of_fmap_1 in Hin as (skill & -> & Hskill).
    exists skill. destruct Hpre as [post Hpost].
    assert (skill ∈ kept_at (converse_timeout s.1) (ticks s.1) (active_skills s.1)) as Hk.
    { rewrite Hpost. apply elem_of_app. by left. }
    apply kept_at_fresh in Hk as [? ?]; done. }
  split_and!.
  - by rewrite prune_registry_run.
  - apply _converse_asked.
  - exact Hreq.
  - intros Hu [skill ts] Hin Hexp req Hr.
    destruct (Hreq req Hr) as ([skill' ts'] & Hin' & Hfresh & ->).
    rewrite target_converse_request. simpl in *. intros [= ->].
    pose proof (unique_ids_timestamp _ _ _ _ Hu Hin Hin'). lia.
  - reflexivity.
Qed.

Lemma converse_prunes_first_witness :
  active_skills
    (prune_registry (E := hourly)
       (run (E := hourly) [Activate "X"; Activate "Y"] (init None (Ret tt), tt))).2.1
  = [].
Proof.
  destruct (converse_prunes_first (E := hourly) (VStr "hi") (VStr "en-us") (utterance_event "hi")
              (run (E := hourly) [Activate "X"; Activate "Y"] (init None (Ret tt), tt)))
    as (H & _).
  - intros i j Hij. simpl. lia.
  - rewrite H. vm_compute. reflexivity.
Defined.

(** C5, as stated, fails for the pass that [reset_converse] makes on a
    speech-recognition failure: it does not prune. With a clock that
    advances an hour per reading, X is activated at 0 and Y at 3600; the
    time-out is 600 seconds; X is still sent a request. *)
Lemma reset_converse_asks_expired :
  let s := run (E := hourly) [Activate "X"; Activate "Y"] (init None (Ret tt), tt) in
  let s' := step (E := hourly)
              (SpeechUnknown (mkMessage "core.speech.recognition.unknown" ∅ ∅)) s in
  ("X", 0) ∈ active_skills s.1
  ∧ clock (Env := hourly) (ticks s.1 - 1) - 0 > converse_timeout s.1 * 60
  ∧ clock (Env := hourly) (ticks s.1) - 0 > converse_timeout s.1 * 60
  ∧ target <$> new_of requests s s' = [VStr "Y"; VStr "X"].
Proof.
  intros s s'. split_and!.
  - apply list_elem_of_In. vm_compute. right. left. reflexivity.
  - vm_compute. reflexivity.
  - vm_compute. reflexivity.
  - vm_compute. reflexivity.
Qed.

(** ** Resolution of an utterance *)

Section Resolution.
Context `{E : Env}.

Lemma after_dispatch_called message mt u s :
  called (after_dispatch message mt u s) = called s.
Proof.
  unfold after_dispatch.
  by destruct (truthy_str (skill_id mt)), (truthy_str (intent_type mt)).
Qed.

Lemma after_dispatch_emitted message mt u s :
  emitted (after_dispatch message mt u s)
  = emitted s ++ (if truthy_str (intent_type mt) then [intent_message message mt u] else []).
Proof.
  unfold after_dispatch.
  destruct (truthy_str (skill_id mt)), (truthy_str (intent_type mt)); simpl;
    by rewrite ?app_nil_r.
Qed.

Lemma run_match_funcs_emitted fs u lang m (s : Sys) :
  emitted (run_match_funcs fs u lang m s).2.1 = emitted s.1.
Proof.
  apply (stable_run_match_funcs (λ x, emitted x = emitted s.1)); [|done..].
  apply emitted_converse_stable.
Qed.

Lemma run_match_funcs_app pre fs u lang m (s s1 : Sys) :
  no_match u lang m pre s s1 →
  run_match_funcs (pre ++ fs) u lang m s = run_match_funcs fs u lang m s1.
Proof.
  induction 1 as [|f r s s1 s2 Hf Hr IH]; [done|].
  simpl. by rewrite bind_run, Hf.
Qed.


Lemma run_match_funcs_decided pre f post u lang m (s s1 s2 : Sys) res :
  no_match u lang m pre s s1 →
  call_match_func f u lang m s1 = (res, s2) →
  res ≠ Ret None →
  run_match_funcs (pre ++ f :: post) u lang m s = (res, s2).
Proof.
  intros Hpre Hf Hres. rewrite (run_match_funcs_app _ _ _ _ _ _ _ Hpre).
  cbn [run_match_funcs]. rewrite bind_run, Hf. by destruct res as [[mt|]|e].
Qed.

Lemma tried_app fs gs u lang (s s1 s2 : Sys) :
  tried fs u lang s s1 → tried gs u lang s1 s2 → tried (fs ++ gs) u lang s s2.
Proof. unfold tried. intros H1 ->. by rewrite H1, fmap_app, app_assoc. Qed.

Lemma no_match_tried fs u lang m (s s' : Sys) :
  no_match u lang m fs s s' → tried fs u lang s s'.
Proof.
  induction 1 as [|f r s s1 s2 Hf Hr IH]; [apply tried_nil|].
  apply (tried_cons _ _ _ _ m). by rewrite Hf.
Qed.


Lemma _converse_returns u lang m (s s' : Sys) mt :
  _converse u lang m s = (Ret (Some mt), s') →
  intent_service mt = "Converse" ∧ intent_type mt = None ∧ intent_data mt = None.
Proof.
  rewrite _converse_run.
  destruct (intent_api_get_active_skills s.2).1 as [v|e]; [|done].
  match goal with |- converse_loop ?l _ _ _ ?s0 = _ → _ =>
    pose proof (converse_loop_spec l u lang m s0) as H end.
  intros Heq. rewrite Heq in H.
  by destruct H as (pre & skill & post & s1 & w & _ & _ & _ & _ & -> & _).
Qed.

Lemma _converse_match u lang m (s s' : Sys) mt :
  call_match_func Converse u lang m s = (Ret (Some mt), s') →
  intent_service mt = "Converse" ∧ intent_type mt = None ∧ intent_data mt = None.
Proof.
  unfold call_match_func. rewrite bind_run. cbn [modify_self].
  apply _converse_returns.
Qed.

Lemma handle_utterance_returned message (s s' : Sys) m :
  handle_utterance_try message s = (Ret m, s') →
  handle_utterance message s = (Ret tt, s').
Proof. intros H. unfold handle_utterance. by rewrite H. Qed.

Lemma handle_utterance_raised message (s s' : Sys) e :
  handle_utterance_try message s = (Raise e, s') →
  handle_utterance message s
  = (Ret tt, (set_log (log s'.1 ++ [LogException e]) s'.1, s'.2)).
Proof. intros H. unfold handle_utterance. by rewrite H. Qed.

Lemma call_match_func_consult f u lang m (s : Sys) :
  call_match_func f u lang m s = consult f u lang m s.
Proof.
  unfold call_match_func, consult, noted. rewrite bind_run. cbn [modify_self fst snd].
  destruct f; try reflexivity; unfold lift_world; cbn [fst snd];
    by destruct (ext_match _ u lang m s.2).
Qed.

Lemma declined_no_match fs u lang m (s s' : Sys) :
  declined u lang m fs s s' ↔ no_match u lang m fs s s'.
Proof.
  split; induction 1 as [|f r s s1 s2 Hf Hr IH]; try constructor.
  - econstructor; [|done]. by rewrite call_match_func_consult.
  - econstructor; [|done]. by rewrite <-call_match_func_consult.
Qed.


Lemma tried_dispatch fs u lang message mt (s s1 : Sys) :
  tried fs u lang s s1 → tried fs u lang s (after_dispatch message mt u s1.1, s1.2).
Proof. unfold tried. simpl. by rewrite after_dispatch_called. Qed.

Lemma tried_failure fs u lang (s s1 : Sys) l :
  tried fs u lang s s1 → tried fs u lang s (set_emitted l s1.1, s1.2).
Proof. done. Qed.
Lemma handle_utterance_tried message lang (s : Sys) :
  (_get_message_lang message s).1 = Ret lang →
  ∃ u n, tried (take n match_funcs) u (VStr lang) s (handle_utterance message s).2.
Proof.
  intros Hl. destruct (first_utterance message) as [u|e] eqn:Hu;
    [destruct (padatious_service s.1) eqn:Hpad|].
  - exists u.
    pose proof (handle_utterance_try_run message lang u s Hl Hu Hpad) as Hrun.
    pose proof (run_match_funcs_spec match_funcs u (VStr lang) message s) as Hspec.
    destruct (run_match_funcs match_funcs u (VStr lang) message s) as [[[mt|]|e] s1].
    + rewrite (handle_utterance_returned _ _ _ _ Hrun).
      destruct Hspec as (pre & f & post & s2 & Hfs & _ & _ & Ht).
      exists (length (pre ++ [f])). apply tried_dispatch. rewrite Hfs.
      replace (pre ++ f :: post) with ((pre ++ [f]) ++ post) by (by rewrite <-app_assoc).
      by rewrite take_app_length.
    + rewrite (handle_utterance_returned _ _ _ _ Hrun).
      destruct Hspec as [_ Ht]. exists (length match_funcs).
      rewrite firstn_all. by apply tried_failure.
    + rewrite (handle_utterance_raised _ _ _ _ Hrun).
      destruct Hspec as (pre & f & post & s2 & Hfs & _ & _ & Ht).
      exists (length (pre ++ [f])). rewrite Hfs.
      replace (pre ++ f :: post) with ((pre ++ [f]) ++ post) by (by rewrite <-app_assoc).
      by rewrite take_app_length.
  - exists VNone, 0%nat.
    rewrite (handle_utterance_raised _ _ _ _
               (handle_utterance_try_missing message lang u s Hl Hu Hpad)).
    unfold tried. simpl. by rewrite app_nil_r.
  - exists VNone, 0%nat.
    destruct (handle_utterance_try_early message s) as [e' He']; [right; left; by exists e|].
    rewrite (handle_utterance_raised _ _ _ _ He'). unfold tried. simpl.
    by rewrite app_nil_r.
Qed.

End Resolution.



Section Outcome.
Context `{E : Env}.

Lemma failure_is_not_intent message mt u :
  failure_message message ≠ intent_message message mt u.
Proof.
  intros Heq. apply (f_equal (λ m, data m !! "utterances")) in Heq.
  unfold failure_message, intent_message, Message_forward, set_data in Heq.
  simpl in Heq. by rewrite lookup_empty, lookup_insert_eq in Heq.
Qed.

(** A block that returned had a language, a first utterance and the
    Padatious service. *)
Lemma handle_utterance_try_inputs message (s : Sys) m :
  (handle_utterance_try message s).1 = Ret m →
  ∃ lang u, (_get_message_lang message s).1 = Ret lang ∧ first_utterance message = Ret u
    ∧ padatious_service s.1 = true.
Proof.
  intros Hr.
  destruct (_get_message_lang message s).1 as [lang|e] eqn:Hl.
  - destruct (first_utterance message) as [u|e] eqn:Hu.
    + destruct (padatious_service s.1) eqn:Hpad; [by exists lang, u|].
      destruct (handle_utterance_try_early message s) as [e' He']; [by right; right|].
      by rewrite He' in Hr.
    + destruct (handle_utterance_try_early message s) as [e' He']; [right; left; by exists e|].
      by rewrite He' in Hr.
  - destruct (handle_utterance_try_early message s) as [e' He']; [left; by exists e|].
    by rewrite He' in Hr.
Qed.

(** A block that raised published nothing. *)
Lemma handle_utterance_try_raise_emitted message (s : Sys) e :
  (handle_utterance_try message s).1 = Raise e →
  emitted (handle_utterance_try message s).2.1 = emitted s.1.
Proof.
  intros Hr.
  destruct (_get_message_lang message s).1 as [lang|e1] eqn:Hl.
  - destruct (first_utterance message) as [u|e2] eqn:Hu.
    + destruct (padatious_service s.1) eqn:Hpad.
      * rewrite (handle_utterance_try_run message lang u s Hl Hu Hpad) in *.
        pose proof (run_match_funcs_emitted match_funcs u (VStr lang) message s) as Hem.
        by destruct (run_match_funcs match_funcs u (VStr lang) message s) as [[[mt|]|e'] s1].
      * by rewrite (handle_utterance_try_missing message lang u s Hl Hu Hpad).
    + destruct (handle_utterance_try_early message s) as [e' He']; [right; left; by exists e2|].
      by rewrite He'.
  - destruct (handle_utterance_try_early message s) as [e' He']; [left; by exists e1|].
    by rewrite He'.
Qed.
End Outcome.

(** C2, as stated, fails: a resolution that completes without error can
    publish neither message. Here the active skill accepts the utterance
    in its converse step; the block returns the Converse match, which
    names no intent, and nothing is published. *)
Lemma converse_match_publishes_neither :
  let event := utterance_event "stop" in
  let s := run (E := skills_accept) [Activate "timer-skill"] (init None (Ret tt), tt) in
  (handle_utterance_try (E := skills_accept) event s).1
  = Ret (Some (mkIntentMatch "Converse" None None (Some "timer-skill")))
  ∧ (handle_utterance (E := skills_accept) event s).1 = Ret tt
  ∧ emitted (handle_utterance (E := skills_accept) event s).2.1 = emitted s.1
  ∧ emitted s.1 = [].
Proof. vm_compute. split_and!; reflexivity. Qed.

(** C2, as the code has it. When the [try] block of [handle_utterance]
    runs to its end (no exception), the handler appends to what was
    published: if a matcher answered with a match, the one targeted
    message of that match when it names an intent and nothing when it
    names none, as for every match of the converse step, and never the
    failure message; if no matcher answered with a match, exactly the one
    failure message. So the failure message is published, once, exactly
    when no matcher returned a match. *)
Theorem handle_utterance_publishes `{E : Env} (message : Message) (s : Sys)
    (m : option IntentMatch) :
  (handle_utterance_try message s).1 = Ret m →
  let out := new_of emitted s (handle_utterance message s).2 in
  ∃ lang u, (_get_message_lang message s).1 = Ret lang
    ∧ first_utterance message = Ret u
    ∧ emitted (handle_utterance message s).2.1 = emitted s.1 ++ out
    ∧ (length out ≤ 1)%nat
    ∧ match m with
      | Some mt =>
        (∃ pre f post s1 s2, match_funcs = pre ++ f :: post
           ∧ declined u (VStr lang) message pre s s1
           ∧ consult f u (VStr lang) message s1 = (Ret (Some mt), s2)
           ∧ (f = Converse → out = []))
        ∧ out = (if truthy_str (intent_type mt) then [intent_message message mt u] else [])
        ∧ failure_message message ∉ out
      | None =>
        (∃ s1, declined u (VStr lang) message match_funcs s s1)
        ∧ out = [failure_message message]
      end
    ∧ (failure_message message ∈ out ↔ m = None).
Proof.
  intros Hr out.
  destruct (handle_utterance_try_inputs message s m Hr) as (lang & u & Hl & Hu & Hpad).
  exists lang, u. split; [done|]. split; [done|].
  pose proof (handle_utterance_try_run message lang u s Hl Hu Hpad) as Hrun.
  pose proof (run_match_funcs_spec match_funcs u (VStr lang) message s) as Hspec.
  pose proof (run_match_funcs_emitted match_funcs u (VStr lang) message s) as Hem.
  destruct (run_match_funcs match_funcs u (VStr lang) message s) as [[[mt|]|e] s1];
    rewrite Hrun in Hr; simpl in Hr; [| |done]; injection Hr as <-.
  - assert (emitted (handle_utterance message s).2.1
            = emitted s.1
              ++ (if truthy_str (intent_type mt) then [intent_message message mt u] else []))
      as Hemit.
    { rewrite (handle_utterance_returned _ _ _ _ Hrun). simpl.
      rewrite after_dispatch_emitted. simpl in Hem. by rewrite Hem. }
    assert (out = if truthy_str (intent_type mt) then [intent_message message mt u] else [])
      as Hout.
    { unfold out, new_of. rewrite Hemit. by rewrite drop_app_length. }
    assert (failure_message message ∉ out) as Hnot.
    { rewrite Hout. destruct (truthy_str (intent_type mt)); [|apply not_elem_of_nil].
      rewrite list_elem_of_singleton. apply failure_is_not_intent. }
    split_and!.
    + by rewrite Hout.
    + rewrite Hout. destruct (truthy_str (intent_type mt)); simpl; lia.
    + destruct Hspec as (pre & f & post & s2 & Hfs & Hn & Hf & _).
      exists pre, f, post, s2, s1. split_and!; [done| | |].
      * by apply declined_no_match.
      * by rewrite <-call_match_func_consult.
      * intros ->. destruct (_converse_match _ _ _ _ _ _ Hf) as (_ & Ht & _).
        rewrite Hout, Ht. done.
    + done.
    + done.
    + split; [done|]. intros [=].
  - assert (emitted (handle_utterance message s).2.1
            = emitted s.1 ++ [failure_message message]) as Hemit.
    { rewrite (handle_utterance_returned _ _ _ _ Hrun). simpl. simpl in Hem. by rewrite Hem. }
    assert (out = [failure_message message]) as Hout.
    { unfold out, new_of. rewrite Hemit. by rewrite drop_app_length. }
    split_and!.
    + by rewrite Hout.
    + rewrite Hout. simpl. lia.
    + destruct Hspec as [Hn _]. exists s1. by apply declined_no_match.
    + done.
    + rewrite Hout. split; [done|]. intros _. by apply list_elem_of_singleton.
Qed.

Lemma handle_utterance_publishes_witness :
  new_of (E := silent) emitted (init None (Ret tt), tt)
    (handle_utterance (E := silent) (utterance_event "foo bar baz") (init None (Ret tt), tt)).2
  = [failure_message (utterance_event "foo bar baz")].
Proof.
  destruct (handle_utterance_publishes (E := silent) (utterance_event "foo bar baz")
              (init None (Ret tt), tt) None)
    as (lang & u & _ & _ & _ & _ & (_ & H) & _).
  - vm_compute. reflexivity.
  - exact H.
Defined.

(** C3, as stated, fails: a matcher that raises ends the resolution. Here
    Padatious raises in its high tier and Adapt would match; Adapt is
    never called, nothing is published and no skill becomes active. *)
Lemma matcher_failure_ends_resolution :
  let event := utterance_event "what's the weather" in
  let s := (init None (Ret tt), tt) in
  let s' := (handle_utterance (E := padatious_raises) event s).2 in
  ext_match (Env := padatious_raises) PadatiousHigh (VStr "what's the weather") (VStr "en-us")
    event tt = (Raise (ExternalError "padatious"), tt)
  ∧ ext_match (Env := padatious_raises) Adapt (VStr "what's the weather") (VStr "en-us")
      event tt = (Ret (Some weather_match), tt)
  ∧ (called s'.1).*1.*1 = [Converse; PadatiousHigh]
  ∧ emitted s'.1 = []
  ∧ active_skills s'.1 = []
  ∧ last (log s'.1) = Some (LogException (ExternalError "padatious")).
Proof. vm_compute. split_and!; reflexivity. Qed.

(** C3, as the code has it. The [try] block has one guard around all of
    it. When a matcher raises, after the matchers before it returned
    [None], the handler returns normally, the exception is logged, the
    matchers after it are not called, and nothing is published (no
    intent, no failure event); the registry is as the raising matcher
    left it. The same holds for whatever else raises in the block: it is
    logged and nothing is published. On a service without its Padatious
    service the block raises [AttributeError] where it builds the
    matcher: the handler logs it, and no matcher is called. *)
Theorem matcher_failure_aborts `{E : Env} (message : Message) (s : Sys) :
  (∀ lang u pre f post s1 e s2,
     (_get_message_lang message s).1 = Ret lang →
     first_utterance message = Ret u →
     padatious_service s.1 = true →
     match_funcs = pre ++ f :: post →
     no_match u (VStr lang) message pre s s1 →
     call_match_func f u (VStr lang) message s1 = (Raise e, s2) →
     let r := handle_utterance message s in
     r.1 = Ret tt
     ∧ log r.2.1 = log s2.1 ++ [LogException e]
     ∧ tried (pre ++ [f]) u (VStr lang) s r.2
     ∧ emitted r.2.1 = emitted s.1
     ∧ active_skills r.2.1 = active_skills s2.1)
  ∧ (∀ e, (handle_utterance_try message s).1 = Raise e →
       let r := handle_utterance message s in
       r.1 = Ret tt
       ∧ log r.2.1 = log (handle_utterance_try message s).2.1 ++ [LogException e]
       ∧ emitted r.2.1 = emitted s.1)
  ∧ (∀ lang u,
       (_get_message_lang message s).1 = Ret lang →
       first_utterance message = Ret u →
       padatious_service s.1 = false →
       handle_utterance message s
       = (Ret tt, (set_log (log s.1 ++ [LogException AttributeError]) s.1, s.2))).
Proof.
  split_and!.
  - intros lang u pre f post s1 e s2 Hl Hu Hpad Hfs Hn Hf r.
    pose proof (handle_utterance_try_run message lang u s Hl Hu Hpad) as Hrun.
    rewrite Hfs, (run_match_funcs_decided _ _ _ _ _ _ _ _ _ _ Hn Hf) in Hrun by done.
    pose proof (handle_utterance_raised _ _ _ _ Hrun) as Hh.
    pose proof (handle_utterance_try_raise_emitted message s e) as Hem.
    rewrite Hrun in Hem. subst r. rewrite Hh. simpl. split_and!; try done.
    + apply (tried_app _ _ _ _ _ s1); [by eapply no_match_tried|].
      pose proof (call_match_func_called f u (VStr lang) message s1) as Hc.
      rewrite Hf in Hc. exact Hc.
    + by apply Hem.
  - intros e Hr r.
    pose proof (handle_utterance_try_raise_emitted message s e Hr) as Hem.
    destruct (handle_utterance_try message s) as [res s'] eqn:Ht. simpl in *. subst res.
    subst r. by rewrite (handle_utterance_raised _ _ _ _ Ht).
  - intros lang u Hl Hu Hpad.
    by rewrite (handle_utterance_raised _ _ _ _
                  (handle_utterance_try_missing message lang u s Hl Hu Hpad)).
Qed.

Lemma matcher_failure_aborts_witness :
  emitted (handle_utterance (E := padatious_raises) (utterance_event "what's the weather")
             (init None (Ret tt), tt)).2.1
  = [].
Proof.
  destruct (matcher_failure_aborts (E := padatious_raises)
              (utterance_event "what's the weather") (init None (Ret tt), tt)) as [H _].
  destruct (H "en-us" (VStr "what's the weather") [Converse] PadatiousHigh
              [Adapt; Persona; FallbackHigh; PadatiousMedium; FallbackMedium;
               PadatiousLow; FallbackLow]
              (call_match_func (E := padatious_raises) Converse (VStr "what's the weather")
                 (VStr "en-us") (utterance_event "what's the weather") (init None (Ret tt), tt)).2
              (ExternalError "padatious")
              (call_match_func (E := padatious_raises) PadatiousHigh
                 (VStr "what's the weather") (VStr "en-us")
                 (utterance_event "what's the weather")
                 (call_match_func (E := padatious_raises) Converse
                    (VStr "what's the weather") (VStr "en-us")
                    (utterance_event "what's the weather") (init None (Ret tt), tt)).2).2)
    as (_ & _ & _ & Hem & _).
  - reflexivity.
  - reflexivity.
  - reflexivity.
  - reflexivity.
  - econstructor; [|constructor]. vm_compute. reflexivity.
  - vm_compute. reflexivity.
  - exact Hem.
Defined.

(** ** Context injection *)

Section ContextInjection.
Context `{E : Env}.

Lemma handle_add_context_forwards message (s : Sys) :
  new_of adapt_calls s (handle_add_context message s).2
  = [InjectContext (context_entity message)].
Proof.
  unfold handle_add_context, adapt, new_of. rewrite bind_run. simpl.
  unfold lift_world. simpl. destruct (adapt_call _ _) as [r w]. simpl.
  by rewrite drop_app_length.
Qed.

Lemma context_entity_shape message :
  ce_confidence (context_entity message) = 1%Q
  ∧ ce_data (context_entity message)
    = [(ce_key (context_entity message), dict_get (data message) "context")]
  ∧ ce_match (context_entity message) = ce_key (context_entity message).
Proof. done. Qed.

Lemma context_word_string message w :
  data message !! "word" = Some (VStr w) → ce_key (context_entity message) = w.
Proof.
  intros H. unfold context_entity, dict_get, py_or. rewrite H. simpl.
  destruct (String.eqb_spec w ""); simpl; congruence.
Qed.

Lemma context_word_absent message :
  data message !! "word" = None → ce_key (context_entity message) = "".
Proof. intros H. unfold context_entity, dict_get, py_or. by rewrite H. Qed.

Lemma context_word_truthy message v :
  data message !! "word" = Some v → truthy v = true →
  ce_key (context_entity message) = word_text v.
Proof. intros H Hv. unfold context_entity, dict_get, py_or. rewrite H. simpl. by rewrite Hv. Qed.

Lemma context_word_falsy message v :
  data message !! "word" = Some v → truthy v = false →
  ce_key (context_entity message) = "".
Proof. intros H Hv. unfold context_entity, dict_get, py_or. rewrite H. simpl. by rewrite Hv. Qed.
End ContextInjection.

(** C7, where the code departs from it. The word of an [add_context]
    message is taken through [or ""] before it is made a string, so a
    word that is falsy without being a string is replaced by the empty
    string instead of being coerced: for the number 0 the entity
    forwarded to Adapt has the empty string as its key, match and token,
    while the textual form of 0 is "0". *)
Theorem add_context_number_zero `{E : Env} (s : Sys) :
  let message := mkMessage "add_context" {["context" := VStr "Count"; "word" := VInt 0]} ∅ in
  new_of adapt_calls s (handle_add_context message s).2
  = [InjectContext (mkContextEntity 1%Q [("", VStr "Count")] "" "" (VStr ""))]
  ∧ py_str (VInt 0) = "0".
Proof.
  intros message. split; [|reflexivity].
  rewrite handle_add_context_forwards. reflexivity.
Qed.

(** ** The vocabulary log *)

Section Vocabulary_log.
Context `{E : Env}.

Lemma handle_register_vocab_run m (s : Sys) :
  let c := RegisterVocabulary (dict_get (data m) "entity_value")
             (dict_get (data m) "entity_type") (dict_get (data m) "alias_of")
             (dict_get (data m) "regex") in
  let s1 := set_adapt_calls (adapt_calls s.1 ++ [c]) s.1 in
  handle_register_vocab m s
  = match adapt_call c s.2 with
    | (Ret _, w) => (Ret tt, (set_registered_vocab (registered_vocab s.1 ++ [data m]) s1, w))
    | (Raise e, w) => (Raise e, (s1, w))
    end.
Proof.
  intros c s1. unfold handle_register_vocab, adapt. rewrite !bind_run. simpl.
  unfold lift_world. simpl. fold c. by destruct (adapt_call c s.2) as [[[]|e] w].
Qed.

Lemma register_all_accepted msgs (s : Sys) :
  (∀ a b c d w, (adapt_call (RegisterVocabulary a b c d) w).1 = Ret tt) →
  registered_vocab (run (RegisterVocab <$> msgs) s).1
  = registered_vocab s.1 ++ (data <$> msgs).
Proof.
  intros Hacc. revert s. induction msgs as [|m msgs IH]; intros s; simpl.
  - by rewrite app_nil_r.
  - rewrite IH. unfold step. simpl. rewrite handle_register_vocab_run.
    match goal with |- context [adapt_call ?c ?w] =>
      pose proof (Hacc _ _ _ _ w : (adapt_call c w).1 = Ret tt) as Ha;
      destruct (adapt_call c w) as [r w'] end.
    simpl in Ha. subst r. simpl. by rewrite <-app_assoc.
Qed.

Lemma handle_vocab_manifest_reply query (s : Sys) :
  new_of emitted s (step (VocabManifest query) s)
  = [Message_reply query "intent.service.adapt.vocab.manifest"
       {["vocab" := VList (VDict <$> registered_vocab s.1)]}].
Proof. unfold new_of, step. simpl. by rewrite drop_app_length. Qed.

Lemma vocab_append_only evs (s : Sys) :
  registered_vocab s.1 `prefix_of` registered_vocab (run evs s).1.
Proof.
  apply (stable_run (λ x, registered_vocab s.1 `prefix_of` registered_vocab x));
    [apply vocab_prefix_stable | done].
Qed.
End Vocabulary_log.

(** C8. A [register_vocab] message that Adapt takes appends its payload,
    as it is, at the end of the log (one that Adapt refuses with an
    exception leaves the log as it was). So after any sequence of
    registrations that Adapt takes, the log is the earlier log followed by
    the payloads in the order of registration, repeated ones included,
    and the manifest query replies with exactly this log. No event ever
    removes or changes an entry: the log before any run of events is a
    prefix of the log after. *)
Theorem vocab_manifest_round_trip `{E : Env} (s : Sys) :
  (∀ m, match handle_register_vocab m s with
        | (Ret _, s') => registered_vocab s'.1 = registered_vocab s.1 ++ [data m]
        | (Raise _, s') => registered_vocab s'.1 = registered_vocab s.1
        end)
  ∧ ((∀ a b c d w, (adapt_call (RegisterVocabulary a b c d) w).1 = Ret tt) →
     ∀ msgs query,
       let s1 := run (RegisterVocab <$> msgs) s in
       registered_vocab s1.1 = registered_vocab s.1 ++ (data <$> msgs)
       ∧ new_of emitted s1 (step (VocabManifest query) s1)
         = [Message_reply query "intent.service.adapt.vocab.manifest"
              {["vocab" := VList (VDict <$> (registered_vocab s.1 ++ (data <$> msgs)))]}])
  ∧ (∀ query,
       new_of emitted s (step (VocabManifest query) s)
       = [Message_reply query "intent.service.adapt.vocab.manifest"
            {["vocab" := VList (VDict <$> registered_vocab s.1)]}])
  ∧ (∀ evs, registered_vocab s.1 `prefix_of` registered_vocab (run evs s).1).
Proof.
  split_and!.
  - intros m. rewrite handle_register_vocab_run.
    by destruct (adapt_call _ _) as [[[]|e] w].
  - intros Hacc msgs query s1. split; [by apply register_all_accepted|].
    rewrite handle_vocab_manifest_reply. unfold s1. by rewrite register_all_accepted.
  - intros query. apply handle_vocab_manifest_reply.
  - intros evs. apply vocab_append_only.
Qed.

Lemma vocab_manifest_round_trip_witness :
  registered_vocab
    (run (E := silent)
       (RegisterVocab <$> [mkMessage "register_vocab" {["entity_value" := VStr "rain"]} ∅;
                           mkMessage "register_vocab" {["entity_value" := VStr "rain"]} ∅])
       (init None (Ret tt), tt)).1
  = [{["entity_value" := VStr "rain"]}; {["entity_value" := VStr "rain"]}].
Proof.
  destruct (vocab_manifest_round_trip (E := silent) (init None (Ret tt), tt)) as (_ & H & _).
  destruct (H (λ _ _ _ _ _, eq_refl)
              [mkMessage "register_vocab" {["entity_value" := VStr "rain"]} ∅;
               mkMessage "register_vocab" {["entity_value" := VStr "rain"]} ∅]
              (mkMessage "intent.service.adapt.vocab.manifest.get" ∅ ∅)) as [Hlog _].
  exact Hlog.
Defined.

(** ** The language of an utterance *)

Section Language.
Context `{E : Env}.

Lemma get_message_lang_given message l (s : Sys) :
  data message !! "lang" = Some (VStr l) →
  _get_message_lang message s = (Ret (lower l), s).
Proof.
  intros H. unfold _get_message_lang, dict_get_default. rewrite bind_run. simpl.
  by rewrite H.
Qed.

Lemma get_message_lang_default message (s : Sys) :
  data message !! "lang" = None →
  _get_message_lang message s = (Ret (lower (default "en-us" (config_lang s.1))), s).
Proof.
  intros H. unfold _get_message_lang, dict_get_default. rewrite bind_run. simpl.
  by rewrite H.
Qed.

Lemma config_lang_run evs (s : Sys) : config_lang (run evs s).1 = config_lang s.1.
Proof. by apply (stable_run (λ x, config_lang x = config_lang s.1)), config_lang_stable. Qed.
End Language.

(** C9, where the code departs from it. [set_default_lf_lang] is to
    make the language of the event the active language of Lingua Franca
    (so its docstring says, and the claim); the call into Lingua Franca
    is commented out, and what is left answers "en-us" and sets nothing.
    For an event in German the effective language is "de-de", and it is
    the language argument of every matcher call of the event; but the
    call that is to bind it leaves the store as it was, whatever the
    language, and the configured default is the same after the event, and
    after any run of events, also when the event carries no language. *)
Theorem utterance_language_not_bound `{E : Env} (s : Sys) :
  let event := mkMessage "recognizer_loop:utterance"
                 {["utterances" := VList [VStr "hallo"]; "lang" := VStr "de-DE"]} ∅ in
  _get_message_lang event s = (Ret "de-de", s)
  ∧ (∀ c, c ∈ new_of called s (handle_utterance event s).2 → c.2 = VStr "de-de")
  ∧ set_default_lf_lang "de-de" s = (Ret "en-us", s)
  ∧ (∀ lang, set_default_lf_lang lang s = (Ret "en-us", s))
  ∧ config_lang (handle_utterance event s).2.1 = config_lang s.1
  ∧ config_lang (handle_utterance (utterance_event "hallo") s).2.1 = config_lang s.1
  ∧ (∀ evs, config_lang (run evs s).1 = config_lang s.1).
Proof.
  intros event.
  assert (_get_message_lang event s = (Ret "de-de", s)) as Hl.
  { apply (get_message_lang_given event "de-DE" s). reflexivity. }
  split_and!.
  - exact Hl.
  - intros c Hc.
    destruct (handle_utterance_tried event "de-de" s) as (u & n & Ht); [by rewrite Hl|].
    rewrite (tried_new _ _ _ _ _ Ht) in Hc.
    by apply list_elem_of_fmap_1 in Hc as (f & -> & _).
  - done.
  - done.
  - apply (config_lang_run [Utterance event] s).
  - apply (config_lang_run [Utterance (utterance_event "hallo")] s).
  - intros evs. apply config_lang_run.
Qed.

(** ** The intent probe *)

Section Probe.
Context `{E : Env}.

Lemma probe_loop_app pre fs u lang m (s s1 : Sys) :
  no_match u lang m pre s s1 →
  probe_loop (pre ++ fs) u lang m s = probe_loop fs u lang m s1.
Proof.
  induction 1 as [|f r s s1 s2 Hf Hr IH]; [done|].
  simpl. by rewrite bind_run, Hf.
Qed.

Lemma probe_loop_none fs u lang m (s s1 : Sys) :
  no_match u lang m fs s s1 → probe_loop fs u lang m s = (Ret false, s1).
Proof.
  intros H. rewrite <-(app_nil_r fs). by rewrite (probe_loop_app _ _ _ _ _ _ _ H).
Qed.

Lemma probe_loop_hit f fs u lang m (s s1 : Sys) mt :
  call_match_func f u lang m s = (Ret (Some mt), s1) →
  probe_loop (f :: fs) u lang m s
  = if truthy_str (intent_type mt)
    then match intent_data mt with
         | Some d =>
           (Ret true,
            (set_emitted
               (emitted s1.1
                ++ [Message_reply m "intent.service.intent.reply"
                      {["intent" := VDict (probe_payload f mt d)]}]) s1.1, s1.2))
         | None => (Raise TypeError, s1)
         end
    else (Ret true, s1).
Proof.
  intros Hf. simpl. rewrite bind_run, Hf. rewrite bind_run.
  destruct (truthy_str (intent_type mt)); [|by destruct s1].
  by destruct (intent_data mt).
Qed.

Lemma probe_loop_tried fs u lang m (s : Sys) :
  ∃ n, tried (take n fs) u lang s (probe_loop fs u lang m s).2.
Proof.
  revert s. induction fs as [|f fs IH]; intros s.
  - exists 0%nat. apply tried_nil.
  - destruct (call_match_func f u lang m s) as [[[mt|]|e] s1] eqn:Hf.
    + exists 1%nat. rewrite (probe_loop_hit _ _ _ _ _ _ _ _ Hf).
      apply (tried_cons _ _ _ _ m). rewrite Hf. simpl.
      destruct (truthy_str (intent_type mt)); [|apply tried_nil].
      destruct (intent_data mt); [|apply tried_nil].
      unfold tried. simpl. by rewrite app_nil_r.
    + destruct (IH s1) as [n Hn]. exists (S n).
      simpl. rewrite bind_run, Hf. apply (tried_cons _ _ _ _ m). by rewrite Hf.
    + exists 1%nat. simpl. rewrite bind_run, Hf.
      apply (tried_cons _ _ _ _ m). rewrite Hf. apply tried_nil.
Qed.

(** The probe only touches the call trace and the messages published. *)
Lemma probe_loop_preserves P fs u lang m :
  (∀ s l, P s → P (set_called l s)) → (∀ s l, P s → P (set_emitted l s)) →
  Converse ∉ fs → preserves P (probe_loop fs u lang m).
Proof.
  intros Hc He. induction fs as [|f fs IH]; intros Hnin; simpl; [apply preserves_ret|].
  apply not_elem_of_cons in Hnin as [Hf Hfs].
  apply preserves_bind.
  - unfold call_match_func. apply preserves_bind.
    + apply preserves_modify_self. intros s. apply Hc.
    + intros _. destruct f; try apply preserves_lift_world. done.
  - intros [mt|]; [|by apply IH].
    frame; apply preserves_modify_self; intros s; apply He.
Qed.

Lemma handle_get_intent_preserves P message :
  (∀ s l, P s → P (set_called l s)) → (∀ s l, P s → P (set_emitted l s)) →
  preserves P (handle_get_intent message).
Proof.
  intros Hc He. unfold handle_get_intent, dict_index. frame.
  - apply probe_loop_preserves; [done..|].
    unfold probe_funcs. rewrite !not_elem_of_cons. split_and!; try done. apply not_elem_of_nil.
  - apply preserves_modify_self. intros s. apply He.
Qed.

Lemma no_match_emitted fs u lang m (s s' : Sys) :
  no_match u lang m fs s s' → emitted s'.1 = emitted s.1.
Proof.
  induction 1 as [|f r s s1 s2 Hf Hr IH]; [done|]. rewrite IH.
  pose proof (stable_call_match_func (λ x, emitted x = emitted s.1)
                (emitted_converse_stable _) (λ _ _ H, H) f u lang m s eq_refl) as H.
  by rewrite Hf in H.
Qed.

Lemma call_match_func_emitted f u lang m (s : Sys) :
  emitted (call_match_func f u lang m s).2.1 = emitted s.1.
Proof.
  by apply (stable_call_match_func (λ x, emitted x = emitted s.1)
              (emitted_converse_stable _) (λ _ _ H, H) f u lang m s).
Qed.

Lemma handle_get_intent_missing message u (s : Sys) :
  data message !! "utterance" = Some u →
  padatious_service s.1 = false →
  handle_get_intent message s = (Raise AttributeError, s).
Proof.
  intros Hu Hpad. unfold handle_get_intent, dict_index. rewrite Hu.
  rewrite (bind_ret_run (mret u) _ s u s eq_refl).
  by rewrite bind_run, (padatious_matcher_missing s Hpad).
Qed.

Lemma handle_get_intent_run message u (s : Sys) :
  data message !! "utterance" = Some u →
  padatious_service s.1 = true →
  handle_get_intent message s
  = match probe_loop probe_funcs u (dict_get_default (data message) "lang" (VStr "en-us"))
            message s with
    | (Ret true, s1) => (Ret tt, s1)
    | (Ret false, s1) =>
      (Ret tt,
       (set_emitted
          (emitted s1.1
           ++ [Message_reply message "intent.service.intent.reply" {["intent" := VNone]}])
          s1.1, s1.2))
    | (Raise e, s1) => (Raise e, s1)
    end.
Proof.
  intros Hu Hpad. unfold handle_get_intent, dict_index. rewrite Hu.
  rewrite (bind_ret_run (mret u) _ s u s eq_refl).
  rewrite (bind_ret_run padatious_matcher _ s tt s (padatious_matcher_run s Hpad)).
  rewrite bind_run.
  by destruct (probe_loop _ _ _ _ _) as [[[]|e] s1].
Qed.

(** What the probe publishes: at most one message. *)
Lemma probe_loop_emitted fs u lang m (s : Sys) :
  ∃ out, emitted (probe_loop fs u lang m s).2.1 = emitted s.1 ++ out
    ∧ (length out ≤ 1)%nat
    ∧ ((probe_loop fs u lang m s).1 = Ret false → out = []).
Proof.
  revert s. induction fs as [|f fs IH]; intros s.
  - exists []. simpl. rewrite app_nil_r. split_and!; [done|lia|done].
  - pose proof (call_match_func_emitted f u lang m s) as Hem.
    destruct (call_match_func f u lang m s) as [[[mt|]|e] s1] eqn:Hf; simpl in Hem.
    + rewrite (probe_loop_hit _ _ _ _ _ _ _ _ Hf).
      destruct (truthy_str (intent_type mt)).
      * destruct (intent_data mt) as [d|].
        -- eexists. simpl. rewrite Hem. split; [done|]. split; [simpl; lia|done].
        -- exists []. simpl. rewrite Hem, app_nil_r. split; [done|]. split; [simpl; lia|done].
      * exists []. simpl. rewrite Hem, app_nil_r. split; [done|]. split; [simpl; lia|done].
    + destruct (IH s1) as (out & Hout & Hlen & Hfalse). exists out.
      simpl. rewrite bind_run, Hf. by rewrite <-Hem.
    + exists []. simpl. rewrite bind_run, Hf. simpl.
      rewrite Hem, app_nil_r. split; [done|]. split; [simpl; lia|done].
Qed.

Lemma handle_get_intent_emitted message (s : Sys) :
  ∃ out, emitted (handle_get_intent message s).2.1 = emitted s.1 ++ out
    ∧ (length out ≤ 1)%nat.
Proof.
  destruct (data message !! "utterance") as [u|] eqn:Hu;
    [destruct (padatious_service s.1) eqn:Hpad|].
  - rewrite (handle_get_intent_run message u s Hu Hpad).
    destruct (probe_loop_emitted probe_funcs u
                (dict_get_default (data message) "lang" (VStr "en-us")) message s)
      as (out & Hout & Hlen & Hfalse).
    destruct (probe_loop _ _ _ _ _) as [[[]|e] s1]; simpl in *.
    + by exists out.
    + rewrite (Hfalse eq_refl), app_nil_r in Hout. rewrite Hout.
      eexists. split; [done|]. simpl. lia.
    + by exists out.
  - rewrite (handle_get_intent_missing message u s Hu Hpad). exists [].
    rewrite app_nil_r. split; [done|]. simpl. lia.
  - exists []. unfold handle_get_intent, dict_index. rewrite Hu. simpl.
    rewrite app_nil_r. split; [done|]. simpl. lia.
Qed.
End Probe.

(** C10, as stated, fails: the probe sends no reply when the first match
    names no intent. Here Padatious answers in its high tier with a match
    whose intent type is [None]. *)
Lemma get_intent_without_reply :
  let query := mkMessage "intent.service.intent.get" {["utterance" := VStr "set a timer"]} ∅ in
  let r := handle_get_intent (E := untyped_match) query (init None (Ret tt), tt) in
  ext_match (Env := untyped_match) PadatiousHigh (VStr "set a timer") (VStr "en-us") query tt
  = (Ret (Some (mkIntentMatch "Padatious" None (Some ∅) (Some "timer-skill"))), tt)
  ∧ r.1 = Ret tt
  ∧ emitted r.2.1 = [].
Proof. vm_compute. split_and!; reflexivity. Qed.

(** C10, as the code has it. For a query that carries an utterance, the
    probe consults matchers of the reduced list (Padatious high, Adapt,
    Padatious medium, Padatious low) only, in that order and up to the
    first match; it changes nothing in the service but the call trace
    and the messages published, so the registry is as before; it
    publishes at most one message. On a service that has its Padatious
    service: when the first match names an intent and has intent data,
    the one message is the reply with that data, to which the intent
    name, the service, the skill and the name of the match function are
    assigned; when it names an intent and has no intent data, the handler
    raises [TypeError] and nothing is published; when it names no intent,
    nothing is published; when no matcher matches, the one message is the
    reply with a null intent. On a service without its Padatious service
    the handler raises [AttributeError] before any matcher is consulted,
    and nothing is published. *)
Theorem get_intent_probe `{E : Env} (message : Message) (s : Sys) (u : Value) :
  data message !! "utterance" = Some u →
  let lang := dict_get_default (data message) "lang" (VStr "en-us") in
  let r := handle_get_intent message s in
  let out := new_of emitted s r.2 in
  probe_funcs = [PadatiousHigh; Adapt; PadatiousMedium; PadatiousLow]
  ∧ (∃ n, tried (take n probe_funcs) u lang s r.2)
  ∧ active_skills r.2.1 = active_skills s.1
  ∧ set_emitted (emitted s.1) (set_called (called s.1) r.2.1) = s.1
  ∧ emitted r.2.1 = emitted s.1 ++ out
  ∧ (length out ≤ 1)%nat
  ∧ (padatious_service s.1 = false → r = (Raise AttributeError, s))
  ∧ (padatious_service s.1 = true →
     (∀ pre f post s1 s2 mt,
        probe_funcs = pre ++ f :: post →
        declined u lang message pre s s1 →
        consult f u lang message s1 = (Ret (Some mt), s2) →
        (∀ d, truthy_str (intent_type mt) = true → intent_data mt = Some d →
           r.1 = Ret tt
           ∧ out = [Message_reply message "intent.service.intent.reply"
                      {["intent" := VDict (probe_payload f mt d)]}])
        ∧ (truthy_str (intent_type mt) = true → intent_data mt = None →
           r.1 = Raise TypeError ∧ out = [])
        ∧ (truthy_str (intent_type mt) = false → r.1 = Ret tt ∧ out = []))
     ∧ (∀ s1, declined u lang message probe_funcs s s1 →
          r.1 = Ret tt
          ∧ out = [Message_reply message "intent.service.intent.reply" {["intent" := VNone]}])).
Proof.
  intros Hu lang r out.
  assert (emitted r.2.1 = emitted s.1 ++ out ∧ (length out ≤ 1)%nat) as [Hemit Hlen].
  { destruct (handle_get_intent_emitted message s) as (out' & Hout' & Hlen').
    assert (out = out') as ->; [|done].
    unfold out, new_of, r. rewrite Hout'. by rewrite drop_app_length. }
  split_and!; [done| | | |done|done| |].
  - destruct (padatious_service s.1) eqn:Hpad.
    + pose proof (handle_get_intent_run message u s Hu Hpad) as Hrun.
      fold lang in Hrun. fold r in Hrun.
      destruct (probe_loop_tried probe_funcs u lang message s) as [n Hn].
      exists n. rewrite Hrun.
      by destruct (probe_loop probe_funcs u lang message s) as [[[]|e] s1].
    + exists 0%nat. unfold r. rewrite (handle_get_intent_missing message u s Hu Hpad).
      apply tried_nil.
  - by apply (handle_get_intent_preserves (λ x, active_skills x = active_skills s.1)).
  - apply (handle_get_intent_preserves
             (λ x, set_emitted (emitted s.1) (set_called (called s.1) x) = s.1)); [done..|].
    by destruct s as [[] w].
  - intros Hpad. apply (handle_get_intent_missing message u s Hu Hpad).
  - intros Hpad.
    pose proof (handle_get_intent_run message u s Hu Hpad) as Hrun.
    fold lang in Hrun. fold r in Hrun.
    split.
    + intros pre f post s1 s2 mt Hfs Hn Hf.
      apply declined_no_match in Hn. rewrite <-call_match_func_consult in Hf.
      assert (emitted s2.1 = emitted s.1) as Hem.
      { pose proof (call_match_func_emitted f u lang message s1) as H1.
        rewrite Hf in H1. simpl in H1. rewrite H1. by eapply no_match_emitted. }
      rewrite Hfs, (probe_loop_app _ _ _ _ _ _ _ Hn), (probe_loop_hit _ _ _ _ _ _ _ _ Hf) in Hrun.
      split_and!.
      * intros d Ht Hd. rewrite Ht, Hd in Hrun. unfold out, new_of. rewrite Hrun. simpl.
        split; [done|]. rewrite Hem. by rewrite drop_app_length.
      * intros Ht Hd. rewrite Ht, Hd in Hrun. unfold out, new_of. rewrite Hrun. simpl.
        split; [done|]. rewrite Hem. by rewrite drop_all.
      * intros Ht. rewrite Ht in Hrun. unfold out, new_of. rewrite Hrun. simpl.
        split; [done|]. rewrite Hem. by rewrite drop_all.
    + intros s1 Hn. apply declined_no_match in Hn.
      rewrite (probe_loop_none _ _ _ _ _ _ Hn) in Hrun.
      unfold out, new_of. rewrite Hrun. simpl. split; [done|].
      rewrite (no_match_emitted _ _ _ _ _ _ Hn). by rewrite drop_app_length.
Qed.

Lemma get_intent_probe_witness :
  new_of (E := silent) emitted (init None (Ret tt), tt)
    (handle_get_intent (E := silent)
       (mkMessage "intent.service.intent.get" {["utterance" := VStr "foo"]} ∅)
       (init None (Ret tt), tt)).2
  = [Message_reply (E := silent)
       (mkMessage "intent.service.intent.get" {["utterance" := VStr "foo"]} ∅)
       "intent.service.intent.reply" {["intent" := VNone]}].
Proof.
  destruct (get_intent_probe (E := silent)
              (mkMessage "intent.service.intent.get" {["utterance" := VStr "foo"]} ∅)
              (init None (Ret tt), tt) (VStr "foo")) as (_ & _ & _ & _ & _ & _ & _ & H).
  - vm_compute. reflexivity.
  - destruct (H eq_refl) as [_ Hmiss].
    refine (proj2 (Hmiss _ _)). unfold probe_funcs.
    do 4 (econstructor; [reflexivity|]). constructor.
Defined.

(** * Further properties of the service *)

(** ** What the converse path can do to the registry *)

Section Shrinking.
Context `{E : Env}.
Variable P : IntentService → Prop.
Hypothesis HP : shrink_stable P.

Lemma shrink_ticks n s : P s → P (set_ticks (ticks s + n) s).
Proof.
  intros H. induction n as [|n IH].
  - by rewrite Nat.add_0_r, set_ticks_same.
  - rewrite Nat.add_succ_r. apply (sh_tick P HP) in IH. exact IH.
Qed.

Lemma shrink_log_record r : preserves P (log_record r).
Proof. apply preserves_modify_self. intros s. apply (sh_log P HP). Qed.

Lemma shrink_wait m ty : preserves P (bus_wait_for_response m ty).
Proof.
  unfold bus_wait_for_response. frame.
  apply preserves_modify_self. intros s. apply (sh_requests P HP).
Qed.

Lemma shrink_remove skill : preserves P (remove_active_skill skill).
Proof.
  apply preserves_modify_self. intros s. apply (sh_sub P HP), remove_from_sublist.
Qed.

Lemma shrink_handle_converse_error m : preserves P (handle_converse_error m).
Proof.
  unfold handle_converse_error, dict_index.
  frame; auto using shrink_log_record, shrink_remove.
Qed.

Lemma shrink_do_converse u skill lang m : preserves P (do_converse u skill lang m).
Proof.
  unfold do_converse. frame; auto using shrink_wait, shrink_handle_converse_error.
Qed.

Lemma shrink_prune_registry : preserves P prune_registry.
Proof.
  intros s H. rewrite prune_registry_run. simpl.
  apply (sh_sub P HP); [apply kept_at_sublist | by apply shrink_ticks].
Qed.

Lemma shrink_converse_loop l u lang m : preserves P (converse_loop l u lang m).
Proof.
  induction l as [|x l IH]; simpl; frame; auto using shrink_do_converse.
Qed.

Lemma shrink__converse u lang m : preserves P (_converse u lang m).
Proof.
  unfold _converse.
  frame; auto using shrink_prune_registry, shrink_log_record, shrink_converse_loop.
Qed.

Lemma shrink_reset_loop l lang m : preserves P (reset_loop l lang m).
Proof.
  induction l as [|x l IH]; simpl; frame; auto using shrink_do_converse.
Qed.

Lemma shrink_reset_converse m : preserves P (reset_converse m).
Proof.
  unfold reset_converse, _get_message_lang, set_default_lf_lang.
  frame; auto using shrink_reset_loop.
Qed.

Lemma shrink_call_match_func f u lang m : preserves P (call_match_func f u lang m).
Proof.
  unfold call_match_func. apply preserves_bind.
  - apply preserves_modify_self. intros s. apply (sh_called P HP).
  - intros _. destruct f; auto using shrink__converse, preserves_lift_world.
Qed.

Lemma shrink_run_match_funcs fs u lang m : preserves P (run_match_funcs fs u lang m).
Proof.
  induction fs as [|f fs IH]; simpl; frame; auto using shrink_call_match_func.
Qed.
End Shrinking.

Section RegistryFootprint.
Context `{E : Env}.

Lemma sublist_shrink_stable b : shrink_stable (λ s, active_skills s `sublist_of` b).
Proof.
  split; simpl; try done. intros s l Hsub H. by etrans.
Qed.

Lemma ticks_le_shrink_stable n : shrink_stable (λ s, (n ≤ ticks s)%nat).
Proof. split; simpl; try done. intros s H. lia. Qed.

Lemma filter_list_remove (x : string * Z) skill (l : list (string * Z)) :
  x.1 = skill →
  filter (λ e, e.1 ≠ skill) (list_remove x l) = filter (λ e, e.1 ≠ skill) l.
Proof.
  intros Hx. induction l as [|y l IH]; simpl; [done|].
  destruct (decide (y = x)) as [->|Hne].
  - rewrite filter_cons. by rewrite decide_False by (intros H; by apply H).
  - rewrite !filter_cons. destruct (decide (y.1 ≠ skill)); by rewrite IH.
Qed.

Lemma filter_remove_loop fuel i skill (l : list (string * Z)) :
  filter (λ e, e.1 ≠ skill) (remove_loop fuel i skill l) = filter (λ e, e.1 ≠ skill) l.
Proof.
  revert i l. induction fuel as [|fuel IH]; intros i l; simpl; [done|].
  destruct (l !! i) as [x|]; [|done].
  destruct (decide (x.1 = skill)); [|by apply IH].
  rewrite IH. by apply filter_list_remove.
Qed.

Lemma list_remove_length (x : string * Z) (l : list (string * Z)) :
  x ∈ l → S (length (list_remove x l)) = length l.
Proof.
  induction l as [|y l IH]; simpl; [by intros ?%elem_of_nil|].
  destruct (decide (y = x)) as [->|Hne]; [done|].
  intros [?|Hin]%elem_of_cons; [congruence|]. simpl. by rewrite IH.
Qed.

Lemma remove_loop_shrinks fuel i j skill (l : list (string * Z)) x :
  (i ≤ j)%nat → l !! j = Some x → x.1 = skill → (length l ≤ i + fuel)%nat →
  (length (remove_loop fuel i skill l) < length l)%nat.
Proof.
  revert i l. induction fuel as [|fuel IH]; intros i l Hij Hj Hx Hlen.
  - apply lookup_lt_Some in Hj. lia.
  - simpl. destruct (l !! i) as [y|] eqn:Hi.
    + destruct (decide (y.1 = skill)) as [Hy|Hy].
      * pose proof (sublist_length _ _ (remove_loop_sublist fuel (S i) skill (list_remove y l))).
        pose proof (list_remove_length y l (list_elem_of_lookup_2 _ _ _ Hi)). lia.
      * apply IH; [|done|done|lia].
        destruct (decide (i = j)) as [->|]; [|lia]. congruence.
    + apply lookup_ge_None in Hi. apply lookup_lt_Some in Hj. lia.
Qed.
End RegistryFootprint.

(** X1. Deactivating a skill, on any registry (also one with repeated
    ids, where the loop can miss entries): the entries of the other
    skills are kept, all of them and in their order; the registry after
    is a sublist of the registry before; and when the skill had an entry,
    at least one entry is gone. *)
Theorem deactivation_spares_other_skills `{E : Env} (skill : string) (s : Sys) :
  let after := active_skills (step (Deactivate skill) s).1 in
  filter (λ e, e.1 ≠ skill) after = filter (λ e, e.1 ≠ skill) (active_skills s.1)
  ∧ after `sublist_of` active_skills s.1
  ∧ (skill ∈ (active_skills s.1).*1 → (length after < length (active_skills s.1))%nat).
Proof.
  intros after. subst after. rewrite deactivate_entries. split_and!.
  - apply filter_remove_loop.
  - apply remove_from_sublist.
  - intros (x & Hx & Hin)%list_elem_of_fmap_1.
    apply list_elem_of_lookup_1 in Hin as [j Hj].
    apply (remove_loop_shrinks _ 0 j skill _ x); [lia|done|done|lia].
Qed.

Lemma deactivation_spares_other_skills_witness :
  (length (active_skills (step (E := silent) (Deactivate "X") (repeated_registry, tt)).1)
   < length (active_skills repeated_registry))%nat.
Proof.
  destruct (deactivation_spares_other_skills (E := silent) "X" (repeated_registry, tt))
    as (_ & _ & H).
  apply H. apply list_elem_of_In. simpl. left. reflexivity.
Defined.

Section EventFootprints.
Context `{E : Env}.

Lemma quiet_handler_preserves P ev :
  (∀ s l, P s → P (set_called l s)) →
  (∀ s l, P s → P (set_emitted l s)) →
  (∀ s l, P s → P (set_adapt_calls l s)) →
  (∀ s l, P s → P (set_registered_vocab l s)) →
  touches_registry ev = false → preserves P (handler ev).
Proof.
  intros Hc He Ha Hv Hev. destruct ev; try done; simpl.
  - unfold handle_register_vocab, adapt. frame; apply preserves_modify_self; auto.
  - unfold handle_add_context, adapt. frame; apply preserves_modify_self; auto.
  - unfold handle_remove_context, adapt. frame; apply preserves_modify_self; auto.
  - unfold handle_clear_context, adapt. frame; apply preserves_modify_self; auto.
  - by apply handle_get_intent_preserves.
  - unfold handle_get_active_skills, emit. frame; apply preserves_modify_self; auto.
  - unfold handle_vocab_manifest, emit. frame; apply preserves_modify_self; auto.
Qed.
End EventFootprints.

(** X2. The registry and the count of clock readings change only through
    utterance resolution, the speech-recognition-failure pass and the two
    registry methods: every other event leaves both as they were. The
    speech-recognition-failure pass can only take entries out. *)
Theorem registry_footprint `{E : Env} (ev : Event) (s : Sys) :
  (touches_registry ev = false →
     active_skills (step ev s).1 = active_skills s.1 ∧ ticks (step ev s).1 = ticks s.1)
  ∧ (∀ m, ev = SpeechUnknown m → active_skills (step ev s).1 `sublist_of` active_skills s.1).
Proof.
  split.
  - intros Hev.
    by apply (quiet_handler_preserves
                (λ x, active_skills x = active_skills s.1 ∧ ticks x = ticks s.1) ev).
  - intros m ->. unfold step. simpl.
    by apply (shrink_reset_converse (λ x, active_skills x `sublist_of` active_skills s.1)
                (sublist_shrink_stable _)).
Qed.

Lemma registry_footprint_witness :
  active_skills
    (step (E := skills_gone)
       (AddContext (mkMessage "add_context" {["context" := VStr "Place"]} ∅))
       (run (E := skills_gone) [Activate "X"] (init None (Ret tt), tt))).1
  = [("X", 0)].
Proof.
  destruct (registry_footprint (E := skills_gone)
              (AddContext (mkMessage "add_context" {["context" := VStr "Place"]} ∅))
              (run (E := skills_gone) [Activate "X"] (init None (Ret tt), tt))) as [H _].
  destruct (H eq_refl) as [-> _]. reflexivity.
Defined.

(** ** Utterance resolution and the registry *)

Section ResolutionRegistry.
Context `{E : Env}.

Lemma run_match_funcs_shrinks fs u lang m (s : Sys) :
  active_skills (run_match_funcs fs u lang m s).2.1 `sublist_of` active_skills s.1
  ∧ (ticks s.1 ≤ ticks (run_match_funcs fs u lang m s).2.1)%nat.
Proof.
  split.
  - by apply (shrink_run_match_funcs (λ x, active_skills x `sublist_of` active_skills s.1)
                (sublist_shrink_stable _)).
  - by apply (shrink_run_match_funcs (λ x, (ticks s.1 ≤ ticks x)%nat)
                (ticks_le_shrink_stable _)).
Qed.

Lemma handle_utterance_try_emitted message (s : Sys) m :
  (handle_utterance_try message s).1 = Ret m →
  ∃ u, first_utterance message = Ret u
    ∧ emitted (handle_utterance_try message s).2.1
      = emitted s.1
        ++ match m with
           | Some mt => if truthy_str (intent_type mt) then [intent_message message mt u] else []
           | None => [failure_message message]
           end.
Proof.
  intros Hr.
  destruct (handle_utterance_try_inputs message s m Hr) as (lang & u & Hl & Hu & Hpad).
  exists u. split; [done|].
  pose proof (handle_utterance_try_run message lang u s Hl Hu Hpad) as Hrun.
  pose proof (run_match_funcs_emitted match_funcs u (VStr lang) message s) as Hem.
  destruct (run_match_funcs match_funcs u (VStr lang) message s) as [[[mt|]|e] s1];
    rewrite Hrun in Hr |- *; simpl in Hr; [| |done]; injection Hr as <-; simpl.
  - rewrite after_dispatch_emitted. simpl in Hem. by rewrite Hem.
  - simpl in Hem. by rewrite Hem.
Qed.

Lemma handle_utterance_store message (s : Sys) :
  (∃ m, (handle_utterance_try message s).1 = Ret m
        ∧ (handle_utterance message s).2 = (handle_utterance_try message s).2)
  ∨ (∃ e, (handle_utterance_try message s).1 = Raise e
          ∧ (handle_utterance message s).2
            = (set_log (log (handle_utterance_try message s).2.1 ++ [LogException e])
                 (handle_utterance_try message s).2.1,
               (handle_utterance_try message s).2.2)).
Proof.
  unfold handle_utterance.
  destruct (handle_utterance_try message s) as [[m|e] s']; [left|right]; by eexists.
Qed.
End ResolutionRegistry.

(** X3. Resolving an utterance activates at most the skill of the match.
    When the block ends with a match that names a skill, that skill is at
    the front of the registry afterwards, stamped with a clock reading
    taken during the resolution, and the rest of the registry is a
    sublist of the registry before. In every other case (no match, a
    match that names no skill, an exception) the registry afterwards is a
    sublist of the registry before. *)
Theorem resolution_activates_only_the_match `{E : Env} (message : Message) (s : Sys) :
  let after := active_skills (handle_utterance message s).2.1 in
  (∀ mt, (handle_utterance_try message s).1 = Ret (Some mt) →
     truthy_str (skill_id mt) = true →
     ∃ k rest, (ticks s.1 ≤ k)%nat
       ∧ after = (default "" (skill_id mt), clock k) :: rest
       ∧ rest `sublist_of` active_skills s.1)
  ∧ ((∀ mt, (handle_utterance_try message s).1 = Ret (Some mt) →
        truthy_str (skill_id mt) = false) →
     after `sublist_of` active_skills s.1).
Proof.
  intros after.
  assert (∀ e, (handle_utterance_try message s).1 = Raise e →
            active_skills (handle_utterance_try message s).2.1 `sublist_of` active_skills s.1)
    as Hraise.
  { intros e Hr.
    destruct (_get_message_lang message s).1 as [lang|e1] eqn:Hl.
    - destruct (first_utterance message) as [u|e2] eqn:Hu.
      + destruct (padatious_service s.1) eqn:Hpad.
        * rewrite (handle_utterance_try_run message lang u s Hl Hu Hpad) in *.
          destruct (run_match_funcs_shrinks match_funcs u (VStr lang) message s) as [Hs _].
          by destruct (run_match_funcs match_funcs u (VStr lang) message s) as [[[mt|]|e'] s1].
        * by rewrite (handle_utterance_try_missing message lang u s Hl Hu Hpad).
      + destruct (handle_utterance_try_early message s) as [e' He']; [right; left; by exists e2|].
        by rewrite He'.
    - destruct (handle_utterance_try_early message s) as [e' He']; [left; by exists e1|].
      by rewrite He'. }
  split.
  - intros mt Hr Hsk. subst after.
    destruct (handle_utterance_store message s) as [(m & _ & ->)|(e & Hr' & _)];
      [|congruence].
    destruct (handle_utterance_try_inputs message s _ Hr) as (lang & u & Hl & Hu & Hpad).
    rewrite (handle_utterance_try_run message lang u s Hl Hu Hpad) in Hr |- *.
    destruct (run_match_funcs_shrinks match_funcs u (VStr lang) message s) as [Hs Ht].
    destruct (run_match_funcs match_funcs u (VStr lang) message s) as [[[mt'|]|e'] s1];
      simpl in Hr; [|done..]. injection Hr as ->. simpl.
    exists (ticks s1.1), (remove_from (default "" (skill_id mt)) (active_skills s1.1)).
    split; [done|]. split.
    + unfold after_dispatch. rewrite Hsk. by destruct (truthy_str (intent_type mt)).
    + etrans; [apply remove_from_sublist | done].
  - intros Hno. subst after.
    destruct (handle_utterance_store message s) as [(m & Hr & ->)|(e & Hr & ->)].
    + destruct (handle_utterance_try_inputs message s _ Hr) as (lang & u & Hl & Hu & Hpad).
      rewrite (handle_utterance_try_run message lang u s Hl Hu Hpad) in Hr, Hno |- *.
      destruct (run_match_funcs_shrinks match_funcs u (VStr lang) message s) as [Hs Ht].
      destruct (run_match_funcs match_funcs u (VStr lang) message s) as [[[mt'|]|e'] s1];
        simpl in *; [| |done].
      * unfold after_dispatch. rewrite (Hno mt' eq_refl).
        by destruct (truthy_str (intent_type mt')).
      * done.
    + simpl. by apply (Hraise e).
Qed.

Lemma resolution_activates_only_the_match_witness :
  active_skills
    (handle_utterance (E := adapt_only) (utterance_event "what's the weather")
       (init None (Ret tt), tt)).2.1
  = [("weather-skill", 0)].
Proof.
  destruct (resolution_activates_only_the_match (E := adapt_only)
              (utterance_event "what's the weather") (init None (Ret tt), tt)) as [H _].
  destruct (H weather_match) as (k & rest & _ & Heq & _).
  - vm_compute. reflexivity.
  - reflexivity.
  - vm_compute. reflexivity.
Defined.

(** ** The pass on a speech-recognition failure *)

Section ResetPass.
Context `{E : Env}.

Lemma do_converse_raises u skill lang msg (s : Sys) e :
  (do_converse u skill lang msg s).1 = Raise e → e = KeyError "skill_id".
Proof.
  rewrite do_converse_run.
  destruct (wait_for_response _ _ _).1 as [rep|]; [|done].
  destruct (dict_has _ _); [|done].
  destruct (data rep !! "skill_id"); [done|]. simpl. congruence.
Qed.

Lemma reset_loop_spec l lang msg (s : Sys) :
  match reset_loop l lang msg s with
  | (Ret _, s') => all_notified lang msg l s s' ∧ asked l VNone lang msg s s'
  | (Raise e, s') =>
    ∃ pre skill post s1, l = pre ++ skill :: post
      ∧ all_notified lang msg pre s s1
      ∧ do_converse VNone skill.1 lang msg s1 = (Raise e, s')
      ∧ asked (pre ++ [skill]) VNone lang msg s s'
  end.
Proof.
  revert s. induction l as [|skill l IH]; intros s; simpl.
  - split; [constructor | apply asked_nil].
  - rewrite bind_run. destruct (do_converse VNone skill.1 lang msg s) as [[v|e] s1] eqn:Hd.
    + specialize (IH s1). destruct (reset_loop l lang msg s1) as [[[]|e] s2].
      * destruct IH as [Hn Ha]. split; [by econstructor|].
        apply asked_cons. by rewrite Hd.
      * destruct IH as (pre & sk & post & s3 & -> & Hpre & Hsk & Ha).
        exists (skill :: pre), sk, post, s3. split_and!; [done|by econstructor|done|].
        apply asked_cons. by rewrite Hd.
    + exists [], skill, l, s. split_and!; [done|constructor|done|].
      apply asked_cons. rewrite Hd. apply asked_nil.
Qed.

Lemma reset_converse_run message lang (s : Sys) :
  (_get_message_lang message s).1 = Ret lang →
  reset_converse message s = reset_loop (active_skills s.1) (VStr lang) message s.
Proof.
  intros Hlang. unfold reset_converse.
  assert (_get_message_lang message s = (Ret lang, s)) as Hl.
  { pose proof (get_message_lang_store message s) as Hst.
    destruct (_get_message_lang message s) as [r s0]. simpl in *. by subst r s0. }
  rewrite (bind_ret_run _ _ _ _ _ Hl).
  rewrite (bind_ret_run (set_default_lf_lang lang) _ s "en-us" s eq_refl).
  by rewrite (bind_ret_run get_self _ s s.1 s eq_refl).
Qed.
End ResetPass.

(** X4. On a speech-recognition failure with language [lang], every entry
    of the registry as it stands (expired or not) is sent one converse
    request, in registry order, with [None] for the utterances and
    [lang] for the language; nothing is published; and the only way the
    pass can end early is the [KeyError] raised for an error reply that
    names no skill, after which the later entries are not asked. *)
Theorem reset_converse_notifies_all `{E : Env} (message : Message) (lang : string) (s : Sys) :
  (_get_message_lang message s).1 = Ret lang →
  let r := reset_converse message s in
  emitted r.2.1 = emitted s.1
  ∧ (r.1 = Ret tt → asked (active_skills s.1) VNone (VStr lang) message s r.2)
  ∧ (∀ e, r.1 = Raise e →
       e = KeyError "skill_id"
       ∧ ∃ pre skill post, active_skills s.1 = pre ++ skill :: post
           ∧ asked (pre ++ [skill]) VNone (VStr lang) message s r.2).
Proof.
  intros Hl r. subst r. split_and!.
  - by apply (stable_reset_converse (λ x, emitted x = emitted s.1) (emitted_converse_stable _)).
  - rewrite (reset_converse_run message lang s Hl).
    pose proof (reset_loop_spec (active_skills s.1) (VStr lang) message s) as H.
    destruct (reset_loop _ _ _ _) as [[[]|e] s']; [|done]. by destruct H.
  - intros e. rewrite (reset_converse_run message lang s Hl).
    pose proof (reset_loop_spec (active_skills s.1) (VStr lang) message s) as H.
    destruct (reset_loop _ _ _ _) as [[[]|e'] s']; [done|]. simpl. intros [= ->].
    destruct H as (pre & skill & post & s1 & Hl' & _ & Hd & Ha). split.
    + apply (do_converse_raises VNone skill.1 (VStr lang) message s1). by rewrite Hd.
    + by exists pre, skill, post.
Qed.

Lemma reset_converse_notifies_all_witness :
  target <$> requests
    (reset_converse (E := hourly) (mkMessage "core.speech.recognition.unknown" ∅ ∅)
       (run (E := hourly) [Activate "X"; Activate "Y"] (init None (Ret tt), tt))).2.1
  = [VStr "Y"; VStr "X"].
Proof.
  destruct (reset_converse_notifies_all (E := hourly)
              (mkMessage "core.speech.recognition.unknown" ∅ ∅) "en-us"
              (run (E := hourly) [Activate "X"; Activate "Y"] (init None (Ret tt), tt)))
    as (_ & H & _).
  - reflexivity.
  - rewrite H by reflexivity. vm_compute. reflexivity.
Defined.

(** ** What the events publish *)

Section Publishing.
Context `{E : Env}.

Lemma handle_utterance_emitted message (s : Sys) :
  ∃ out, emitted (handle_utterance message s).2.1 = emitted s.1 ++ out
    ∧ (length out ≤ 1)%nat.
Proof.
  destruct (handle_utterance_store message s) as [(m & Hr & ->)|(e & Hr & ->)].
  - destruct (handle_utterance_try_emitted message s m Hr) as (u & _ & ->).
    eexists. split; [done|].
    destruct m as [mt|]; [|simpl; lia].
    destruct (truthy_str (intent_type mt)); simpl; lia.
  - exists []. simpl. rewrite (handle_utterance_try_raise_emitted message s e Hr).
    rewrite app_nil_r. split; [done|]. simpl. lia.
Qed.
End Publishing.

Section Requests.
Context `{E : Env}.

Lemma sent_requests_refl s s' : requests s' = requests s → sent_requests_only s s'.
Proof. intros H. exists []. by rewrite app_nil_r. Qed.

Lemma sent_requests_trans s1 s2 s3 :
  sent_requests_only s1 s2 → sent_requests_only s2 s3 → sent_requests_only s1 s3.
Proof.
  intros (r1 & H1 & F1) (r2 & H2 & F2). exists (r1 ++ r2).
  split; [by rewrite H2, H1, app_assoc | by apply Forall_app].
Qed.

Lemma asked_sent l u lang msg (s s' : Sys) :
  asked l u lang msg s s' → sent_requests_only s.1 s'.1.
Proof.
  intros Ha. eexists. split; [exact Ha|].
  apply Forall_fmap, Forall_forall. by intros x _.
Qed.

Lemma _converse_sent u lang msg (s : Sys) :
  sent_requests_only s.1 (_converse u lang msg s).2.1.
Proof. destruct (_converse_asked u lang msg s) as (l & _ & Ha). by eapply asked_sent. Qed.

Lemma call_match_func_sent f u lang msg (s : Sys) :
  sent_requests_only s.1 (call_match_func f u lang msg s).2.1.
Proof.
  rewrite call_match_func_consult. unfold consult. destruct f;
    try (by apply sent_requests_refl).
  apply (sent_requests_trans _ (noted Converse u lang s).1); [by apply sent_requests_refl|].
  apply _converse_sent.
Qed.

Lemma run_match_funcs_sent fs u lang msg (s : Sys) :
  sent_requests_only s.1 (run_match_funcs fs u lang msg s).2.1.
Proof.
  revert s. induction fs as [|f fs IH]; intros s; [by apply sent_requests_refl|].
  cbn [run_match_funcs]. rewrite bind_run.
  pose proof (call_match_func_sent f u lang msg s) as Hf.
  destruct (call_match_func f u lang msg s) as [[[mt|]|e] s1]; [done| |done].
  eapply sent_requests_trans; [exact Hf | apply IH].
Qed.

Lemma after_dispatch_requests message mt u s :
  requests (after_dispatch message mt u s) = requests s.
Proof.
  unfold after_dispatch.
  by destruct (truthy_str (skill_id mt)), (truthy_str (intent_type mt)).
Qed.

Lemma handle_utterance_sent message (s : Sys) :
  sent_requests_only s.1 (handle_utterance message s).2.1.
Proof.
  assert (sent_requests_only s.1 (handle_utterance_try message s).2.1) as Htry.
  { destruct (_get_message_lang message s).1 as [lang|e1] eqn:Hl.
    - destruct (first_utterance message) as [u|e2] eqn:Hu.
      + destruct (padatious_service s.1) eqn:Hpad.
        * rewrite (handle_utterance_try_run message lang u s Hl Hu Hpad).
          pose proof (run_match_funcs_sent match_funcs u (VStr lang) message s) as Hrun.
          destruct (run_match_funcs match_funcs u (VStr lang) message s) as [[[mt|]|e] s1];
            [| |done].
          -- eapply sent_requests_trans; [exact Hrun|].
             apply sent_requests_refl. simpl. apply after_dispatch_requests.
          -- eapply sent_requests_trans; [exact Hrun|]. by apply sent_requests_refl.
        * rewrite (handle_utterance_try_missing message lang u s Hl Hu Hpad).
          by apply sent_requests_refl.
      + destruct (handle_utterance_try_early message s) as [e' ->]; [right; left; by exists e2|].
        by apply sent_requests_refl.
    - destruct (handle_utterance_try_early message s) as [e' ->]; [left; by exists e1|].
      by apply sent_requests_refl. }
  destruct (handle_utterance_store message s) as [(m & _ & ->)|(e & _ & ->)]; [done|].
  eapply sent_requests_trans; [exact Htry|]. by apply sent_requests_refl.
Qed.

Lemma reset_converse_sent message (s : Sys) :
  sent_requests_only s.1 (reset_converse message s).2.1.
Proof.
  destruct (_get_message_lang message s).1 as [lang|e] eqn:Hl.
  - rewrite (reset_converse_run message lang s Hl).
    pose proof (reset_loop_spec (active_skills s.1) (VStr lang) message s) as H.
    destruct (reset_loop _ _ _ _) as [[[]|e] s'].
    + destruct H as [_ Ha]. by eapply asked_sent.
    + destruct H as (pre & skill & post & s1 & _ & _ & _ & Ha). by eapply asked_sent.
  - unfold reset_converse. rewrite bind_run.
    pose proof (get_message_lang_store message s) as Hst.
    destruct (_get_message_lang message s) as [[lang|e'] s0]; [done|].
    simpl in *. subst s0. by apply sent_requests_refl.
Qed.
End Requests.

(** X5. What an event puts on the bus. Whatever the event (an utterance,
    a speech-recognition failure, a vocabulary registration, a context
    message, one of the three queries, a call of a registry method), its
    handler hands at most one message to [bus.emit], and changes nothing
    of what was emitted before: the events that register vocabulary, change the
    context, signal a speech-recognition failure or call a registry
    method emit nothing; the queries for the active skills and for the
    vocabulary manifest emit exactly one reply. What a handler hands to
    [bus.wait_for_response] besides are converse requests only, and only
    utterance resolution and the speech-recognition-failure pass send
    any. *)
Theorem event_bus_footprint `{E : Env} (ev : Event) (s : Sys) :
  (∃ out, emitted (step ev s).1 = emitted s.1 ++ out
     ∧ (length out ≤ 1)%nat
     ∧ (may_publish ev = false → out = [])
     ∧ ((∃ m, ev = GetActiveSkills m ∨ ev = VocabManifest m) → length out = 1%nat))
  ∧ (∃ reqs, requests (step ev s).1 = requests s.1 ++ reqs
       ∧ Forall (λ r, msg_type r = "skill.converse.request") reqs
       ∧ (may_request ev = false → reqs = [])).
Proof.
  split.
  - assert (∀ m : M unit, preserves (λ x, emitted x = emitted s.1) m →
              ∃ out, emitted (m s).2.1 = emitted s.1 ++ out
                ∧ (length out ≤ 1)%nat ∧ out = []) as Hquiet.
    { intros m Hm. exists []. rewrite (Hm s eq_refl), app_nil_r. split; [done|].
      split; [simpl; lia|done]. }
    unfold step. destruct ev as [m|m|m|m|m| |m|m|m|skill|skill]; simpl.
    + destruct (handle_utterance_emitted m s) as (out & Hout & Hlen).
      exists out. split_and!; [done..| |]; [done|].
      intros (m' & [?|?]); done.
    + destruct (Hquiet (reset_converse m)) as (out & ? & ? & ->).
      { apply stable_reset_converse, emitted_converse_stable. }
      exists []. split_and!; try done. intros (m' & [?|?]); done.
    + destruct (Hquiet (handle_register_vocab m)) as (out & ? & ? & ->).
      { unfold handle_register_vocab, adapt. frame; by apply preserves_modify_self. }
      exists []. split_and!; try done. intros (m' & [?|?]); done.
    + destruct (Hquiet (handle_add_context m)) as (out & ? & ? & ->).
      { unfold handle_add_context, adapt. frame; by apply preserves_modify_self. }
      exists []. split_and!; try done. intros (m' & [?|?]); done.
    + destruct (Hquiet (handle_remove_context m)) as (out & ? & ? & ->).
      { unfold handle_remove_context, adapt. frame; by apply preserves_modify_self. }
      exists []. split_and!; try done. intros (m' & [?|?]); done.
    + destruct (Hquiet handle_clear_context) as (out & ? & ? & ->).
      { unfold handle_clear_context, adapt. frame; by apply preserves_modify_self. }
      exists []. split_and!; try done. intros (m' & [?|?]); done.
    + destruct (handle_get_intent_emitted m s) as (out & Hout & Hlen).
      exists out. split_and!; [done..| |]; [done|].
      intros (m' & [?|?]); done.
    + eexists. split_and!; [done|simpl; lia|done|done].
    + eexists. split_and!; [done|simpl; lia|done|done].
    + destruct (Hquiet (add_active_skill skill)) as (out & ? & ? & ->).
      { apply stable_add, emitted_converse_stable. }
      exists []. split_and!; try done. intros (m' & [?|?]); done.
    + destruct (Hquiet (remove_active_skill skill)) as (out & ? & ? & ->).
      { apply stable_remove, emitted_converse_stable. }
      exists []. split_and!; try done. intros (m' & [?|?]); done.
  - assert (requests (step ev s).1 = requests s.1 →
            ∃ reqs, requests (step ev s).1 = requests s.1 ++ reqs
              ∧ Forall (λ r, msg_type r = "skill.converse.request") reqs
              ∧ (may_request ev = false → reqs = [])) as Hsame.
    { intros H. exists []. by rewrite app_nil_r. }
    destruct (touches_registry ev) eqn:Hev.
    + destruct ev as [m|m|m|m|m| |m|m|m|skill|skill]; try done.
      * destruct (handle_utterance_sent m s) as (reqs & Hreqs & Hall). by exists reqs.
      * destruct (reset_converse_sent m s) as (reqs & Hreqs & Hall). by exists reqs.
      * apply Hsame. unfold step. simpl.
        destruct (decide (skill = "")) as [->|Hne];
          [by rewrite add_active_skill_empty | by rewrite add_active_skill_run].
      * apply Hsame. by rewrite deactivate_run.
    + apply Hsame.
      by apply (quiet_handler_preserves (λ x, requests x = requests s.1) ev).
Qed.

Lemma event_bus_footprint_witness :
  target <$> requests
    (step (E := skills_gone)
       (SpeechUnknown (mkMessage "core.speech.recognition.unknown" ∅ ∅))
       (run (E := skills_gone) [Activate "X"] (init None (Ret tt), tt))).1
  = [VStr "X"]
  ∧ emitted
      (step (E := skills_gone)
         (SpeechUnknown (mkMessage "core.speech.recognition.unknown" ∅ ∅))
         (run (E := skills_gone) [Activate "X"] (init None (Ret tt), tt))).1
    = [].
Proof.
  split; [reflexivity|].
  destruct (event_bus_footprint (E := skills_gone)
              (SpeechUnknown (mkMessage "core.speech.recognition.unknown" ∅ ∅))
              (run (E := skills_gone) [Activate "X"] (init None (Ret tt), tt)))
    as [(out & -> & _ & H & _) _].
  rewrite (H eq_refl). reflexivity.
Defined.

(** ** Freshness after converse *)

Section Freshness.
Context `{E : Env}.

Lemma reachable_converse_timeout (s : Sys) : reachable s → converse_timeout s.1 = 10.
Proof.
  intros (cfg & pad & w & evs & ->).
  by apply (stable_run (λ x, converse_timeout x = 10)), converse_timeout_stable.
Qed.

Lemma _converse_registry u lang msg (s : Sys) :
  active_skills (_converse u lang msg s).2.1
  `sublist_of` kept_at (converse_timeout s.1) (ticks s.1) (active_skills s.1).
Proof.
  rewrite _converse_run.
  destruct (intent_api_get_active_skills s.2).1 as [v|e]; [|done].
  by apply (shrink_converse_loop
              (λ x, active_skills x
                    `sublist_of` kept_at (converse_timeout s.1) (ticks s.1) (active_skills s.1))
              (sublist_shrink_stable _)).
Qed.
End Freshness.

(** X6. In a state the service can reach, with a clock that never runs
    backwards: after [_converse] every entry left in the registry was in
    it before and was activated at most 600 seconds (the 10 minutes that
    [__init__] sets and nothing changes) before the call began. *)
Theorem converse_leaves_fresh_entries `{E : Env} (u lang : Value) (msg : Message) (s : Sys) :
  monotone_clock → reachable s →
  converse_timeout s.1 = 10
  ∧ ∀ skill, skill ∈ active_skills (_converse u lang msg s).2.1 →
      skill ∈ active_skills s.1 ∧ clock (ticks s.1) - skill.2 ≤ 600.
Proof.
  intros Hmono Hr. pose proof (reachable_converse_timeout s Hr) as Ht.
  split; [done|]. intros skill Hin.
  eapply elem_of_sublist in Hin; [|apply _converse_registry].
  apply kept_at_fresh in Hin as [? ?]; [|done]. split; [done|]. lia.
Qed.

Lemma converse_leaves_fresh_entries_witness :
  converse_timeout (run (E := hourly) [Activate "X"; Activate "Y"] (init None (Ret tt), tt)).1 = 10.
Proof.
  destruct (converse_leaves_fresh_entries (E := hourly) (VStr "hi") (VStr "en-us")
              (utterance_event "hi")
              (run (E := hourly) [Activate "X"; Activate "Y"] (init None (Ret tt), tt)))
    as [H _].
  - intros i j Hij. simpl. lia.
  - exists None, (Ret tt), tt, [Activate "X"; Activate "Y"]. reflexivity.
  - exact H.
Defined.

(** ** The chat context *)

Section ChatContext.
Context `{C : ChatHistory}.

Lemma context_loop_dicts (entries : list (gmap string Value)) (acc : list ChatMessage) :
  Forall (λ d, is_Some (d !! "role") ∧ ∃ text, d !! "content" = Some (VStr text)) entries →
  context_loop (VDict <$> entries) acc = Ret (acc ++ omap chat_message_of entries).
Proof.
  revert acc. induction entries as [|d entries IH]; intros acc Hall.
  - simpl. by rewrite app_nil_r.
  - apply Forall_cons in Hall as [[[role Hrole] [text Hcontent]] Hall].
    rewrite fmap_cons. cbn [context_loop py_subscript]. rewrite Hrole, Hcontent.
    assert (chat_message_of d
            = if truthy (VStr text)
              then Some (if eq_str role "user"
                         then HumanMessage (VStr text) else AIMessage (VStr text))
              else None) as Hd.
    { unfold chat_message_of, dict_get. by rewrite Hrole, Hcontent. }
    change (omap chat_message_of (d :: entries))
      with (match chat_message_of d with
            | Some c => c :: omap chat_message_of entries
            | None => omap chat_message_of entries
            end).
    rewrite Hd. cbn [built_content].
    destruct (truthy (VStr text)); rewrite IH by done; [by rewrite <-app_assoc | done].
Qed.

Lemma context_loop_bad (entries : list Value) (acc : list ChatMessage) bad :
  bad ∈ entries →
  (∃ e, py_subscript bad "role" = Raise e) ∨ (∃ e, py_subscript bad "content" = Raise e) →
  ∃ e, context_loop entries acc = Raise e.
Proof.
  intros Hin Hbad. revert acc. induction entries as [|x entries IH]; intros acc.
  - by apply elem_of_nil in Hin.
  - simpl. apply elem_of_cons in Hin as [<-|Hin].
    + destruct Hbad as [[e He]|[e He]].
      * rewrite He. by exists e.
      * destruct (py_subscript bad "role"); [|by eexists]. rewrite He. by exists e.
    + destruct (py_subscript x "role"); [|by eexists].
      destruct (py_subscript x "content") as [content|]; [|by eexists].
      destruct (truthy content); [|by apply IH].
      destruct (built_content content); [by apply IH | by eexists].
Qed.

Lemma chat_message_of_content d c :
  chat_message_of d = Some c → chat_content c = dict_get d "content" ∧ truthy (chat_content c) = true.
Proof.
  unfold chat_message_of. destruct (truthy (dict_get d "content")) eqn:Ht; [|done].
  intros [= <-]. by destruct (eq_str _ _).
Qed.
End ChatContext.

(** X7. For a context that is a list of dicts which all have a role and a
    content that is a string, [handle_context] replaces the memory of the
    language model, whatever it held, by one message per entry with a
    content that is not empty, in the order of the entries: a user message
    when the role is "user", an AI message for any other role. Entries
    with an empty content leave no message. *)
Theorem handle_context_replaces_memory `{C : ChatHistory} (message : Message)
    (entries : list (gmap string Value)) (old : list ChatMessage) :
  data message !! "utterance_context" = Some (VList (VDict <$> entries)) →
  Forall (λ d, is_Some (d !! "role") ∧ ∃ text, d !! "content" = Some (VStr text)) entries →
  handle_context message old = (Ret tt, omap chat_message_of entries)
  ∧ Forall (λ c, truthy (chat_content c) = true) (handle_context message old).2
  ∧ (length (handle_context message old).2 ≤ length entries)%nat.
Proof.
  intros Hctx Hall.
  assert (handle_context message old = (Ret tt, omap chat_message_of entries)) as Hrun.
  { unfold handle_context, dict_get_default. rewrite Hctx. simpl.
    by rewrite context_loop_dicts. }
  rewrite Hrun. split; [done|]. simpl. split.
  - apply Forall_forall. intros c Hc.
    apply list_elem_of_omap in Hc as (d & _ & Hd).
    by apply chat_message_of_content in Hd as [_ ?].
  - clear. induction entries as [|d entries IH]; [simpl; lia|].
    change (omap chat_message_of (d :: entries))
      with (match chat_message_of d with
            | Some c => c :: omap chat_message_of entries
            | None => omap chat_message_of entries
            end).
    destruct (chat_message_of d); simpl; lia.
Qed.

Lemma handle_context_replaces_memory_witness :
  handle_context (C := strings_only)
    (mkMessage "recognizer_loop:context"
       {["utterance_context" :=
           VList (VDict <$> [ {["role" := VStr "user"; "content" := VStr "hello"]};
                              {["role" := VStr "assistant"; "content" := VStr ""]};
                              {["role" := VStr "assistant"; "content" := VStr "hi"]} ])]} ∅)
    [AIMessage (VStr "earlier")]
  = (Ret tt, [HumanMessage (VStr "hello"); AIMessage (VStr "hi")]).
Proof.
  destruct (handle_context_replaces_memory (C := strings_only)
              (mkMessage "recognizer_loop:context"
                 {["utterance_context" :=
                     VList (VDict <$> [ {["role" := VStr "user"; "content" := VStr "hello"]};
                                        {["role" := VStr "assistant"; "content" := VStr ""]};
                                        {["role" := VStr "assistant"; "content" := VStr "hi"]} ])]} ∅)
              [ {["role" := VStr "user"; "content" := VStr "hello"]};
                {["role" := VStr "assistant"; "content" := VStr ""]};
                {["role" := VStr "assistant"; "content" := VStr "hi"]} ]
              [AIMessage (VStr "earlier")]) as (H & _).
  - reflexivity.
  - repeat constructor; vm_compute; eexists; reflexivity.
  - rewrite H. vm_compute. reflexivity.
Defined.

(** X8. [handle_context] is all or nothing. Whenever it raises, the
    memory of the language model is what it was. One entry of the list
    that is not a dict, or lacks [role] or [content], makes it raise,
    also when the entries before it were in order. A message without
    [utterance_context] empties the memory. *)
Theorem handle_context_all_or_nothing `{C : ChatHistory} (message : Message)
    (old : list ChatMessage) :
  (∀ e, (handle_context message old).1 = Raise e → (handle_context message old).2 = old)
  ∧ (∀ entries bad,
       data message !! "utterance_context" = Some (VList entries) →
       bad ∈ entries →
       (∃ e, py_subscript bad "role" = Raise e) ∨ (∃ e, py_subscript bad "content" = Raise e) →
       ∃ e, handle_context message old = (Raise e, old))
  ∧ (data message !! "utterance_context" = None → handle_context message old = (Ret tt, [])).
Proof.
  split_and!.
  - intros e. unfold handle_context. destruct (py_iter _) as [entries|e']; [|done].
    by destruct (context_loop entries []).
  - intros entries bad Hctx Hin Hbad.
    unfold handle_context, dict_get_default. rewrite Hctx. simpl.
    destruct (context_loop_bad entries [] bad Hin Hbad) as [e ->]. by exists e.
  - intros Hctx. unfold handle_context, dict_get_default. rewrite Hctx. simpl.
    by rewrite map_to_list_empty.
Qed.

Lemma handle_context_all_or_nothing_witness :
  (handle_context (C := strings_only)
     (mkMessage "recognizer_loop:context"
        {["utterance_context" :=
            VList [VDict {["role" := VStr "user"; "content" := VStr "hello"]};
                   VDict {["role" := VStr "user"]}]]} ∅)
     [AIMessage (VStr "earlier")]).2
  = [AIMessage (VStr "earlier")].
Proof.
  destruct (handle_context_all_or_nothing (C := strings_only)
              (mkMessage "recognizer_loop:context"
                 {["utterance_context" :=
                     VList [VDict {["role" := VStr "user"; "content" := VStr "hello"]};
                            VDict {["role" := VStr "user"]}]]} ∅)
              [AIMessage (VStr "earlier")]) as (H & _).
  apply (H (KeyError "content")). vm_compute. reflexivity.
Defined.

(** X9. The directory of skill names. Once a "skills loaded" message with
    an id and a name is taken, the name is what [get_skill_name] returns
    for that id, and what it returns for an id that stands for another
    key is as before. For an id the directory does not hold,
    [get_skill_name] returns the id itself. A message without a name or
    an id raises [KeyError] and leaves the directory as it was. *)
Theorem skill_name_directory (message : Message) (names : gmap Key Value) :
  (∀ id name k,
     data message !! "id" = Some id → data message !! "name" = Some name →
     hash_key id = Ret k →
     (update_skill_name_dict message names).1 = Ret tt
     ∧ get_skill_name id (update_skill_name_dict message names).2 = Ret name
     ∧ ∀ other k', hash_key other = Ret k' → k' ≠ k →
         get_skill_name other (update_skill_name_dict message names).2
         = get_skill_name other names)
  ∧ (∀ id k, hash_key id = Ret k → names !! k = None → get_skill_name id names = Ret id)
  ∧ (data message !! "name" = None ∨ data message !! "id" = None →
     (∃ key, (update_skill_name_dict message names).1 = Raise (KeyError key))
     ∧ (update_skill_name_dict message names).2 = names).
Proof.
  split_and!.
  - intros id name k Hid Hname Hk. unfold update_skill_name_dict.
    rewrite Hname, Hid, Hk. simpl. split; [done|]. split.
    + unfold get_skill_name. rewrite Hk. by rewrite lookup_insert_eq.
    + intros other k' Hk' Hne. unfold get_skill_name. rewrite Hk'.
      by rewrite lookup_insert_ne.
  - intros id k Hk Hnone. unfold get_skill_name. by rewrite Hk, Hnone.
  - unfold update_skill_name_dict. intros [Hn|Hi].
    + rewrite Hn. split; [by eexists|done].
    + destruct (data message !! "name"); rewrite ?Hi; (split; [by eexists|done]).
Qed.

Lemma skill_name_directory_witness :
  get_skill_name (VStr "timer-skill")
    (update_skill_name_dict
       (mkMessage "core.skills.loaded" {["id" := VStr "timer-skill"; "name" := VStr "Timer"]} ∅)
       ∅).2
  = Ret (VStr "Timer").
Proof.
  destruct (skill_name_directory
              (mkMessage "core.skills.loaded"
                 {["id" := VStr "timer-skill"; "name" := VStr "Timer"]} ∅) ∅) as (H & _).
  destruct (H (VStr "timer-skill") (VStr "Timer") (KStr "timer-skill")) as (_ & Hget & _);
    [reflexivity..|exact Hget].
Defined.

(** ** The skill manager answers a converse request *)

Section ConverseRequest.
Context `{E : Env} `{S : !Skills}.

Lemma eq_str_true v s : eq_str v s = true → v = VStr s.
Proof.
  destruct v; simpl; try done. intros H. apply bool_decide_eq_true in H. by subst.
Qed.

Lemma converse_error_reply_data message skill text :
  data (converse_error_reply message skill text) !! "skill_id" = Some skill
  ∧ data (converse_error_reply message skill text) !! "error" = Some (VStr text)
  ∧ data (converse_error_reply message skill text) !! "result" = None
  ∧ msg_type (converse_error_reply message skill text) = "skill.converse.response".
Proof. split_and!; done. Qed.

Lemma converse_response_reply_data result message loader :
  data (converse_response_reply result message loader) !! "skill_id"
  = Some (VStr (sl_skill_id loader))
  ∧ data (converse_response_reply result message loader) !! "error" = None
  ∧ data (converse_response_reply result message loader) !! "result" = Some result
  ∧ msg_type (converse_response_reply result message loader) = "skill.converse.response".
Proof. split_and!; done. Qed.

(** The loop is decided by the first loader that has the skill id. *)
Lemma converse_request_loop_first pre loader post skill message (w : World) :
  Forall (λ l, eq_str skill (sl_skill_id l) = false) pre →
  eq_str skill (sl_skill_id loader) = true →
  converse_request_loop (pre ++ loader :: post) skill message w
  = if sl_loaded loader
    then match call_converse loader message w with
         | (Done (Ret result), w') => ([converse_response_reply result message loader], w')
         | (Done (Raise _), w') =>
           ([converse_error_reply message skill "exception in converse method"], w')
         | (BaseRaised _, w') => ([], w')
         end
    else ([converse_error_reply message skill "converse requested but skill not loaded"], w).
Proof.
  intros Hpre Hl. induction Hpre as [|x pre Hx Hpre IH]; simpl.
  - rewrite Hl. by destruct (sl_loaded loader).
  - by rewrite Hx.
Qed.

Lemma converse_request_loop_unknown loaders skill message (w : World) :
  Forall (λ l, eq_str skill (sl_skill_id l) = false) loaders →
  converse_request_loop loaders skill message w
  = ([converse_error_reply message skill "skill id does not exist"], w).
Proof.
  induction 1 as [|x pre Hx Hpre IH]; simpl; [done|]. by rewrite Hx.
Qed.

Lemma loaders_split skill (loaders : list SkillLoader) :
  Forall (λ l, eq_str skill (sl_skill_id l) = false) loaders
  ∨ ∃ pre loader post, loaders = pre ++ loader :: post
      ∧ Forall (λ l, eq_str skill (sl_skill_id l) = false) pre
      ∧ eq_str skill (sl_skill_id loader) = true.
Proof.
  induction loaders as [|x loaders IH]; [by left|].
  destruct (eq_str skill (sl_skill_id x)) eqn:Hx.
  - right. by exists [], x, loaders.
  - destruct IH as [IH|(pre & loader & post & -> & Hpre & Hl)].
    + left. by constructor.
    + right. exists (x :: pre), loader, post. split_and!; [done| |done]. by constructor.
Qed.

(** A message the loop can emit. *)
Lemma converse_reply_shape skill message (w : World) r :
  (∃ text, r = converse_error_reply message skill text)
  ∨ (∃ result loader, eq_str skill (sl_skill_id loader) = true
       ∧ r = converse_response_reply result message loader) →
  msg_type r = "skill.converse.response"
  ∧ data r !! "skill_id" = Some skill
  ∧ (is_Some (data r !! "error") ↔ data r !! "result" = None).
Proof.
  intros [[text ->]|(result & loader & Hl & ->)].
  - split_and!; try done; try (split; [done|by eexists]).
  - split_and!; try done.
    + simpl. rewrite lookup_insert_eq. by rewrite (eq_str_true _ _ Hl).
    + split; [intros [? ?]; done|done].
Qed.

(** The loop emits one reply, or none when the code of the first loaded
    skill with the id raised what is not an [Exception]. *)
Lemma converse_request_loop_reply loaders skill message (w : World) :
  (∃ r, (converse_request_loop loaders skill message w).1 = [r]
     ∧ msg_type r = "skill.converse.response"
     ∧ data r !! "skill_id" = Some skill
     ∧ (is_Some (data r !! "error") ↔ data r !! "result" = None))
  ∨ ((converse_request_loop loaders skill message w).1 = []
     ∧ ∃ pre loader post name, loaders = pre ++ loader :: post
         ∧ Forall (λ l, eq_str skill (sl_skill_id l) = false) pre
         ∧ eq_str skill (sl_skill_id loader) = true
         ∧ sl_loaded loader = true
         ∧ (call_converse loader message w).1 = BaseRaised name).
Proof.
  destruct (loaders_split skill loaders) as [Hall|(pre & loader & post & -> & Hpre & Hl)].
  - left. rewrite converse_request_loop_unknown by done. eexists. split; [done|].
    apply (converse_reply_shape skill message w). left. by eexists.
  - rewrite converse_request_loop_first by done.
    destruct (sl_loaded loader) eqn:Hloaded.
    + destruct (call_converse loader message w) as [[[result|e]|name] w'] eqn:Hcall.
      * left. eexists. split; [done|].
        apply (converse_reply_shape skill message w). right. by exists result, loader.
      * left. eexists. split; [done|].
        apply (converse_reply_shape skill message w). left. by eexists.
      * right. split; [done|]. exists pre, loader, post, name. by rewrite Hcall.
    + left. eexists. split; [done|].
      apply (converse_reply_shape skill message w). left. by eexists.
Qed.
End ConverseRequest.

(** X10. The skill manager answers a converse request that names a skill
    with at most one message, on [skill.converse.response]; the reply
    names the same skill and carries either an [error] or a [result],
    never both and never neither. It sends no reply in one case only:
    the code of the first loader with the skill id, a loaded one, raised
    something that is not an [Exception], which the [break] of the
    [finally] clause discards; the handler then returns as if nothing had
    happened. A request without [skill_id] raises [KeyError] and is not
    answered. *)
Theorem converse_request_one_reply `{E : Env} `{S : !Skills}
    (loaders : list SkillLoader) (message : Message) (w : World) :
  (data message !! "skill_id" = None →
   handle_converse_request loaders message w = (Raise (KeyError "skill_id"), [], w))
  ∧ (∀ skill, data message !! "skill_id" = Some skill →
       ∃ out w', handle_converse_request loaders message w = (Ret tt, out, w')
         ∧ (length out ≤ 1)%nat
         ∧ (∀ r, r ∈ out →
              msg_type r = "skill.converse.response"
              ∧ data r !! "skill_id" = Some skill
              ∧ (is_Some (data r !! "error") ↔ data r !! "result" = None))
         ∧ (out = [] ↔
            ∃ pre loader post name, loaders = pre ++ loader :: post
              ∧ Forall (λ l, eq_str skill (sl_skill_id l) = false) pre
              ∧ eq_str skill (sl_skill_id loader) = true
              ∧ sl_loaded loader = true
              ∧ (call_converse loader message w).1 = BaseRaised name)).
Proof.
  split.
  - intros H. unfold handle_converse_request. by rewrite H.
  - intros skill H. unfold handle_converse_request. rewrite H.
    pose proof (converse_request_loop_reply loaders skill message w) as Hreply.
    pose proof (converse_request_loop_first) as Hfirst.
    destruct (converse_request_loop loaders skill message w) as [out w'] eqn:Hloop.
    simpl in Hreply. exists out, w'. split; [done|].
    destruct Hreply as [(r & -> & Hr)|(-> & Hbase)].
    + split_and!; [simpl; lia| |].
      * intros r' ->%list_elem_of_singleton. exact Hr.
      * split; [done|].
        intros (pre & loader & post & name & -> & Hpre & Hl & Hloaded & Hcall).
        rewrite (Hfirst pre loader post skill message w Hpre Hl), Hloaded in Hloop.
        destruct (call_converse loader message w) as [[[result|e]|name'] w0]; simpl in Hcall;
          congruence.
    + split_and!; [simpl; lia| |done].
      intros r' Hr'. by apply elem_of_nil in Hr'.
Qed.

(** X11. Which reply: the first loader with the requested skill id
    decides. If there is none, the reply is the error "skill id does not
    exist" and no skill code runs. If it is not loaded, the reply is the
    error "converse requested but skill not loaded" and no skill code
    runs. If it is loaded, its [converse] is called once: the reply
    carries what it returned, or the error "exception in converse
    method" when an [Exception] was raised on the way; when what was
    raised is not an [Exception], there is no reply and the handler
    returns. Later loaders with the same id are never asked. *)
Theorem converse_request_first_loader_decides `{E : Env} `{S : !Skills}
    (loaders : list SkillLoader) (message : Message) (skill : Value) (w : World) :
  data message !! "skill_id" = Some skill →
  (Forall (λ l, eq_str skill (sl_skill_id l) = false) loaders →
   handle_converse_request loaders message w
   = (Ret tt, [converse_error_reply message skill "skill id does not exist"], w))
  ∧ (∀ pre loader post,
       loaders = pre ++ loader :: post →
       Forall (λ l, eq_str skill (sl_skill_id l) = false) pre →
       eq_str skill (sl_skill_id loader) = true →
       handle_converse_request loaders message w
       = if sl_loaded loader
         then match call_converse loader message w with
              | (Done (Ret result), w') =>
                (Ret tt, [converse_response_reply result message loader], w')
              | (Done (Raise _), w') =>
                (Ret tt, [converse_error_reply message skill "exception in converse method"],
                 w')
              | (BaseRaised _, w') => (Ret tt, [], w')
              end
         else (Ret tt,
               [converse_error_reply message skill "converse requested but skill not loaded"],
               w)).
Proof.
  intros H. split.
  - intros Hall. unfold handle_converse_request. rewrite H.
    by rewrite converse_request_loop_unknown.
  - intros pre loader post -> Hpre Hl. unfold handle_converse_request. rewrite H.
    rewrite converse_request_loop_first by done.
    destruct (sl_loaded loader); [|done].
    by destruct (call_converse loader message w) as [[[result|e]|name] w'].
Qed.

Lemma converse_request_one_reply_witness :
  handle_converse_request (E := silent)
    (S := answering silent (λ _, BaseRaised "SystemExit"))
    two_loaders
    (converse_request (E := silent) (VStr "stop") "timer-skill" (VStr "en-us")
       (utterance_event "stop"))
    tt
  = (Ret tt, [], tt).
Proof.
  destruct (converse_request_one_reply (E := silent)
              (S := answering silent (λ _, BaseRaised "SystemExit")) two_loaders
              (converse_request (E := silent) (VStr "stop") "timer-skill" (VStr "en-us")
                 (utterance_event "stop")) tt) as [_ H].
  destruct (H (VStr "timer-skill") eq_refl) as (out & w' & -> & _ & _ & Hiff).
  assert (out = []) as ->.
  { apply Hiff.
    exists [], (mkSkillLoader "timer-skill" true), [mkSkillLoader "news-skill" false],
      "SystemExit".
    split_and!; [reflexivity|constructor|reflexivity|reflexivity|reflexivity]. }
  by destruct w'.
Defined.

Lemma converse_request_first_loader_decides_witness :
  handle_converse_request (E := silent) (S := answering silent (λ _, Done (Ret (VBool true))))
    two_loaders
    (converse_request (E := silent) (VStr "stop") "news-skill" (VStr "en-us")
       (utterance_event "stop"))
    tt
  = (Ret tt,
     [converse_error_reply (E := silent)
        (converse_request (E := silent) (VStr "stop") "news-skill" (VStr "en-us")
           (utterance_event "stop"))
        (VStr "news-skill") "converse requested but skill not loaded"],
     tt).
Proof.
  destruct (converse_request_first_loader_decides (E := silent)
              (S := answering silent (λ _, Done (Ret (VBool true)))) two_loaders
              (converse_request (E := silent) (VStr "stop") "news-skill" (VStr "en-us")
                 (utterance_event "stop"))
              (VStr "news-skill") tt eq_refl) as [_ H].
  rewrite (H [mkSkillLoader "timer-skill" true] (mkSkillLoader "news-skill" false) []).
  - reflexivity.
  - reflexivity.
  - repeat constructor.
  - reflexivity.
Defined.

(** ** The intent service and the skill manager together *)

Section RoundTrip.
Context `{E : Env} `{S : !Skills}.

Lemma converse_request_names_skill u skill lang msg :
  data (converse_request u skill lang msg) !! "skill_id" = Some (VStr skill).
Proof. unfold converse_request. simpl. by rewrite lookup_insert_eq. Qed.

Lemma eq_str_same s : eq_str (VStr s) s = true.
Proof. simpl. by apply bool_decide_eq_true. Qed.

Lemma eq_str_spec s t : eq_str (VStr s) t = true ↔ s = t.
Proof. simpl. by rewrite bool_decide_eq_true. Qed.

Lemma loaders_unknown skill (loaders : list SkillLoader) :
  Forall (λ l, eq_str (VStr skill) (sl_skill_id l) = false) loaders
  ↔ Forall (λ l, sl_skill_id l ≠ skill) loaders.
Proof.
  apply Forall_proper; [|done]. intros l. split.
  - intros H Heq. rewrite <-Heq in H. simpl in H.
    by rewrite bool_decide_eq_false in H.
  - intros H. simpl. apply bool_decide_eq_false. congruence.
Qed.
Lemma do_converse_on_error u skill lang msg (s : Sys) rep sid err :
  (wait_for_response (converse_request u skill lang msg) "skill.converse.response" s.2).1
  = Some rep →
  data rep !! "skill_id" = Some sid →
  data rep !! "error" = Some err →
  do_converse u skill lang msg s
  = (Ret (VBool false),
     (after_error sid err (after_request (converse_request u skill lang msg) s).1,
      (after_request (converse_request u skill lang msg) s).2)).
Proof.
  intros Hrep Hsid Herr. rewrite do_converse_run. simpl. rewrite Hrep.
  assert (dict_has (data rep) "error" = true) as ->.
  { apply dict_has_true. by eexists. }
  rewrite Hsid. unfold dict_get. by rewrite Herr.
Qed.

Lemma do_converse_on_timeout u skill lang msg (s : Sys) :
  (wait_for_response (converse_request u skill lang msg) "skill.converse.response" s.2).1
  = None →
  do_converse u skill lang msg s
  = (Ret (VBool false), after_request (converse_request u skill lang msg) s).
Proof. intros Hrep. rewrite do_converse_run. simpl. by rewrite Hrep. Qed.

Lemma do_converse_on_result u skill lang msg (s : Sys) rep :
  (wait_for_response (converse_request u skill lang msg) "skill.converse.response" s.2).1
  = Some rep →
  data rep !! "error" = None →
  do_converse u skill lang msg s
  = (Ret (dict_get_default (data rep) "result" (VBool false)),
     after_request (converse_request u skill lang msg) s).
Proof.
  intros Hrep Herr. rewrite do_converse_run. simpl. rewrite Hrep.
  assert (dict_has (data rep) "error" = false) as ->; [|done].
  unfold dict_has. rewrite Herr. apply bool_decide_eq_false. by intros [? ?].
Qed.
End RoundTrip.

(** X12. When the reply the bus hands to [do_converse] is the message
    the skill manager emits for the request, the round trip never
    raises; the asked skill is evicted from the registry exactly when the
    manager has no loader for it; and the answer is truthy only if a
    loaded skill with that id exists. *)
Theorem converse_with_skill_manager `{E : Env} `{S : !Skills}
    (loaders : list SkillLoader) (w : World)
    (u lang : Value) (skill : string) (msg : Message) (s : Sys) :
  let req := converse_request u skill lang msg in
  (wait_for_response req "skill.converse.response" s.2).1
  = head (handle_converse_request loaders req w).1.2 →
  let r := do_converse u skill lang msg s in
  (∃ v, r.1 = Ret v
     ∧ (truthy v = true →
        ∃ loader, loader ∈ loaders ∧ sl_skill_id loader = skill ∧ sl_loaded loader = true))
  ∧ (Forall (λ l, sl_skill_id l ≠ skill) loaders →
     active_skills r.2.1 = remove_from skill (active_skills s.1))
  ∧ (¬ Forall (λ l, sl_skill_id l ≠ skill) loaders →
     active_skills r.2.1 = active_skills s.1).
Proof.
  intros req Hbus r. subst r.
  unfold handle_converse_request in Hbus.
  unfold req in Hbus at 2. rewrite converse_request_names_skill in Hbus. fold req in Hbus.
  destruct (loaders_split (VStr skill) loaders) as [Hall|(pre & loader & post & Hl & Hpre & Hm)].
  - rewrite converse_request_loop_unknown in Hbus by done. simpl in Hbus.
    rewrite (do_converse_on_error u skill lang msg s _ (VStr skill)
               (VStr "skill id does not exist") Hbus) by done.
    split_and!.
    + eexists. split; [done|]. done.
    + intros _. done.
    + intros Hno. exfalso. apply Hno. by apply loaders_unknown.
  - assert (¬ Forall (λ l, sl_skill_id l ≠ skill) loaders) as Hknown.
    { intros Hno. apply loaders_unknown in Hno. rewrite Hl in Hno.
      apply Forall_app in Hno as [_ Hno]. apply Forall_cons in Hno as [Hno _].
      congruence. }
    rewrite Hl, converse_request_loop_first in Hbus by done.
    destruct (sl_loaded loader) eqn:Hloaded.
    + destruct (call_converse loader req w) as [[[result|e]|name] w'] eqn:Hcall;
        simpl in Hbus.
      * rewrite (do_converse_on_result u skill lang msg s _ Hbus) by done.
        split_and!; [|done|done].
        eexists. split; [done|]. intros _. exists loader.
        split_and!; [|symmetry; by apply eq_str_spec|done].
        rewrite Hl. apply elem_of_app. right. by left.
      * rewrite (do_converse_on_error u skill lang msg s _ (VStr skill)
                   (VStr "exception in converse method") Hbus) by done.
        split_and!; [|done|done]. eexists. split; [done|]. done.
      * rewrite (do_converse_on_timeout u skill lang msg s Hbus).
        split_and!; [|done|done]. eexists. split; [done|]. done.
    + simpl in Hbus.
      rewrite (do_converse_on_error u skill lang msg s _ (VStr skill)
                 (VStr "converse requested but skill not loaded") Hbus) by done.
      split_and!; [|done|done]. eexists. split; [done|]. done.
Qed.

Lemma converse_with_skill_manager_witness :
  active_skills
    (do_converse (E := managed two_loaders (λ _, Done (Ret (VBool true))))
       (VStr "stop") "gone-skill" (VStr "en-us") (utterance_event "stop")
       (run (E := managed two_loaders (λ _, Done (Ret (VBool true)))) [Activate "gone-skill"]
          (init None (Ret tt), tt))).2.1
  = [].
Proof.
  destruct (converse_with_skill_manager (E := managed two_loaders (λ _, Done (Ret (VBool true))))
              (S := answering (managed two_loaders (λ _, Done (Ret (VBool true))))
                      (λ _, Done (Ret (VBool true))))
              two_loaders tt (VStr "stop") (VStr "en-us") "gone-skill" (utterance_event "stop")
              (run (E := managed two_loaders (λ _, Done (Ret (VBool true)))) [Activate "gone-skill"]
                 (init None (Ret tt), tt))) as (_ & H & _).
  - reflexivity.
  - rewrite H; [reflexivity|]. repeat constructor; discriminate.
Defined.


(** ** The upload queue of the skill manager *)

Section UploadQueuePut.
Context {Loader : Type} `{EqDecision Loader}.

Lemma uq_puts_started (loaders : list Loader) q :
  uq_started (uq_puts loaders q) = uq_started q.
Proof.
  revert q. induction loaders as [|l ls IH]; intros q; [done|].
  unfold uq_puts in *. simpl. by rewrite IH.
Qed.

Lemma uq_puts_queue (loaders : list Loader) q :
  uq_queue (uq_puts loaders q)
  = filter (λ e, e ∉ loaders) (uq_queue q) ++ remove_dups loaders.
Proof.
  revert q. induction loaders as [|l ls IH]; intros q.
  - simpl. rewrite app_nil_r. induction (uq_queue q) as [|x l IH]; [done|].
    rewrite filter_cons_True by apply not_elem_of_nil. by rewrite <-IH.
  - unfold uq_puts in *. simpl foldl. rewrite IH. simpl uq_queue.
    rewrite filter_app, list_filter_filter, <-(assoc_L (++)). f_equal.
    + apply list_filter_iff. intros x. rewrite not_elem_of_cons. tauto.
    + simpl remove_dups. rewrite filter_cons, filter_nil.
      destruct (decide (l ∉ ls)) as [Hn|Hn]; destruct (decide_rel elem_of l ls) as [Hi|Hi];
        done.
Qed.

Lemma remove_dups_length (l : list Loader) : (length (remove_dups l) ≤ length l)%nat.
Proof.
  induction l as [|x l IH]; simpl; [done|]. destruct (decide_rel elem_of x l); simpl; lia.
Qed.

End UploadQueuePut.

Section UploadQueueSend.
Context {Loader Store : Type}.
Variable upload : Loader → Store → Res unit * Store.

Lemma upload_loop_stopped queue st : upload_loop upload false queue st = (Ret tt, [], st).
Proof. by destruct queue. Qed.

Lemma upload_loop_spec queue st :
  let r := upload_loop upload true queue st in
  match r.1.1 with
  | Ret _ => r.1.2 = queue
  | Raise e =>
    ∃ loader rest st0,
      queue = r.1.2 ++ loader :: rest
      ∧ upload_loop upload true r.1.2 st = (Ret tt, r.1.2, st0)
      ∧ upload loader st0 = (Raise e, r.2)
  end.
Proof.
  revert st. induction queue as [|l queue IH]; intros st; simpl; [done|].
  destruct (upload l st) as [[[]|e] st'] eqn:Hup; simpl.
  - specialize (IH st'). simpl in IH.
    destruct (upload_loop upload true queue st') as [[res done] st''] eqn:Hloop.
    simpl in *. destruct res as [[]|e].
    + by rewrite IH.
    + destruct IH as (loader & rest & st0 & Hq & Hdone & Hl).
      exists loader, rest, st0. split_and!; [by rewrite Hq| |done].
      by rewrite Hup, Hdone.
  - exists l, queue, st. by rewrite Hup.
Qed.
End UploadQueueSend.

(** X13. After any run of [put] calls the queue holds the loaders
    that were queued before and not put again, in their order, followed
    by the loaders put, each once, in the order of their last [put]; the
    flag [started] is as it was. *)
Theorem uq_put_keeps_last {Loader : Type} `{EqDecision Loader}
    (loaders : list Loader) (q : UploadQueue (Loader := Loader)) :
  uq_queue (uq_puts loaders q)
  = filter (λ e, e ∉ loaders) (uq_queue q) ++ remove_dups loaders
  ∧ uq_started (uq_puts loaders q) = uq_started q
  ∧ (NoDup (uq_queue q) → NoDup (uq_queue (uq_puts loaders q)))
  ∧ (uq_len (uq_puts loaders q) ≤ uq_len q + length loaders)%nat.
Proof.
  split_and!.
  - apply uq_puts_queue.
  - apply uq_puts_started.
  - intros Hq. rewrite uq_puts_queue. apply NoDup_app. split_and!.
    + by apply NoDup_filter.
    + intros x Hx Hx'. apply list_elem_of_filter in Hx as [Hx _].
      apply Hx. by apply elem_of_remove_dups.
    + apply NoDup_remove_dups.
  - unfold uq_len. rewrite uq_puts_queue, length_app.
    pose proof (length_filter (λ e, e ∉ loaders) (uq_queue q)).
    pose proof (remove_dups_length loaders). lia.
Qed.

(** X14. [send] on a queue that is not started uploads nothing and
    raises nothing, and still empties the queue: the loaders that were
    queued are dropped. *)
Theorem uq_send_stopped_drops {Loader Store : Type}
    (upload : Loader → Store → Res unit * Store)
    (q : UploadQueue (Loader := Loader)) (st : Store) :
  uq_started q = false →
  uq_send upload q st = (Ret tt, [], uq_init, st).
Proof.
  intros Hs. unfold uq_send. rewrite Hs, upload_loop_stopped. done.
Qed.

Lemma uq_send_stopped_drops_witness :
  uq_send (counting_upload []) (uq_puts ["timer-skill"; "news-skill"] uq_init) 0%nat
  = (Ret tt, [], uq_init, 0%nat).
Proof. apply (uq_send_stopped_drops (counting_upload [])). reflexivity. Defined.

(** X15. [start] empties the queue and sets the flag. It uploads the
    queued loaders in order: all of them when no upload raises; otherwise
    the ones before the first loader whose upload raises, and the
    exception is that loader's. The loaders after it are neither uploaded
    nor kept. *)
Theorem uq_start_uploads_in_order {Loader Store : Type}
    (upload : Loader → Store → Res unit * Store)
    (q : UploadQueue (Loader := Loader)) (st : Store) :
  let r := uq_start upload q st in
  r.1.2 = mkUploadQueue [] true
  ∧ match r.1.1.1 with
    | Ret _ => r.1.1.2 = uq_queue q
    | Raise e =>
      ∃ loader rest st0,
        uq_queue q = r.1.1.2 ++ loader :: rest
        ∧ (uq_start upload (mkUploadQueue r.1.1.2 (uq_started q)) st).1.1.1 = Ret tt
        ∧ (uq_start upload (mkUploadQueue r.1.1.2 (uq_started q)) st).2 = st0
        ∧ upload loader st0 = (Raise e, r.2)
    end.
Proof.
  intros r. subst r. unfold uq_start, uq_send. simpl uq_queue. simpl uq_started.
  pose proof (upload_loop_spec upload (uq_queue q) st) as Hspec. simpl in Hspec.
  destruct (upload_loop upload true (uq_queue q) st) as [[res done] st'] eqn:Hloop.
  simpl in *. split; [done|].
  destruct res as [[]|e]; [done|].
  destruct Hspec as (loader & rest & st0 & Hq & Hdone & Hl).
  exists loader, rest, st0. rewrite Hdone. done.
Qed.


Lemma uq_put_keeps_last_witness :
  uq_queue (uq_puts ["timer-skill"; "news-skill"; "timer-skill"] uq_init)
  = ["news-skill"; "timer-skill"].
Proof.
  rewrite (proj1 (uq_put_keeps_last ["timer-skill"; "news-skill"; "timer-skill"] uq_init)).
  reflexivity.
Defined.

Lemma uq_start_uploads_in_order_witness :
  (uq_start (counting_upload ["news-skill"])
     (uq_puts ["timer-skill"; "news-skill"; "alarm-skill"] uq_init) 0%nat).1.2
  = mkUploadQueue [] true.
Proof.
  apply (uq_start_uploads_in_order (counting_upload ["news-skill"])
           (uq_puts ["timer-skill"; "news-skill"; "alarm-skill"] uq_init) 0%nat).
Defined.
